(** * The seed script of the dashboard: scripts/seed.js

    A shallow embedding of [seedUsers], [seedCustomers], [seedInvoices],
    [seedRevenue] and [main], together with the part of the database server
    the SQL text of the script relies on (idempotent DDL, NOT NULL and UNIQUE
    constraints, [INSERT ... ON CONFLICT (key) DO NOTHING]).

    The script is asynchronous JavaScript.  Its control flow is embedded in a
    state-and-exception monad over a [World]; the order in which the inserts
    of one [Promise.all] batch settle is left to an arbitrary scheduler.

    The file has five parts: the embedding, the vocabulary of the
    properties, a concrete platform with sample records, the properties with
    their proofs, and the properties on the samples. *)

From Stdlib Require Import List String Ascii ZArith Bool Arith Lia.
From Stdlib Require Import Permutation Sorted.
Import ListNotations.
Local Open Scope string_scope.
Local Open Scope list_scope.

Set Implicit Arguments.

(** ** Fixture records (app/lib/placeholder-data.js)

    The data module is not part of the script; its four arrays are arguments
    of the loaders.  A field that is [undefined] or [null] in the JavaScript
    object is [None]: the SQL client binds both as NULL.  Amounts are
    integers. *)

Record User := mkUser {
  user_id : option string;
  user_name : option string;
  user_email : option string;
  user_password : option string
}.

Record Customer := mkCustomer {
  customer_id : option string;
  customer_name : option string;
  customer_email : option string;
  customer_image_url : option string
}.

Record Invoice := mkInvoice {
  invoice_customer_id : option string;
  invoice_amount : option Z;
  invoice_status : option string;
  invoice_date : option string
}.

Record Rev := mkRev {
  rev_month : option string;
  rev_revenue : option Z
}.

Record Fixture := mkFixture {
  users : list User;
  customers : list Customer;
  invoices : list Invoice;
  revenue : list Rev
}.

(** ** Tables and rows *)

Inductive Table := Users | Customers | Invoices | Revenue.

Definition Table_eqb (a b : Table) : bool :=
  match a, b with
  | Users, Users | Customers, Customers
  | Invoices, Invoices | Revenue, Revenue => true
  | _, _ => false
  end.

(** The order in which [main] seeds the tables. *)
Definition phase_index (t : Table) : nat :=
  match t with Users => 0 | Customers => 1 | Invoices => 2 | Revenue => 3 end.

(** A value of SQL type UUID.  [Lit v] is the value of a literal supplied by
    the client; [Gen n] is the [n]-th value drawn from [uuid_generate_v4()].
    Version 4 identifiers are random; as the comments of the script state,
    they are taken never to repeat and never to equal a supplied one. *)
Inductive uuid := Lit (v : N) | Gen (n : nat).

Definition uuid_eqb (a b : uuid) : bool :=
  match a, b with
  | Lit x, Lit y => N.eqb x y
  | Gen x, Gen y => Nat.eqb x y
  | _, _ => false
  end.

Record UserRow := mkUserRow {
  u_id : uuid; u_name : string; u_email : string; u_password : string
}.

Record CustomerRow := mkCustomerRow {
  c_id : uuid; c_name : string; c_email : string; c_image_url : string
}.

Record InvoiceRow := mkInvoiceRow {
  i_id : uuid; i_customer_id : uuid; i_amount : Z; i_status : string;
  i_date : Z
}.

Record RevenueRow := mkRevenueRow {
  r_month : string; r_revenue : Z
}.

(** The database: the extension flag, the four relations ([None] while the
    relation does not exist) and the number of identifiers generated so
    far. *)
Record Db := mkDb {
  uuid_ossp : bool;
  users_t : option (list UserRow);
  customers_t : option (list CustomerRow);
  invoices_t : option (list InvoiceRow);
  revenue_t : option (list RevenueRow);
  next_uuid : nat
}.

Definition empty_db : Db := mkDb false None None None None 0.

Definition is_some {A} (o : option A) : bool :=
  match o with Some _ => true | None => false end.

Definition table_exists (t : Table) (d : Db) : bool :=
  match t with
  | Users => is_some (users_t d)
  | Customers => is_some (customers_t d)
  | Invoices => is_some (invoices_t d)
  | Revenue => is_some (revenue_t d)
  end.

Definition rows_of {A} (o : option (list A)) : list A :=
  match o with Some l => l | None => [] end.

Definition row_count (t : Table) (d : Db) : nat :=
  match t with
  | Users => List.length (rows_of (users_t d))
  | Customers => List.length (rows_of (customers_t d))
  | Invoices => List.length (rows_of (invoices_t d))
  | Revenue => List.length (rows_of (revenue_t d))
  end.

(** ** Statements and their results *)

Inductive Stmt :=
| CreateExtension
| CreateTable (t : Table)
| InsertUser (id name email password : option string)
| InsertCustomer (id name email image_url : option string)
| InsertInvoice (cust : option string) (amount : option Z)
                (status date : option string)
| InsertRevenue (month : option string) (rev : option Z).

Inductive DbError :=
| CharacterNotInRepertoire    (* 22021: invalid byte sequence in a text *)
| InvalidTextRepresentation   (* 22P02: malformed uuid literal *)
| InvalidDatetimeFormat       (* 22007: malformed date literal *)
| NumericValueOutOfRange      (* 22003: integer outside INT *)
| StringDataRightTruncation   (* 22001: value too long for VARCHAR(n) *)
| NotNullViolation            (* 23502 *)
| UniqueViolation             (* 23505: a unique index that is not the
                                 conflict target *)
| UndefinedTable              (* 42P01 *)
| UndefinedFunction.          (* 42883: uuid_generate_v4() without the
                                 extension *)

(** The [rowCount] of a query result: 1 for an inserted row, 0 for a row
    skipped by DO NOTHING.  The command tag of a DDL statement carries no
    count, and the client leaves [rowCount] at [null]. *)
Definition QueryResult := option nat.

(** The rows a result reports. *)
Definition rows_reported (q : QueryResult) : nat :=
  match q with Some n => n | None => 0 end.

Definition is_insert (s : Stmt) : bool :=
  match s with
  | CreateExtension | CreateTable _ => false
  | _ => true
  end.

Definition stmt_table (s : Stmt) : option Table :=
  match s with
  | CreateExtension => None
  | CreateTable t => Some t
  | InsertUser _ _ _ _ => Some Users
  | InsertCustomer _ _ _ _ => Some Customers
  | InsertInvoice _ _ _ _ => Some Invoices
  | InsertRevenue _ _ => Some Revenue
  end.

(** ** Column types

    The checks a value passes on its way into a column, in the order the
    server applies them: the parameters of the statement, one after the
    other, pass the encoding check and the input function of their type;
    then come the length coercions of the VARCHAR(n) columns, then NOT NULL.
    NULL passes all but the last. *)

Definition Res (A : Type) : Type := (DbError + A)%type.

Definition res_bind {A B} (r : Res A) (k : A -> Res B) : Res B :=
  match r with inl e => inl e | inr a => k a end.

Notation "x <-- r ;;; k" := (res_bind r (fun x => k))
  (at level 61, r at next level, right associativity).

Definition INT_MIN : Z := (- 2147483648)%Z.
Definition INT_MAX : Z := 2147483647%Z.

Definition in_int (o : option Z) : Res (option Z) :=
  match o with
  | None => inr None
  | Some z => if ((INT_MIN <=? z) && (z <=? INT_MAX))%Z%bool
              then inr (Some z) else inl NumericValueOutOfRange
  end.

(** A text is held as its bytes in UTF-8, the encoding in which the client
    sends a JavaScript string.  The server takes any such text but one that
    holds the zero byte. *)
Fixpoint has_nul (s : string) : bool :=
  match s with
  | EmptyString => false
  | String c r => Ascii.eqb c Ascii.zero || has_nul r
  end.

Definition in_text (o : option string) : Res (option string) :=
  match o with
  | None => inr None
  | Some s => if has_nul s then inl CharacterNotInRepertoire
              else inr (Some s)
  end.

(** The server measures a text in characters, not in bytes.  A byte of the
    form 10xxxxxx continues a character; any other byte starts one. *)
Definition continues (c : ascii) : bool :=
  match c with Ascii _ _ _ _ _ _ b6 b7 => b7 && negb b6 end.

(** The first [n] characters of a text, and what follows them. *)
Fixpoint clip (n : nat) (s : string) : string * string :=
  match s with
  | EmptyString => (EmptyString, EmptyString)
  | String c r =>
      if continues c then let (a, b) := clip n r in (String c a, b)
      else match n with
           | O => (EmptyString, s)
           | S k => let (a, b) := clip k r in (String c a, b)
           end
  end.

Fixpoint all_spaces (s : string) : bool :=
  match s with
  | EmptyString => true
  | String c r => Ascii.eqb c " "%char && all_spaces r
  end.

(** VARCHAR(n): a value of more than [n] characters is an error unless the
    excess is spaces, which are cut off. *)
Definition in_varchar (n : nat) (o : option string) : Res (option string) :=
  match o with
  | None => inr None
  | Some s =>
      let (kept, excess) := clip n s in
      if all_spaces excess then inr (Some kept)
      else inl StringDataRightTruncation
  end.

Definition not_null {A} (o : option A) : Res A :=
  match o with Some a => inr a | None => inl NotNullViolation end.

Definition needs_uuid_default (t : Table) : bool :=
  match t with Revenue => false | _ => true end.

Definition set_uuid_ossp (b : bool) (d : Db) : Db :=
  mkDb b (users_t d) (customers_t d) (invoices_t d) (revenue_t d)
       (next_uuid d).
Definition set_users (l : list UserRow) (d : Db) : Db :=
  mkDb (uuid_ossp d) (Some l) (customers_t d) (invoices_t d) (revenue_t d)
       (next_uuid d).
Definition set_customers (l : list CustomerRow) (d : Db) : Db :=
  mkDb (uuid_ossp d) (users_t d) (Some l) (invoices_t d) (revenue_t d)
       (next_uuid d).
Definition set_invoices (l : list InvoiceRow) (d : Db) : Db :=
  mkDb (uuid_ossp d) (users_t d) (customers_t d) (Some l) (revenue_t d)
       (next_uuid d).
Definition set_revenue (l : list RevenueRow) (d : Db) : Db :=
  mkDb (uuid_ossp d) (users_t d) (customers_t d) (invoices_t d) (Some l)
       (next_uuid d).
Definition draw_uuid (d : Db) : Db :=
  mkDb (uuid_ossp d) (users_t d) (customers_t d) (invoices_t d) (revenue_t d)
       (S (next_uuid d)).

Definition create_table (t : Table) (d : Db) : Db :=
  match t with
  | Users => set_users [] d
  | Customers => set_customers [] d
  | Invoices => set_invoices [] d
  | Revenue => set_revenue [] d
  end.

Definition has_user_id (k : uuid) (l : list UserRow) : bool :=
  existsb (fun x => uuid_eqb (u_id x) k) l.
Definition has_user_email (e : string) (l : list UserRow) : bool :=
  existsb (fun x => String.eqb (u_email x) e) l.
Definition has_customer_id (k : uuid) (l : list CustomerRow) : bool :=
  existsb (fun x => uuid_eqb (c_id x) k) l.
Definition has_invoice_id (k : uuid) (l : list InvoiceRow) : bool :=
  existsb (fun x => uuid_eqb (i_id x) k) l.
Definition has_month (m : string) (l : list RevenueRow) : bool :=
  existsb (fun x => String.eqb (r_month x) m) l.

(** ** The process running the script *)

(** What a rejected promise carries. *)
Inductive Err :=
| DbErr (e : DbError)     (* the query failed *)
| HashErr.                (* bcrypt.hash rejected: no data to hash *)

(** Lines written to the console. *)
Inductive Console :=
| Created (t : Table)                 (* console.log: Created "t" table *)
| Seeded (n : nat) (t : Table)        (* console.log: Seeded n t *)
| ErrorSeeding (t : Table) (e : Err)  (* console.error: Error seeding t: *)
| ErrorOccurred (e : Err).            (* console.error in main().catch *)

(** What the process does, in the order it happens.  A query is recorded
    with the loader that issued it and the result it settled with. *)
Inductive Event :=
| EvConnect
| EvEnd
| EvSql (who : Table) (s : Stmt) (r : Res QueryResult)
| EvConsole (c : Console).

(** The element promises of a [Promise.all] batch. *)
Inductive Task :=
| UserTask (user : User)
| CustomerTask (customer : Customer)
| InvoiceTask (invoice : Invoice)
| RevenueTask (rev : Rev).

Record World := mkWorld {
  db : Db;                 (* the database behind the client *)
  salts : nat;             (* salts drawn by bcrypt so far *)
  ticks : nat;             (* batches dispatched so far *)
  inflight : list Task;    (* promises dispatched and not yet settled *)
  trace : list Event
}.

(** A process started against database [d]. *)
Definition boot (d : Db) (salt tick : nat) : World :=
  mkWorld d salt tick [] [].

(** ** The order of a batch

    The promises of a batch settle in some order of their indices. *)

(** The promises [ts] in the order [order] of their indices; an index
    beyond the array names no promise. *)
Fixpoint arrange (ts : list Task) (order : list nat) : list Task :=
  match order with
  | [] => []
  | i :: rest =>
      match nth_error ts i with
      | Some t => t :: arrange ts rest
      | None => arrange ts rest
      end
  end.

(** The result of the promise with index [i], when the promises settled in
    the order [order] with the results [res]; it is found wherever [order]
    lists [i], as the order of a batch lists every index. *)
Fixpoint result_of (i : nat) (order : list nat) (res : list QueryResult)
  : QueryResult :=
  match order, res with
  | j :: order', q :: res' =>
      if Nat.eqb j i then q else result_of i order' res'
  | _, _ => None
  end.

(** The results of a batch as [Promise.all] hands them over: in the order of
    the array, whatever the order in which the promises settled. *)
Definition in_array_order (order : list nat) (res : list QueryResult)
  : list QueryResult :=
  map (fun i => result_of i order res) (seq 0 (List.length res)).

Arguments in_array_order : simpl never.

(** ** The platform

    What the script takes from outside: the input functions of the server
    types UUID and DATE ([uuid_in] yields the 128-bit value of a literal,
    [date_in] the day number), the bcrypt library ([bcrypt_hash data rounds
    salt] is the hash string of [data] under the salt drawn, and
    [bcrypt_compare data hash] the hash check), and the order in which the
    promises of a batch settle, which the script does not fix:
    [schedule k l] lists the indices of the [k]-th batch [l] in the order
    in which its promises settle. *)
Class Platform := {
  uuid_in : string -> option N;
  date_in : string -> option Z;
  bcrypt_hash : string -> nat -> nat -> string;
  bcrypt_compare : string -> string -> bool;
  schedule : nat -> list Task -> list nat;
  schedule_perm :
    forall k l, Permutation (schedule k l) (seq 0 (List.length l))
}.

Section Seed.

Context {P : Platform}.

Definition in_uuid (o : option string) : Res (option uuid) :=
  o' <-- in_text o ;;;
  match o' with
  | None => inr None
  | Some s => match uuid_in s with
              | Some v => inr (Some (Lit v))
              | None => inl InvalidTextRepresentation
              end
  end.

Definition in_date (o : option string) : Res (option Z) :=
  o' <-- in_text o ;;;
  match o' with
  | None => inr None
  | Some s => match date_in s with
              | Some v => inr (Some v)
              | None => inl InvalidDatetimeFormat
              end
  end.

(** users (id UUID DEFAULT uuid_generate_v4() PRIMARY KEY,
           name VARCHAR(255) NOT NULL, email TEXT NOT NULL UNIQUE,
           password TEXT NOT NULL).
    The password bound by the script is a hash string made by bcrypt, which
    is plain ASCII: the encoding check has nothing to refuse there. *)
Definition user_row (id name email password : option string) : Res UserRow :=
  id' <-- in_uuid id ;;;
  name0 <-- in_text name ;;;
  email' <-- in_text email ;;;
  name' <-- in_varchar 255 name0 ;;;
  i <-- not_null id' ;;;
  n <-- not_null name' ;;;
  e <-- not_null email' ;;;
  p <-- not_null password ;;;
  inr (mkUserRow i n e p).

(** customers (id UUID DEFAULT uuid_generate_v4() PRIMARY KEY,
               name VARCHAR(255) NOT NULL, email VARCHAR(255) NOT NULL,
               image_url VARCHAR(255) NOT NULL) *)
Definition customer_row (id name email image_url : option string)
  : Res CustomerRow :=
  id' <-- in_uuid id ;;;
  name0 <-- in_text name ;;;
  email0 <-- in_text email ;;;
  image0 <-- in_text image_url ;;;
  name' <-- in_varchar 255 name0 ;;;
  email' <-- in_varchar 255 email0 ;;;
  image' <-- in_varchar 255 image0 ;;;
  i <-- not_null id' ;;;
  n <-- not_null name' ;;;
  e <-- not_null email' ;;;
  u <-- not_null image' ;;;
  inr (mkCustomerRow i n e u).

(** invoices (id UUID DEFAULT uuid_generate_v4() PRIMARY KEY,
              customer_id UUID NOT NULL, amount INT NOT NULL,
              status VARCHAR(255) NOT NULL, date DATE NOT NULL).
    The statement names no id column: the row takes the default [fresh]. *)
Definition invoice_row (fresh : uuid) (cust : option string)
    (amount : option Z) (status date : option string) : Res InvoiceRow :=
  cust' <-- in_uuid cust ;;;
  amount' <-- in_int amount ;;;
  status0 <-- in_text status ;;;
  date' <-- in_date date ;;;
  status' <-- in_varchar 255 status0 ;;;
  c <-- not_null cust' ;;;
  a <-- not_null amount' ;;;
  s <-- not_null status' ;;;
  t <-- not_null date' ;;;
  inr (mkInvoiceRow fresh c a s t).

(** revenue (month VARCHAR(4) NOT NULL UNIQUE, revenue INT NOT NULL) *)
Definition revenue_row (month : option string) (rev : option Z)
  : Res RevenueRow :=
  month0 <-- in_text month ;;;
  rev' <-- in_int rev ;;;
  month' <-- in_varchar 4 month0 ;;;
  m <-- not_null month' ;;;
  r <-- not_null rev' ;;;
  inr (mkRevenueRow m r).

(** One statement against the database.  An INSERT first builds the row
    (any failure there is an error), then probes the unique index named by
    ON CONFLICT: a hit means DO NOTHING, with [rowCount] 0.  Only then are
    the remaining unique indexes checked, where a hit is an error. *)
Definition exec (s : Stmt) (d : Db) : Db * Res QueryResult :=
  match s with
  | CreateExtension => (set_uuid_ossp true d, inr None)
  | CreateTable t =>
      if table_exists t d then (d, inr None)
      else if needs_uuid_default t && negb (uuid_ossp d)
           then (d, inl UndefinedFunction)
           else (create_table t d, inr None)
  | InsertUser id name email password =>
      match users_t d with
      | None => (d, inl UndefinedTable)
      | Some rows =>
          match user_row id name email password with
          | inl e => (d, inl e)
          | inr r =>
              if has_user_id (u_id r) rows then (d, inr (Some 0))
              else if has_user_email (u_email r) rows
                   then (d, inl UniqueViolation)
                   else (set_users (rows ++ [r]) d, inr (Some 1))
          end
      end
  | InsertCustomer id name email image_url =>
      match customers_t d with
      | None => (d, inl UndefinedTable)
      | Some rows =>
          match customer_row id name email image_url with
          | inl e => (d, inl e)
          | inr r =>
              if has_customer_id (c_id r) rows then (d, inr (Some 0))
              else (set_customers (rows ++ [r]) d, inr (Some 1))
          end
      end
  | InsertInvoice cust amount status date =>
      match invoices_t d with
      | None => (d, inl UndefinedTable)
      | Some rows =>
          match invoice_row (Gen (next_uuid d)) cust amount status date with
          | inl e => (d, inl e)
          | inr r =>
              if has_invoice_id (i_id r) rows then (draw_uuid d, inr (Some 0))
              else (draw_uuid (set_invoices (rows ++ [r]) d), inr (Some 1))
          end
      end
  | InsertRevenue month rev =>
      match revenue_t d with
      | None => (d, inl UndefinedTable)
      | Some rows =>
          match revenue_row month rev with
          | inl e => (d, inl e)
          | inr r =>
              if has_month (r_month r) rows then (d, inr (Some 0))
              else (set_revenue (rows ++ [r]) d, inr (Some 1))
          end
      end
  end.

(** ** The monad of the script *)

Definition M (A : Type) : Type := World -> World * (Err + A).

Definition ret {A} (a : A) : M A := fun w => (w, inr a).

Definition throw {A} (e : Err) : M A := fun w => (w, inl e).

Definition bind {A B} (m : M A) (k : A -> M B) : M B :=
  fun w => match m w with
           | (w', inl e) => (w', inl e)
           | (w', inr a) => k a w'
           end.

Definition try_catch {A} (m : M A) (h : Err -> M A) : M A :=
  fun w => match m w with
           | (w', inl e) => h e w'
           | (w', inr a) => (w', inr a)
           end.

Notation "x <- m ;; k" := (bind m (fun x => k))
  (at level 61, m at next level, right associativity).

Definition emit (e : Event) : M unit :=
  fun w => (mkWorld (db w) (salts w) (ticks w) (inflight w) (trace w ++ [e]),
            inr tt).

Definition console_log (c : Console) : M unit := emit (EvConsole c).
Definition console_error (c : Console) : M unit := emit (EvConsole c).

(** bcrypt.hash(data, rounds): draws a salt; rejects without data. *)
Definition bcrypt_hash_async (data : option string) (rounds : nat) : M string :=
  fun w => match data with
           | None => (w, inl HashErr)
           | Some p =>
               (mkWorld (db w) (S (salts w)) (ticks w) (inflight w) (trace w),
                inr (bcrypt_hash p rounds (salts w)))
           end.

(** client.sql`...`: the statement runs against the database and the
    promise settles with its result.  The errors are those the statement
    and its data can cause; a connection that breaks is not modelled. *)
Definition sql (who : Table) (s : Stmt) : M QueryResult :=
  fun w => let (d', r) := exec s (db w) in
           let w' := mkWorld d' (salts w) (ticks w) (inflight w)
                             (trace w ++ [EvSql who s r]) in
           match r with
           | inl e => (w', inl (DbErr e))
           | inr q => (w', inr q)
           end.

(** The callbacks handed to [map] in the four loaders. *)
Definition run_task (t : Task) : M QueryResult :=
  match t with
  | UserTask user =>
      hashedPassword <- bcrypt_hash_async (user_password user) 10 ;;
      sql Users (InsertUser (user_id user) (user_name user) (user_email user)
                            (Some hashedPassword))
  | CustomerTask customer =>
      sql Customers (InsertCustomer (customer_id customer)
                       (customer_name customer) (customer_email customer)
                       (customer_image_url customer))
  | InvoiceTask invoice =>
      sql Invoices (InsertInvoice (invoice_customer_id invoice)
                      (invoice_amount invoice) (invoice_status invoice)
                      (invoice_date invoice))
  | RevenueTask rev =>
      sql Revenue (InsertRevenue (rev_month rev) (rev_revenue rev))
  end.

(** [await Promise.all(...)] over promises settling in the order [ts]: it
    resumes with all results once the last promise is fulfilled, and throws
    as soon as one promise is rejected.  Nothing cancels the promises that
    have not settled by then; they stay in flight.  [settle] collects the
    results as the promises settle; [promise_all] hands them over in the
    order of the array. *)
Fixpoint settle (ts : list Task) (acc : list QueryResult)
  : M (list QueryResult) :=
  fun w =>
    match ts with
    | [] => (w, inr (rev acc))
    | t :: rest =>
        match run_task t w with
        | (w', inl e) =>
            (mkWorld (db w') (salts w') (ticks w') (inflight w' ++ rest)
                     (trace w'), inl e)
        | (w', inr r) => settle rest (r :: acc) w'
        end
    end.

(** The promises of the [k]-th batch in the order in which they settle. *)
Definition settling (k : nat) (ts : list Task) : list Task :=
  arrange ts (schedule k ts).

Definition promise_all (ts : list Task) : M (list QueryResult) :=
  fun w =>
    match settle (settling (ticks w) ts) []
            (mkWorld (db w) (salts w) (S (ticks w)) (inflight w) (trace w))
    with
    | (w', inr res) => (w', inr (in_array_order (schedule (ticks w) ts) res))
    | (w', inl e) => (w', inl e)
    end.

(** ** The loaders *)

Definition seedUsers (users : list User)
  : M (QueryResult * list QueryResult) :=
  try_catch
    (_ <- sql Users CreateExtension ;;
     createTable <- sql Users (CreateTable Users) ;;
     _ <- console_log (Created Users) ;;
     insertedUsers <- promise_all (map UserTask users) ;;
     _ <- console_log (Seeded (List.length insertedUsers) Users) ;;
     ret (createTable, insertedUsers))
    (fun error =>
       _ <- console_error (ErrorSeeding Users error) ;;
       throw error).

Definition seedInvoices (invoices : list Invoice)
  : M (QueryResult * list QueryResult) :=
  try_catch
    (_ <- sql Invoices CreateExtension ;;
     createTable <- sql Invoices (CreateTable Invoices) ;;
     _ <- console_log (Created Invoices) ;;
     insertedInvoices <- promise_all (map InvoiceTask invoices) ;;
     _ <- console_log (Seeded (List.length insertedInvoices) Invoices) ;;
     ret (createTable, insertedInvoices))
    (fun error =>
       _ <- console_error (ErrorSeeding Invoices error) ;;
       throw error).

Definition seedCustomers (customers : list Customer)
  : M (QueryResult * list QueryResult) :=
  try_catch
    (_ <- sql Customers CreateExtension ;;
     createTable <- sql Customers (CreateTable Customers) ;;
     _ <- console_log (Created Customers) ;;
     insertedCustomers <- promise_all (map CustomerTask customers) ;;
     _ <- console_log (Seeded (List.length insertedCustomers) Customers) ;;
     ret (createTable, insertedCustomers))
    (fun error =>
       _ <- console_error (ErrorSeeding Customers error) ;;
       throw error).

Definition seedRevenue (revenue : list Rev)
  : M (QueryResult * list QueryResult) :=
  try_catch
    (createTable <- sql Revenue (CreateTable Revenue) ;;
     _ <- console_log (Created Revenue) ;;
     insertedRevenue <- promise_all (map RevenueTask revenue) ;;
     _ <- console_log (Seeded (List.length insertedRevenue) Revenue) ;;
     ret (createTable, insertedRevenue))
    (fun error =>
       _ <- console_error (ErrorSeeding Revenue error) ;;
       throw error).

(** ** The orchestrator *)

(** [db.connect()] and [client.end()], both taken to succeed. *)
Definition db_connect : M unit := emit EvConnect.
Definition client_end : M unit := emit EvEnd.

Definition main (fx : Fixture) : M unit :=
  _ <- db_connect ;;
  _ <- seedUsers (users fx) ;;
  _ <- seedCustomers (customers fx) ;;
  _ <- seedInvoices (invoices fx) ;;
  _ <- seedRevenue (revenue fx) ;;
  client_end.

(** The promises still in flight settle one after the other; their results
    are observed by nobody. *)
Fixpoint settle_rest (ts : list Task) (w : World) : World :=
  match ts with
  | [] => w
  | t :: rest => settle_rest rest (fst (run_task t w))
  end.

Definition drain (w : World) : World :=
  settle_rest (inflight w)
    (mkWorld (db w) (salts w) (ticks w) [] (trace w)).

(** The whole script: [main().catch(...)], then the event loop runs dry.
    The handler swallows the error; the second component keeps how [main]
    settled. *)
Definition script (fx : Fixture) (w : World) : World * (Err + unit) :=
  match main fx w with
  | (w', inl err) =>
      (drain (fst (console_error (ErrorOccurred err) w')), inl err)
  | (w', inr u) => (drain w', inr u)
  end.

End Seed.

(** * Vocabulary of the properties

    Predicates and functions the statements below are written in.  None of
    them is part of the script. *)

Section Vocabulary.

Context {P : Platform}.

(** ** The database only grows, and stays well formed *)

(** [o'] is the table [o] with rows appended, if [o] exists at all. *)
Definition tbl_le {A} (o o' : option (list A)) : Prop :=
  match o with
  | None => True
  | Some l => exists more, o' = Some (l ++ more)
  end.

(** From [d] to [d'] nothing is dropped: the extension stays, every table
    keeps its rows in front of the new ones, the generator moves on. *)
Record db_le (d d' : Db) : Prop := mk_db_le {
  le_ext : uuid_ossp d = true -> uuid_ossp d' = true;
  le_users : tbl_le (users_t d) (users_t d');
  le_customers : tbl_le (customers_t d) (customers_t d');
  le_invoices : tbl_le (invoices_t d) (invoices_t d');
  le_revenue : tbl_le (revenue_t d) (revenue_t d');
  le_uuid : next_uuid d <= next_uuid d'
}.

(** Identifiers already in [invoices] were drawn before [next_uuid]. *)
Definition db_wf (d : Db) : Prop :=
  Forall (fun r => forall n, i_id r = Gen n -> n < next_uuid d)
         (rows_of (invoices_t d)).

(** ** Promises and events *)

(** The table a promise inserts into. *)
Definition task_table (t : Task) : Table :=
  match t with
  | UserTask _ => Users
  | CustomerTask _ => Customers
  | InvoiceTask _ => Invoices
  | RevenueTask _ => Revenue
  end.

(** The loader an event belongs to. *)
Definition event_phase (e : Event) : option Table :=
  match e with
  | EvSql who _ _ => Some who
  | EvConsole (Created t) | EvConsole (Seeded _ t)
  | EvConsole (ErrorSeeding t _) => Some t
  | _ => None
  end.

(** The event belongs to the loader of [t]. *)
Definition in_phase (t : Table) (e : Event) : Prop :=
  event_phase e = Some t.

(** The error of a query, as the rejection of its promise. *)
Definition lift_res {A} (r : Res A) : Err + A :=
  match r with inl e => inl (DbErr e) | inr a => inr a end.

(** The statement a promise sends, given the hash when it needs one. *)
Definition task_stmt (t : Task) (hash : string) : Stmt :=
  match t with
  | UserTask user =>
      InsertUser (user_id user) (user_name user) (user_email user) (Some hash)
  | CustomerTask customer =>
      InsertCustomer (customer_id customer) (customer_name customer)
        (customer_email customer) (customer_image_url customer)
  | InvoiceTask invoice =>
      InsertInvoice (invoice_customer_id invoice) (invoice_amount invoice)
        (invoice_status invoice) (invoice_date invoice)
  | RevenueTask rev => InsertRevenue (rev_month rev) (rev_revenue rev)
  end.

(** The password a user promise hashes; the other promises hash nothing. *)
Definition task_plain (t : Task) : option (option string) :=
  match t with
  | UserTask user => Some (user_password user)
  | _ => None
  end.

(** A promise either is rejected by bcrypt before it touches anything, or
    sends exactly one INSERT and settles with its result. *)
Inductive task_run (t : Task) (w : World) : World -> Err + QueryResult -> Prop :=
| run_hash_rejected :
    task_plain t = Some None ->
    task_run t w w (inl HashErr)
| run_sent (h : string) (s' : nat) :
    (task_plain t = None /\ s' = salts w \/
     exists p, task_plain t = Some (Some p) /\
               h = bcrypt_hash p 10 (salts w) /\ s' = S (salts w)) ->
    task_run t w
      (mkWorld (fst (exec (task_stmt t h) (db w))) s' (ticks w) (inflight w)
         (trace w ++ [EvSql (task_table t) (task_stmt t h)
                        (snd (exec (task_stmt t h) (db w)))]))
      (lift_res (snd (exec (task_stmt t h) (db w)))).

(** ** How the world evolves

    [evolves Q w w']: from [w] to [w'] the database has only grown, stays
    well formed, and the trace has been extended by events satisfying
    [Q]. *)
Record evolves (Q : Event -> Prop) (w w' : World) : Prop := mk_evolves {
  ev_db : db_le (db w) (db w');
  ev_wf : db_wf (db w) -> db_wf (db w');
  ev_trace : exists evs, trace w' = trace w ++ evs /\ Forall Q evs
}.

(** ** The shape of a loader

    The four loaders have one shape: DDL, a console line, the batch, and a
    second console line or, in the handler, the error line.  The DDL of a
    loader cannot fail: the extension is there when the table needs its
    default.  [init_db] is the database after the DDL, [init_events] what
    the trace gains up to the first console line, and [loader] the shape
    itself, which each of the four loaders is shown to have. *)
Definition init_db (t : Table) (d : Db) : Db :=
  let d1 := if needs_uuid_default t then set_uuid_ossp true d else d in
  if table_exists t d1 then d1 else create_table t d1.

Definition init_events (t : Table) : list Event :=
  (if needs_uuid_default t then [EvSql t CreateExtension (inr None)] else [])
  ++ [EvSql t (CreateTable t) (inr None); EvConsole (Created t)].

Definition after_init (t : Table) (w : World) : World :=
  mkWorld (init_db t (db w)) (salts w) (ticks w) (inflight w)
          (trace w ++ init_events t).

Definition loader (t : Table) (tasks : list Task)
  : M (QueryResult * list QueryResult) :=
  fun w =>
    match promise_all tasks (after_init t w) with
    | (w2, inr res) =>
        (fst (emit (EvConsole (Seeded (List.length res) t)) w2),
         inr (None, res))
    | (w2, inl e) =>
        (fst (emit (EvConsole (ErrorSeeding t e)) w2), inl e)
    end.

(** ** The orchestrator as a sequence of loaders *)

(** The batch of the loader of [t]. *)
Definition phase_tasks (fx : Fixture) (t : Table) : list Task :=
  match t with
  | Users => map UserTask (users fx)
  | Customers => map CustomerTask (customers fx)
  | Invoices => map InvoiceTask (invoices fx)
  | Revenue => map RevenueTask (revenue fx)
  end.

(** The loader of table [t], as [main] calls it. *)
Definition seed (fx : Fixture) (t : Table)
  : M (QueryResult * list QueryResult) :=
  match t with
  | Users => seedUsers (users fx)
  | Customers => seedCustomers (customers fx)
  | Invoices => seedInvoices (invoices fx)
  | Revenue => seedRevenue (revenue fx)
  end.

(** The loaders in the order of the calls in [main], and [main] between
    connecting and ending, over any list of loaders. *)
Definition seed_order : list Table := [Users; Customers; Invoices; Revenue].

Fixpoint run_phases (fx : Fixture) (ts : list Table) : M unit :=
  match ts with
  | [] => ret tt
  | t :: l => bind (seed fx t) (fun _ => run_phases fx l)
  end.

(** How a sequence of loaders ran: to the end, or up to the first loader
    that threw. *)
Inductive phases_run (fx : Fixture)
  : list Table -> World -> World -> Err + unit -> Prop :=
| phases_nil w : phases_run fx [] w w (inr tt)
| phases_throw t l w e :
    snd (seed fx t w) = inl e ->
    phases_run fx (t :: l) w (fst (seed fx t w)) (inl e)
| phases_cons t l w x w' r :
    snd (seed fx t w) = inr x ->
    phases_run fx l (fst (seed fx t w)) w' r ->
    phases_run fx (t :: l) w w' r.

(** [e] may precede [e']: if both belong to loaders, that of [e] is not
    the later one. *)
Definition phase_le (e e' : Event) : Prop :=
  forall t t', event_phase e = Some t -> event_phase e' = Some t' ->
               phase_index t <= phase_index t'.

(** The tables are listed in seeding order. *)
Definition table_sorted (ts : list Table) : Prop :=
  StronglySorted (fun a b => phase_index a <= phase_index b) ts.

(** Events between two worlds. *)
Definition events_from (w w' : World) (evs : list Event) : Prop :=
  trace w' = trace w ++ evs.

(** The event belongs to no loader after that of [t]. *)
Definition bounded_by (t : Table) (e : Event) : Prop :=
  forall t', event_phase e = Some t' -> phase_index t' <= phase_index t.

(** The event belongs to some loader: it is neither the connect nor the
    end nor the line of [main().catch]. *)
Definition has_phase (e : Event) : Prop := exists t, in_phase t e.

(** The two shapes of the trace of a run from a fresh process: completed,
    or failed in the loader of [t] with the promises [late] settling after
    the error was logged. *)
Inductive script_trace (fx : Fixture) : list Event -> Err + unit -> Prop :=
| trace_completed evs :
    Forall has_phase evs ->
    Forall (fun t =>
      In (EvConsole (Seeded (List.length (phase_tasks fx t)) t)) evs)
      seed_order ->
    script_trace fx (EvConnect :: evs ++ [EvEnd]) (inr tt)
| trace_failed evs e t late :
    Forall has_phase evs ->
    Forall (bounded_by t) evs ->
    In (EvConsole (ErrorSeeding t e)) evs ->
    Forall (in_phase t) late ->
    script_trace fx (EvConnect :: evs ++ EvConsole (ErrorOccurred e) :: late)
      (inl e).

(** ** Records the database has already taken

    [seeded_task t d]: the row of [t] passes the column checks, its table
    exists in [d], and, where the statement supplies the key, a row with
    that key is there. *)
Definition seeded_task (t : Task) (d : Db) : Prop :=
  match t with
  | UserTask u =>
      exists p r rows,
        user_password u = Some p /\
        user_row (user_id u) (user_name u) (user_email u) (Some p) = inr r /\
        users_t d = Some rows /\ has_user_id (u_id r) rows = true
  | CustomerTask c =>
      exists r rows,
        customer_row (customer_id c) (customer_name c) (customer_email c)
          (customer_image_url c) = inr r /\
        customers_t d = Some rows /\ has_customer_id (c_id r) rows = true
  | InvoiceTask i =>
      exists r rows,
        invoice_row (Gen 0) (invoice_customer_id i) (invoice_amount i)
          (invoice_status i) (invoice_date i) = inr r /\
        invoices_t d = Some rows
  | RevenueTask v =>
      exists r rows,
        revenue_row (rev_month v) (rev_revenue v) = inr r /\
        revenue_t d = Some rows /\ has_month (r_month r) rows = true
  end.

(** The id of the row was drawn by the server, not before draw [n]. *)
Definition drawn_from (n : nat) (r : InvoiceRow) : Prop :=
  exists k, i_id r = Gen k /\ n <= k.

(** Table [t] is the same in both databases. *)
Definition same_table (t : Table) (d d' : Db) : Prop :=
  match t with
  | Users => users_t d = users_t d'
  | Customers => customers_t d = customers_t d'
  | Invoices => invoices_t d = invoices_t d'
  | Revenue => revenue_t d = revenue_t d'
  end.

(** Table [t] exists, and so does the extension if its DDL needs it. *)
Definition initialised (t : Table) (d : Db) : Prop :=
  table_exists t d = true /\
  (needs_uuid_default t = true -> uuid_ossp d = true).

(** The world in which the promises of a batch start to settle. *)
Definition bump (w : World) : World :=
  mkWorld (db w) (salts w) (S (ticks w)) (inflight w) (trace w).

(** [seeded fx d]: every table is initialised and every fixture record has
    been taken. *)
Definition seeded (fx : Fixture) (d : Db) : Prop :=
  forall t, initialised t d /\
            Forall (fun x => seeded_task x d) (phase_tasks fx t).

(** The promise comes from a record of the fixture. *)
Definition of_fixture (fx : Fixture) (x : Task) : Prop :=
  exists t, In x (phase_tasks fx t).

(** [r] is the row of a fixture user, with the hash of that user's password
    at cost 10 in the password column. *)
Definition hashed_row (fx : Fixture) (r : UserRow) : Prop :=
  exists u p salt,
    In u (users fx) /\ user_password u = Some p /\
    user_row (user_id u) (user_name u) (user_email u)
             (Some (bcrypt_hash p 10 salt)) = inr r.

(** The users table has gained rows of that kind only. *)
Definition users_grow (fx : Fixture) (d d' : Db) : Prop :=
  exists new,
    rows_of (users_t d') = rows_of (users_t d) ++ new /\
    Forall (hashed_row fx) new.

(** ** Schema statements, the connection *)

(** The DDL statements of the loader of [t], in the order it issues
    them. *)
Definition schema_stmts (t : Table) : list Stmt :=
  if needs_uuid_default t then [CreateExtension; CreateTable t]
  else [CreateTable t].

(** Statements one after the other, up to the first that fails. *)
Fixpoint exec_all (l : list Stmt) (d : Db) : Db * Res QueryResult :=
  match l with
  | [] => (d, inr None)
  | s :: l' =>
      match exec s d with
      | (d', inl e) => (d', inl e)
      | (d', inr _) => exec_all l' d'
      end
  end.

Definition is_end (e : Event) : bool :=
  match e with EvEnd => true | _ => false end.

Definition is_connect (e : Event) : bool :=
  match e with EvConnect => true | _ => false end.

(** How often the trace releases, and acquires, the connection. *)
Definition releases (evs : list Event) : nat :=
  List.length (filter is_end evs).

Definition acquisitions (evs : list Event) : nat :=
  List.length (filter is_connect evs).

(** The record passes the column checks of the invoices table. *)
Definition invoice_ok (i : Invoice) : Prop :=
  exists r, invoice_row (Gen 0) (invoice_customer_id i) (invoice_amount i)
              (invoice_status i) (invoice_date i) = inr r.

(** The row of the statement passes the column checks and its conflict
    target is taken. *)
Definition conflicts (s : Stmt) (d : Db) : Prop :=
  match s with
  | InsertUser i n e p =>
      exists r rows, user_row i n e p = inr r /\ users_t d = Some rows /\
                     has_user_id (u_id r) rows = true
  | InsertCustomer i n e u =>
      exists r rows, customer_row i n e u = inr r /\
                     customers_t d = Some rows /\
                     has_customer_id (c_id r) rows = true
  | InsertInvoice c a st dt =>
      exists r rows, invoice_row (Gen (next_uuid d)) c a st dt = inr r /\
                     invoices_t d = Some rows /\
                     has_invoice_id (i_id r) rows = true
  | InsertRevenue m v =>
      exists r rows, revenue_row m v = inr r /\ revenue_t d = Some rows /\
                     has_month (r_month r) rows = true
  | _ => False
  end.

(** The fixture of the revenue scenario. *)
Definition jan_only : Fixture :=
  mkFixture [] [] [] [mkRev (Some "Jan") (Some 100%Z)].


(** ** How the promises of a batch settled *)

(** The event of the promise [x] fulfilled with the result [q]: the INSERT
    it sent, answered with [q]. *)
Definition fulfilled (x : Task) (q : QueryResult) (ev : Event) : Prop :=
  exists h, ev = EvSql (task_table x) (task_stmt x h) (inr q).

(** The promises, one after the other, were fulfilled with these results
    and left these events. *)
Inductive fulfilled_all
  : list Task -> list QueryResult -> list Event -> Prop :=
| fulfilled_nil : fulfilled_all [] [] []
| fulfilled_cons x q ev ts qs evs :
    fulfilled x q ev -> fulfilled_all ts qs evs ->
    fulfilled_all (x :: ts) (q :: qs) (ev :: evs).

(** What the trace shows of the promise [x] rejected with [e]: nothing when
    bcrypt had no password to hash, else the INSERT with the error of the
    server. *)
Definition rejected (x : Task) (e : Err) (evs : list Event) : Prop :=
  (task_plain x = Some None /\ e = HashErr /\ evs = []) \/
  (exists h err, e = DbErr err /\
     evs = [EvSql (task_table x) (task_stmt x h) (inl err)]).

(** The INSERT the promise [x] sends when it starts in the world [w]; none
    if bcrypt rejects first. *)
Definition task_insert (x : Task) (w : World) : option Stmt :=
  match x with
  | UserTask user =>
      match user_password user with
      | Some p => Some (task_stmt x (bcrypt_hash p 10 (salts w)))
      | None => None
      end
  | _ => Some (task_stmt x EmptyString)
  end.

(** In the run of the loader of [t] from [w], the promise [x] starts in the
    world [w1]: the promises before it in settling order have been
    fulfilled, the promises [rest] come behind it. *)
Definition reaches (fx : Fixture) (t : Table) (w : World)
    (x : Task) (w1 : World) (rest : list Task) : Prop :=
  exists done res,
    settling (ticks w) (phase_tasks fx t) = done ++ x :: rest /\
    settle done [] (bump (after_init t w)) = (w1, inr res).

(** ** Passwords *)

(** [r] is the row of a record of [us], with the hash bcrypt made of the
    password of that record at cost 10, under a salt drawn from [lo] up to
    [hi]. *)
Definition hashed_from (us : list User) (lo hi : nat) (r : UserRow) : Prop :=
  exists u p salt,
    In u us /\ user_password u = Some p /\ lo <= salt < hi /\
    user_row (user_id u) (user_name u) (user_email u)
             (Some (bcrypt_hash p 10 salt)) = inr r.

(** [r] is the row of the user record [u], whatever the password column
    holds. *)
Definition user_row_of (u : User) (r : UserRow) : Prop :=
  exists h, user_row (user_id u) (user_name u) (user_email u) (Some h)
            = inr r.

(** The ids in the users table. *)
Definition user_ids (d : Db) : list uuid := map u_id (rows_of (users_t d)).

(** ** Vocabulary of the further properties *)

(** No two rows of a table share a key the table declares unique: the id
    and the email of users, the id of customers and of invoices, the month
    of revenue. *)
Definition db_unique (d : Db) : Prop :=
  NoDup (map u_id (rows_of (users_t d))) /\
  NoDup (map u_email (rows_of (users_t d))) /\
  NoDup (map c_id (rows_of (customers_t d))) /\
  NoDup (map i_id (rows_of (invoices_t d))) /\
  NoDup (map r_month (rows_of (revenue_t d))).

(** The record of the promise passes the column checks of its table; a
    user record has a password to hash as well. *)
Definition task_ok (x : Task) : Prop :=
  match x with
  | UserTask u =>
      exists p r,
        user_password u = Some p /\
        user_row (user_id u) (user_name u) (user_email u) (Some p) = inr r
  | CustomerTask c =>
      exists r, customer_row (customer_id c) (customer_name c)
                  (customer_email c) (customer_image_url c) = inr r
  | InvoiceTask i => invoice_ok i
  | RevenueTask v =>
      exists r, revenue_row (rev_month v) (rev_revenue v) = inr r
  end.



(** Table [o'] is table [o] with rows appended that satisfy [Q]. *)
Definition grows {A} (Q : A -> Prop) (o o' : option (list A)) : Prop :=
  exists new, rows_of o' = rows_of o ++ new /\ Forall Q new.

Definition customer_row_of (fx : Fixture) (r : CustomerRow) : Prop :=
  exists c, In c (customers fx) /\
    customer_row (customer_id c) (customer_name c) (customer_email c)
      (customer_image_url c) = inr r.

Definition invoice_row_of (fx : Fixture) (r : InvoiceRow) : Prop :=
  exists i n, In i (invoices fx) /\
    invoice_row (Gen n) (invoice_customer_id i) (invoice_amount i)
      (invoice_status i) (invoice_date i) = inr r.

Definition revenue_row_of (fx : Fixture) (r : RevenueRow) : Prop :=
  exists v, In v (revenue fx) /\
    revenue_row (rev_month v) (rev_revenue v) = inr r.

(** From [d] to [d'] the customers, invoices and revenue tables have gained
    rows of fixture records only. *)
Definition rows_from_fixture (fx : Fixture) (d d' : Db) : Prop :=
  grows (customer_row_of fx) (customers_t d) (customers_t d') /\
  grows (invoice_row_of fx) (invoices_t d) (invoices_t d') /\
  grows (revenue_row_of fx) (revenue_t d) (revenue_t d').

End Vocabulary.

(** ** A concrete platform, for running the script on examples *)

Module Sample.

Definition hex_digit (c : ascii) : option N :=
  let n := N_of_ascii c in
  if ((48 <=? n) && (n <=? 57))%N%bool then Some (n - 48)%N
  else if ((97 <=? n) && (n <=? 102))%N%bool then Some (n - 87)%N
  else if ((65 <=? n) && (n <=? 70))%N%bool then Some (n - 55)%N
  else None.

Fixpoint hex_value (s : string) (digits : nat) (acc : N) : option (nat * N) :=
  match s with
  | EmptyString => Some (digits, acc)
  | String c r =>
      if Ascii.eqb c "-"%char then hex_value r digits acc
      else match hex_digit c with
           | Some v => hex_value r (S digits) (16 * acc + v)%N
           | None => None
           end
  end.

(** 32 hexadecimal digits, hyphens ignored. *)
Definition uuid_in (s : string) : option N :=
  match hex_value s 0 0%N with
  | Some (32, v) => Some v
  | _ => None
  end.

Fixpoint dec_value (s : string) (acc : Z) : option Z :=
  match s with
  | EmptyString => Some acc
  | String c r =>
      let n := N_of_ascii c in
      if Ascii.eqb c "-"%char then dec_value r acc
      else if ((48 <=? n) && (n <=? 57))%N%bool
           then dec_value r (10 * acc + Z.of_N (n - 48))%Z
           else None
  end.

(** YYYY-MM-DD, read as the number YYYYMMDD. *)
Definition date_in (s : string) : option Z :=
  if Nat.eqb (String.length s) 10 then dec_value s 0%Z else None.

Fixpoint marks (n : nat) : string :=
  match n with O => EmptyString | S k => String "."%char (marks k) end.

Definition tag (rounds salt : nat) : string :=
  "$2b$" ++ marks rounds ++ "$" ++ marks salt ++ "$".

(** A stand-in for bcrypt: the data behind a tag of version, cost and
    salt. *)
Definition bcrypt_hash (data : string) (rounds salt : nat) : string :=
  tag rounds salt ++ data.

Fixpoint drop (n : nat) (s : string) : string :=
  match n, s with
  | S k, String _ r => drop k r
  | _, _ => s
  end.

Definition bcrypt_compare (data hash : string) : bool :=
  String.eqb (drop (String.length hash - String.length data) hash) data
  && Nat.ltb (String.length data) (String.length hash).

(** Promises settle in dispatch order. *)
Definition fifo : Platform :=
  Build_Platform uuid_in date_in bcrypt_hash bcrypt_compare
    (fun _ l => seq 0 (List.length l)) (fun _ l => Permutation_refl _).

(** Promises settle in reverse dispatch order. *)
Definition lifo : Platform :=
  Build_Platform uuid_in date_in bcrypt_hash bcrypt_compare
    (fun _ l => rev (seq 0 (List.length l)))
    (fun _ l => Permutation_sym (Permutation_rev _)).

(** Fixture records. *)
Definition ann : User :=
  mkUser (Some "410544b2-4001-4271-9855-fec4b6a6442a") (Some "Ann")
         (Some "ann@x.com") (Some "plain").

Definition jan : Rev := mkRev (Some "Jan") (Some 100%Z).

Definition orphan : Invoice :=
  mkInvoice (Some "3958dc9e-712f-4377-85e9-fec4b6a6442a") (Some 15795%Z)
            (Some "pending") (Some "2022-12-06").

(** A second user with the e-mail address of [ann]. *)
Definition ann_again : User :=
  mkUser (Some "410544b2-4001-4271-9855-fec4b6a6442b") (Some "Ann B")
         (Some "ann@x.com") (Some "plain").

Definition lee : Customer :=
  mkCustomer (Some "d6e15727-9fe1-4961-8c5b-ea44a9bd81aa") (Some "Lee")
             (Some "lee@x.com") (Some "/customers/lee.png").

(** A customer without a name. *)
Definition nameless : Customer :=
  mkCustomer (Some "3958dc9e-742f-4377-85e9-fec4b6a6442a") None
             (Some "who@x.com") (Some "/customers/who.png").

(** A process started against the empty database. *)
Definition fresh : World := boot empty_db 0 0.

(** Fixtures. *)
Definition two_users_one_email : Fixture :=
  mkFixture [ann; ann_again] [lee] [orphan] [jan].

Definition small : Fixture := mkFixture [ann] [lee] [orphan] [jan].

(** The database after one run over [small]. *)
Definition seeded_db : Db := db (fst (@script fifo small fresh)).

(** The row of [orphan], before the server fills in its id. *)
Definition orphan_row : InvoiceRow :=
  Eval vm_compute in
    match @invoice_row fifo (Gen 0) (invoice_customer_id orphan)
            (invoice_amount orphan) (invoice_status orphan)
            (invoice_date orphan) with
    | inr r => r
    | inl _ => mkInvoiceRow (Gen 0) (Gen 0) 0 EmptyString 0
    end.

(** A database whose customers table holds [lee] only. *)
Definition with_lee : World := fst (@seedCustomers fifo [lee] fresh).

(** The empty database after the DDL of the users loader. *)
Definition users_ready : Db :=
  fst (@exec_all fifo (@schema_stmts Users) empty_db).


(** A process started against the database a run over [small] has left. *)
Definition again : World := boot seeded_db 0 0.

(** The record of [ann] after her password was changed in the data file. *)
Definition ann_renewed : User :=
  mkUser (Some "410544b2-4001-4271-9855-fec4b6a6442a") (Some "Ann")
         (Some "ann@x.com") (Some "changed").

Definition feb : Rev := mkRev (Some "Feb") (Some 250%Z).

(** The revenue of two months, the first of which [seeded_db] holds. *)
Definition two_months : Fixture := mkFixture [] [] [] [jan; feb].

(** A customer whose name holds a zero byte. *)
Definition torn : Customer :=
  mkCustomer (Some "3958dc9e-737f-4377-85e9-fec4b6a6442a")
             (Some (String "L" (String "000" "e")))
             (Some "torn@x.com") (Some "/customers/torn.png").

(** A month whose name has four characters and five bytes. *)
Definition aout : Rev :=
  mkRev (Some (String "a" (String "o" (String "195" (String "187" "t")))))
        (Some 1%Z).

End Sample.


(** * Properties *)

(** ** Generic helpers *)

Lemma existsb_snoc {A} (f : A -> bool) (l : list A) (x : A) :
  existsb f (l ++ [x]) = existsb f l || f x.
Proof.
  rewrite existsb_app. simpl. now rewrite orb_false_r.
Qed.

Lemma uuid_eqb_refl (k : uuid) : uuid_eqb k k = true.
Proof.
  destruct k; simpl; [apply N.eqb_refl | apply Nat.eqb_refl].
Qed.

Lemma res_bind_inr {A B} (r : Res A) (k : A -> Res B) (b : B) :
  res_bind r k = inr b -> exists a, r = inr a /\ k a = inr b.
Proof.
  destruct r as [e | a]; simpl; [discriminate | eauto].
Qed.

(** ** The database only grows *)

Lemma tbl_le_refl {A} (o : option (list A)) : tbl_le o o.
Proof.
  destruct o as [l |]; simpl; auto. exists []. now rewrite app_nil_r.
Qed.

Lemma tbl_le_trans {A} (a b c : option (list A)) :
  tbl_le a b -> tbl_le b c -> tbl_le a c.
Proof.
  destruct a as [l |]; simpl; auto.
  intros [m ->]. simpl. intros [m' ->].
  exists (m ++ m'). now rewrite app_assoc.
Qed.

Lemma tbl_le_snoc {A} (l : list A) (x : A) : tbl_le (Some l) (Some (l ++ [x])).
Proof. simpl. eauto. Qed.

Lemma db_le_refl d : db_le d d.
Proof. constructor; auto using tbl_le_refl. Qed.

Lemma db_le_trans a b c : db_le a b -> db_le b c -> db_le a c.
Proof.
  intros [] []. constructor; eauto using tbl_le_trans. lia.
Qed.

Lemma empty_db_wf : db_wf empty_db.
Proof. constructor. Qed.

Lemma fresh_not_in (d : Db) :
  db_wf d -> has_invoice_id (Gen (next_uuid d)) (rows_of (invoices_t d)) = false.
Proof.
  unfold db_wf, has_invoice_id. intros H.
  induction H as [| r l Hr _ IH]; simpl; auto.
  rewrite IH, orb_false_r.
  destruct (i_id r) as [v | n] eqn:E; simpl; auto.
  apply Nat.eqb_neq. specialize (Hr n eq_refl). lia.
Qed.

Lemma uuid_eqb_eq a b : uuid_eqb a b = true <-> a = b.
Proof.
  destruct a, b; simpl; split; intros H; try discriminate.
  - apply N.eqb_eq in H. now subst.
  - inversion H. apply N.eqb_refl.
  - apply Nat.eqb_eq in H. now subst.
  - inversion H. apply Nat.eqb_refl.
Qed.

Lemma existsb_key {A K} (key : A -> K) (eqb : K -> K -> bool) k l :
  (forall a b, eqb a b = true <-> a = b) ->
  existsb (fun x => eqb (key x) k) l = true <-> In k (map key l).
Proof.
  intros Heq. rewrite existsb_exists, in_map_iff. split.
  - intros (x & Hx & E). exists x. split; auto. now apply Heq.
  - intros (x & E & Hx). exists x. split; auto. now apply Heq.
Qed.

(** ** The order of a batch *)

Lemma arrange_perm ts o o' :
  Permutation o o' -> Permutation (arrange ts o) (arrange ts o').
Proof.
  induction 1 as [| i o o' _ IH | i j o | o1 o2 o3 _ IH1 _ IH2]; simpl.
  - constructor.
  - destruct (nth_error ts i); auto.
  - destruct (nth_error ts i), (nth_error ts j); auto. apply perm_swap.
  - etransitivity; eauto.
Qed.

Lemma arrange_seq ts : forall pre,
  arrange (pre ++ ts) (seq (List.length pre) (List.length ts)) = ts.
Proof.
  induction ts as [| x ts IH]; intros pre; simpl; auto.
  rewrite nth_error_app2 by lia. rewrite Nat.sub_diag. simpl. f_equal.
  specialize (IH (pre ++ [x])).
  rewrite <- app_assoc, length_app in IH. simpl in IH.
  rewrite Nat.add_1_r in IH. exact IH.
Qed.

Lemma arrange_all ts order :
  Permutation order (seq 0 (List.length ts)) ->
  Permutation (arrange ts order) ts.
Proof.
  intros H. etransitivity; [apply arrange_perm, H |].
  pose proof (arrange_seq ts []) as E. simpl in E. rewrite E.
  apply Permutation_refl.
Qed.

Lemma result_of_settled order : forall res,
  NoDup order -> List.length order = List.length res ->
  map (fun i => result_of i order res) order = res.
Proof.
  induction order as [| j o IH]; intros [| q r] N L; simpl in *;
    try discriminate; auto.
  rewrite Nat.eqb_refl. f_equal.
  inversion N as [| ? ? Hj No]; subst.
  etransitivity; [| apply (IH r No)]; [| lia].
  apply map_ext_in. intros i Hi.
  destruct (Nat.eqb_spec j i) as [-> | _]; [contradiction | reflexivity].
Qed.

Lemma in_array_order_length order res :
  List.length (in_array_order order res) = List.length res.
Proof. unfold in_array_order. now rewrite length_map, length_seq. Qed.

Lemma in_array_order_perm order res :
  Permutation order (seq 0 (List.length res)) ->
  Permutation (in_array_order order res) res.
Proof.
  intros H. unfold in_array_order.
  assert (N : NoDup order).
  { eapply Permutation_NoDup; [apply Permutation_sym, H | apply seq_NoDup]. }
  assert (L : List.length order = List.length res).
  { rewrite (Permutation_length H). apply length_seq. }
  etransitivity; [apply Permutation_map, Permutation_sym, H |].
  rewrite (@result_of_settled order res N L). apply Permutation_refl.
Qed.

Lemma in_array_order_repeat order q n :
  Permutation order (seq 0 n) ->
  in_array_order order (repeat q n) = repeat q n.
Proof.
  intros H. apply Permutation_repeat, in_array_order_perm.
  now rewrite repeat_length.
Qed.

Section Facts.

Context {P : Platform}.

Lemma invoice_row_id fresh c a s t r :
  invoice_row fresh c a s t = inr r -> i_id r = fresh.
Proof.
  unfold invoice_row. intros H.
  repeat (apply res_bind_inr in H; destruct H as [? [_ H]]).
  now inversion H.
Qed.

Lemma exec_le (s : Stmt) (d : Db) : db_le d (fst (exec s d)).
Proof.
  destruct s; simpl.
  - constructor; simpl; auto using tbl_le_refl.
  - destruct (table_exists t d) eqn:Ex; [apply db_le_refl |].
    destruct (needs_uuid_default t && negb (uuid_ossp d));
      [apply db_le_refl |].
    destruct t; simpl in Ex; constructor; simpl; auto using tbl_le_refl.
    + destruct (users_t d); [discriminate | exact I].
    + destruct (customers_t d); [discriminate | exact I].
    + destruct (invoices_t d); [discriminate | exact I].
    + destruct (revenue_t d); [discriminate | exact I].
  - destruct (users_t d) as [rows |] eqn:T; [| apply db_le_refl].
    destruct (user_row id name email password); [apply db_le_refl |].
    destruct (has_user_id _ rows); [apply db_le_refl |].
    destruct (has_user_email _ rows); [apply db_le_refl |].
    constructor; simpl; auto using tbl_le_refl.
    rewrite T. apply tbl_le_snoc.
  - destruct (customers_t d) as [rows |] eqn:T; [| apply db_le_refl].
    destruct (customer_row id name email image_url); [apply db_le_refl |].
    destruct (has_customer_id _ rows); [apply db_le_refl |].
    constructor; simpl; auto using tbl_le_refl.
    rewrite T. apply tbl_le_snoc.
  - destruct (invoices_t d) as [rows |] eqn:T; [| apply db_le_refl].
    destruct (invoice_row _ cust amount status date); [apply db_le_refl |].
    destruct (has_invoice_id _ rows).
    + constructor; simpl; auto using tbl_le_refl.
    + constructor; simpl; auto using tbl_le_refl.
      rewrite T. apply tbl_le_snoc.
  - destruct (revenue_t d) as [rows |] eqn:T; [| apply db_le_refl].
    destruct (revenue_row month rev); [apply db_le_refl |].
    destruct (has_month _ rows); [apply db_le_refl |].
    constructor; simpl; auto using tbl_le_refl.
    rewrite T. apply tbl_le_snoc.
Qed.

Lemma exec_wf (s : Stmt) (d : Db) : db_wf d -> db_wf (fst (exec s d)).
Proof.
  intros W. destruct s; simpl; auto.
  - destruct (table_exists t d) eqn:Ex; auto.
    destruct (needs_uuid_default t && negb (uuid_ossp d)); auto.
    destruct t; simpl; auto. constructor.
  - destruct (users_t d); auto. destruct (user_row _ _ _ _); auto.
    destruct (has_user_id _ _); auto. destruct (has_user_email _ _); auto.
  - destruct (customers_t d); auto. destruct (customer_row _ _ _ _); auto.
    destruct (has_customer_id _ _); auto.
  - destruct (invoices_t d) as [rows |] eqn:T; auto.
    destruct (invoice_row _ _ _ _ _) as [e | r] eqn:R; auto.
    assert (W' : Forall (fun r => forall n, i_id r = Gen n ->
                                  n < S (next_uuid d)) rows).
    { unfold db_wf in W. rewrite T in W. simpl in W.
      eapply Forall_impl; [| exact W]. simpl. intros a Ha n Hn.
      specialize (Ha n Hn). lia. }
    destruct (has_invoice_id _ rows); unfold db_wf; simpl.
    + now rewrite T.
    + apply Forall_app. split; auto. constructor; [| constructor].
      intros n Hn. apply invoice_row_id in R. rewrite R in Hn.
      inversion Hn. lia.
  - destruct (revenue_t d); auto. destruct (revenue_row _ _); auto.
    destruct (has_month _ _); auto.
Qed.

(** ** What one promise does *)

Lemma sql_eq who s w :
  sql who s w =
  (mkWorld (fst (exec s (db w))) (salts w) (ticks w) (inflight w)
           (trace w ++ [EvSql who s (snd (exec s (db w)))]),
   lift_res (snd (exec s (db w)))).
Proof.
  unfold sql. destruct (exec s (db w)) as [d' [e | q]]; reflexivity.
Qed.

Lemma task_stmt_insert t h : is_insert (task_stmt t h) = true.
Proof. now destruct t. Qed.

Lemma task_stmt_table t h : stmt_table (task_stmt t h) = Some (task_table t).
Proof. now destruct t. Qed.

Lemma run_task_run t w : task_run t w (fst (run_task t w)) (snd (run_task t w)).
Proof.
  destruct t as [u | c | i | r]; simpl.
  - unfold bind, bcrypt_hash_async.
    destruct (user_password u) as [p |] eqn:E; simpl.
    + rewrite sql_eq. simpl.
      apply (run_sent (UserTask u) w (h := bcrypt_hash p 10 (salts w))).
      right. exists p. simpl. rewrite E. auto.
    + apply run_hash_rejected. simpl. now rewrite E.
  - rewrite sql_eq. simpl.
    apply (run_sent (CustomerTask c) w (h := "")). now left.
  - rewrite sql_eq. simpl.
    apply (run_sent (InvoiceTask i) w (h := "")). now left.
  - rewrite sql_eq. simpl.
    apply (run_sent (RevenueTask r) w (h := "")). now left.
Qed.

(** ** How the world evolves *)

Lemma evolves_refl Q w : evolves Q w w.
Proof.
  constructor; auto using db_le_refl.
  exists []. now rewrite app_nil_r.
Qed.

Lemma evolves_trans Q a b c : evolves Q a b -> evolves Q b c -> evolves Q a c.
Proof.
  intros [D1 W1 (e1 & T1 & F1)] [D2 W2 (e2 & T2 & F2)].
  constructor; eauto using db_le_trans.
  exists (e1 ++ e2). rewrite T2, T1, app_assoc. split; auto.
  apply Forall_app; auto.
Qed.

Lemma evolves_weaken (Q Q' : Event -> Prop) w w' :
  (forall e, Q e -> Q' e) -> evolves Q w w' -> evolves Q' w w'.
Proof.
  intros H [D W (e & T & F)]. constructor; auto.
  exists e. split; auto. eapply Forall_impl; eauto.
Qed.

(** Bookkeeping of the process that no invariant looks at. *)
Lemma evolves_book Q w s k l :
  evolves Q w (mkWorld (db w) s k l (trace w)).
Proof.
  constructor; simpl; auto using db_le_refl.
  exists []. now rewrite app_nil_r.
Qed.

Lemma evolves_emit (Q : Event -> Prop) e w :
  Q e -> evolves Q w (fst (emit e w)).
Proof.
  intros H. constructor; simpl; auto using db_le_refl.
  exists [e]. auto.
Qed.

Lemma evolves_sql (Q : Event -> Prop) who s w :
  (forall r, Q (EvSql who s r)) -> evolves Q w (fst (sql who s w)).
Proof.
  intros H. rewrite sql_eq. constructor; simpl.
  - apply exec_le.
  - apply exec_wf.
  - eexists. split; [reflexivity |]. auto.
Qed.

Lemma evolves_task t w :
  evolves (in_phase (task_table t)) w (fst (run_task t w)).
Proof.
  destruct (run_task_run t w) as [_ | h s' _].
  - apply evolves_refl.
  - constructor; simpl.
    + apply exec_le.
    + apply exec_wf.
    + eexists. split; [reflexivity |]. repeat constructor.
Qed.

Lemma task_run_inflight t w w' r : task_run t w w' r -> inflight w' = inflight w.
Proof. now intros []. Qed.

Lemma task_run_ticks t w w' r : task_run t w w' r -> ticks w' = ticks w.
Proof. now intros []. Qed.

(** ** A batch *)

Lemma settle_evolves t0 ts : forall acc w,
  Forall (fun t => task_table t = t0) ts ->
  evolves (in_phase t0) w (fst (settle ts acc w)).
Proof.
  induction ts as [| t rest IH]; intros acc w F; simpl.
  - apply evolves_refl.
  - inversion F as [| ? ? Ht Fr]; subst.
    pose proof (evolves_task t w) as Et.
    destruct (run_task t w) as [w1 [e | q]]; simpl in *.
    + eapply evolves_trans; [exact Et |]. apply evolves_book.
    + eapply evolves_trans; [exact Et |]. apply IH; auto.
Qed.

(** On success every promise of the batch has settled and nothing is left in
    flight; on failure the promises behind the rejected one are. *)
Lemma settle_inflight ts : forall acc w,
  match snd (settle ts acc w) with
  | inr res =>
      inflight (fst (settle ts acc w)) = inflight w /\
      List.length res = List.length acc + List.length ts
  | inl e =>
      exists done bad rest w1,
        ts = done ++ bad :: rest /\
        snd (run_task bad w1) = inl e /\
        inflight (fst (settle ts acc w)) = inflight w ++ rest
  end.
Proof.
  induction ts as [| t rest IH]; intros acc w; simpl.
  - rewrite length_rev. split; auto.
  - pose proof (run_task_run t w) as Rt.
    apply task_run_inflight in Rt.
    destruct (run_task t w) as [w1 [e | q]] eqn:E; simpl in *.
    + exists [], t, rest, w. rewrite E, Rt. simpl. auto.
    + specialize (IH (q :: acc) w1).
      destruct (settle rest (q :: acc) w1) as [w2 [e | res]]; simpl in *.
      * destruct IH as (done & bad & rest' & w3 & -> & Hb & Hi).
        exists (t :: done), bad, rest', w3. rewrite Hi, Rt. auto.
      * destruct IH as [Hi Hl]. rewrite Hi, Rt. split; auto. lia.
Qed.

Lemma settle_ticks ts : forall acc w,
  ticks (fst (settle ts acc w)) = ticks w.
Proof.
  induction ts as [| t rest IH]; intros acc w; simpl; auto.
  pose proof (run_task_run t w) as Rt.
  apply task_run_ticks in Rt.
  destruct (run_task t w) as [w1 [e | q]]; simpl in *; auto.
  rewrite IH. auto.
Qed.

Lemma settling_perm k l : Permutation (settling k l) l.
Proof. apply arrange_all, schedule_perm. Qed.

Lemma settling_Forall (Q : Task -> Prop) k l :
  Forall Q l -> Forall Q (settling k l).
Proof.
  intros F. eapply Permutation_Forall; [| exact F].
  apply Permutation_sym, settling_perm.
Qed.

Lemma settling_length k l : List.length (settling k l) = List.length l.
Proof. apply Permutation_length, settling_perm. Qed.

Lemma promise_all_eq ts w :
  promise_all ts w =
  match settle (settling (ticks w) ts) [] (bump w) with
  | (w', inr res) => (w', inr (in_array_order (schedule (ticks w) ts) res))
  | (w', inl e) => (w', inl e)
  end.
Proof. reflexivity. Qed.

Lemma promise_all_fst ts w :
  fst (promise_all ts w) = fst (settle (settling (ticks w) ts) [] (bump w)).
Proof.
  rewrite promise_all_eq.
  now destruct (settle _ _ _) as [w' [e | res]].
Qed.

(** The results handed over are the results collected, rearranged. *)
Lemma schedule_results k ts res :
  List.length res = List.length ts ->
  Permutation (in_array_order (schedule k ts) res) res.
Proof.
  intros L. apply in_array_order_perm. rewrite L. apply schedule_perm.
Qed.

Lemma promise_all_evolves t0 ts w :
  Forall (fun t => task_table t = t0) ts ->
  evolves (in_phase t0) w (fst (promise_all ts w)).
Proof.
  intros F. rewrite promise_all_fst.
  eapply evolves_trans; [| apply settle_evolves, settling_Forall, F].
  apply evolves_book.
Qed.

Lemma promise_all_inflight ts w :
  match snd (promise_all ts w) with
  | inr res =>
      inflight (fst (promise_all ts w)) = inflight w /\
      List.length res = List.length ts
  | inl e =>
      exists done bad rest w1,
        settling (ticks w) ts = done ++ bad :: rest /\
        snd (run_task bad w1) = inl e /\
        inflight (fst (promise_all ts w)) = inflight w ++ rest
  end.
Proof.
  rewrite promise_all_eq.
  pose proof (settle_inflight (settling (ticks w) ts) [] (bump w)) as H.
  destruct (settle _ _ _) as [w' [e | res]]; simpl in *.
  - exact H.
  - rewrite settling_length in H.
    now rewrite in_array_order_length.
Qed.

(** ** The four loaders have the shape of [loader] *)

Ltac loader_eq :=
  intros;
  unfold seedUsers, seedCustomers, seedInvoices, seedRevenue;
  unfold loader, after_init, init_db, init_events, try_catch, bind,
    console_log, console_error, ret, throw;
  rewrite !sql_eq; cbn [fst snd lift_res exec needs_uuid_default db salts
    ticks inflight trace uuid_ossp set_uuid_ossp negb andb app emit];
  match goal with |- context [table_exists ?t ?d] =>
    destruct (table_exists t d) end;
  cbn [fst snd lift_res db salts ticks inflight trace emit app];
  rewrite <- ?app_assoc; cbn [app];
  match goal with |- context [promise_all ?l ?x] =>
    destruct (promise_all l x) as [? [? | ?]] end; reflexivity.

Lemma seedUsers_loader us w :
  seedUsers us w = loader Users (map UserTask us) w.
Proof. loader_eq. Qed.

Lemma seedCustomers_loader cs w :
  seedCustomers cs w = loader Customers (map CustomerTask cs) w.
Proof. loader_eq. Qed.

Lemma seedInvoices_loader ivs w :
  seedInvoices ivs w = loader Invoices (map InvoiceTask ivs) w.
Proof. loader_eq. Qed.

Lemma seedRevenue_loader rs w :
  seedRevenue rs w = loader Revenue (map RevenueTask rs) w.
Proof. loader_eq. Qed.

Lemma create_table_le t d :
  table_exists t d = false -> db_le d (create_table t d).
Proof.
  intros Ex.
  destruct t; simpl in Ex; constructor; simpl; auto using tbl_le_refl.
  - destruct (users_t d); [discriminate | exact I].
  - destruct (customers_t d); [discriminate | exact I].
  - destruct (invoices_t d); [discriminate | exact I].
  - destruct (revenue_t d); [discriminate | exact I].
Qed.

Lemma init_db_le t d : db_le d (init_db t d).
Proof.
  unfold init_db.
  assert (L1 : db_le d (if needs_uuid_default t then set_uuid_ossp true d
                       else d)).
  { destruct (needs_uuid_default t); [| apply db_le_refl].
    constructor; simpl; auto using tbl_le_refl. }
  eapply db_le_trans; [exact L1 |].
  destruct (table_exists t _) eqn:Ex; [apply db_le_refl |].
  now apply create_table_le.
Qed.

Lemma init_db_wf t d : db_wf d -> db_wf (init_db t d).
Proof.
  intros W. unfold init_db.
  assert (W1 : db_wf (if needs_uuid_default t then set_uuid_ossp true d
                      else d)).
  { destruct (needs_uuid_default t); auto. }
  set (d1 := if needs_uuid_default t then set_uuid_ossp true d else d) in *.
  destruct (table_exists t d1); auto.
  destruct t; auto. constructor.
Qed.

Lemma init_db_rows t d :
  rows_of (users_t (init_db t d)) = rows_of (users_t d) /\
  rows_of (customers_t (init_db t d)) = rows_of (customers_t d) /\
  rows_of (invoices_t (init_db t d)) = rows_of (invoices_t d) /\
  rows_of (revenue_t (init_db t d)) = rows_of (revenue_t d).
Proof.
  unfold init_db.
  destruct d as [e [u |] [c |] [i |] [r |] n], t; simpl; auto.
Qed.

Lemma init_events_phase t : Forall (in_phase t) (init_events t).
Proof.
  unfold init_events. apply Forall_app. split.
  - destruct (needs_uuid_default t); repeat constructor.
  - repeat constructor.
Qed.

Lemma after_init_evolves t w : evolves (in_phase t) w (after_init t w).
Proof.
  constructor; simpl.
  - apply init_db_le.
  - apply init_db_wf.
  - exists (init_events t). split; auto using init_events_phase.
Qed.

Lemma loader_evolves t tasks w :
  Forall (fun x => task_table x = t) tasks ->
  evolves (in_phase t) w (fst (loader t tasks w)).
Proof.
  intros F. unfold loader.
  pose proof (promise_all_evolves (after_init t w) F) as E.
  pose proof (after_init_evolves t w) as E0.
  destruct (promise_all tasks (after_init t w)) as [w2 [e | res]];
    simpl in E |- *.
  - eapply evolves_trans; [exact E0 |]. eapply evolves_trans; [exact E |].
    apply (evolves_emit (in_phase t) (EvConsole (ErrorSeeding t e)) w2).
    reflexivity.
  - eapply evolves_trans; [exact E0 |]. eapply evolves_trans; [exact E |].
    apply (evolves_emit (in_phase t)
             (EvConsole (Seeded (List.length res) t)) w2).
    reflexivity.
Qed.

(** What a loader that returns has done, and what one that throws has left
    behind. *)
Lemma loader_settled t tasks w :
  match snd (loader t tasks w) with
  | inr (_, res) =>
      inflight (fst (loader t tasks w)) = inflight w /\
      List.length res = List.length tasks /\
      exists evs, trace (fst (loader t tasks w)) =
                  evs ++ [EvConsole (Seeded (List.length tasks) t)]
  | inl e =>
      (exists done bad rest w1,
         settling (ticks w) tasks = done ++ bad :: rest /\
         snd (run_task bad w1) = inl e /\
         inflight (fst (loader t tasks w)) = inflight w ++ rest) /\
      exists evs, trace (fst (loader t tasks w)) =
                  evs ++ [EvConsole (ErrorSeeding t e)]
  end.
Proof.
  unfold loader.
  pose proof (promise_all_inflight tasks (after_init t w)) as H.
  destruct (promise_all tasks (after_init t w)) as [w2 [e | res]];
    simpl in H |- *.
  - split; eauto.
  - destruct H as [Hi Hl]. rewrite Hl. repeat split; eauto.
Qed.

(** ** The orchestrator as a sequence of loaders *)

Lemma phase_tasks_table fx t :
  Forall (fun x => task_table x = t) (phase_tasks fx t).
Proof.
  destruct t; simpl; apply Forall_forall; intros x Hx;
    apply in_map_iff in Hx; destruct Hx as (? & <- & _); reflexivity.
Qed.

Lemma seed_loader fx t w : seed fx t w = loader t (phase_tasks fx t) w.
Proof.
  destruct t; simpl.
  - apply seedUsers_loader.
  - apply seedCustomers_loader.
  - apply seedInvoices_loader.
  - apply seedRevenue_loader.
Qed.

Lemma main_eq fx w :
  main fx w =
  match run_phases fx seed_order (fst (db_connect w)) with
  | (w', inl e) => (w', inl e)
  | (w', inr _) => client_end w'
  end.
Proof.
  unfold main, seed_order, run_phases, seed, bind, ret. simpl.
  repeat match goal with
         | |- context [match ?m ?x with _ => _ end] =>
             lazymatch m with
             | seedUsers _ => destruct (m x) as [? [? | ?]]
             | seedCustomers _ => destruct (m x) as [? [? | ?]]
             | seedInvoices _ => destruct (m x) as [? [? | ?]]
             | seedRevenue _ => destruct (m x) as [? [? | ?]]
             end
         end; reflexivity.
Qed.

Lemma run_phases_run fx ts : forall w,
  phases_run fx ts w (fst (run_phases fx ts w)) (snd (run_phases fx ts w)).
Proof.
  induction ts as [| t l IH]; intros w; simpl.
  - constructor.
  - unfold bind. destruct (seed fx t w) as [w1 [e | x]] eqn:E.
    + replace w1 with (fst (seed fx t w)) by now rewrite E.
      simpl. constructor. now rewrite E.
    + specialize (IH w1). econstructor.
      * now rewrite E.
      * rewrite E. exact IH.
Qed.

Lemma seed_evolves fx t w : evolves (in_phase t) w (fst (seed fx t w)).
Proof.
  rewrite seed_loader. apply loader_evolves, phase_tasks_table.
Qed.

Lemma sorted_app {A} (R : A -> A -> Prop) l1 l2 :
  StronglySorted R l1 -> StronglySorted R l2 ->
  (forall a b, In a l1 -> In b l2 -> R a b) ->
  StronglySorted R (l1 ++ l2).
Proof.
  induction 1 as [| a l S1 IH F]; intros S2 H; simpl; auto.
  constructor.
  - apply IH; auto. intros; apply H; simpl; auto.
  - apply Forall_app. split; auto.
    apply Forall_forall. intros b Hb. apply H; simpl; auto.
Qed.

Lemma same_phase_sorted t evs :
  Forall (in_phase t) evs -> StronglySorted phase_le evs.
Proof.
  induction 1 as [| e l He F IH]; constructor; auto.
  eapply Forall_impl; [| exact F].
  intros e' He' a b Ha Hb. unfold in_phase in *.
  assert (a = t) by congruence. assert (b = t) by congruence.
  subst. auto.
Qed.

Lemma events_from_split a b c e1 e :
  events_from a b e1 -> events_from a c e ->
  (exists e2, events_from b c e2) ->
  exists e2, events_from b c e2 /\ e = e1 ++ e2.
Proof.
  unfold events_from. intros H1 H [e2 H2]. exists e2. split; auto.
  rewrite H2, H1, <- app_assoc in H. now apply app_inv_head in H.
Qed.

Lemma phases_run_evolves fx ts w w' r :
  phases_run fx ts w w' r ->
  evolves (fun e => exists t, In t ts /\ in_phase t e) w w'.
Proof.
  induction 1 as [w | t l w e _ | t l w x w' r _ _ IH].
  - apply evolves_refl.
  - eapply evolves_weaken; [| apply seed_evolves].
    intros ev Hev. exists t. simpl. auto.
  - eapply evolves_trans.
    + eapply evolves_weaken; [| apply (seed_evolves fx t w)].
      intros ev Hev. exists t. simpl. auto.
    + eapply evolves_weaken; [| exact IH].
      intros ev (t' & Ht' & Hev). exists t'. simpl. auto.
Qed.

Lemma phases_run_sorted fx ts w w' r :
  phases_run fx ts w w' r -> table_sorted ts ->
  forall evs, events_from w w' evs -> StronglySorted phase_le evs.
Proof.
  induction 1 as [w | t l w e _ | t l w x w' r _ Hr IH]; intros St evs Hevs.
  - unfold events_from in Hevs.
    rewrite <- (app_nil_r (trace w)) in Hevs at 1.
    apply app_inv_head in Hevs. subst. constructor.
  - destruct (seed_evolves fx t w) as [_ _ (e1 & T1 & F1)].
    unfold events_from in Hevs. rewrite T1 in Hevs.
    apply app_inv_head in Hevs. subst.
    eapply same_phase_sorted; eauto.
  - destruct (seed_evolves fx t w) as [_ _ (e1 & T1 & F1)].
    inversion St as [| ? ? Sl Fl]; subst.
    pose proof (phases_run_evolves Hr) as [_ _ (e2 & T2 & F2)].
    destruct (events_from_split (b := fst (seed fx t w)) T1 Hevs)
      as (e2' & T2' & ->); [eauto |].
    apply sorted_app.
    + eapply same_phase_sorted; eauto.
    + apply IH; auto.
    + intros a b Ha Hb ta tb Hta Htb.
      unfold events_from in T2'. rewrite T2 in T2'.
      apply app_inv_head in T2'. subst e2'.
      rewrite Forall_forall in F1, F2, Fl.
      specialize (F1 a Ha). destruct (F2 b Hb) as (t' & Ht' & Hb').
      unfold in_phase in *.
      assert (ta = t) by congruence. assert (tb = t') by congruence.
      subst. auto.
Qed.

Lemma seed_settled fx t w :
  match snd (seed fx t w) with
  | inr (_, res) =>
      inflight (fst (seed fx t w)) = inflight w /\
      List.length res = List.length (phase_tasks fx t) /\
      exists evs, trace (fst (seed fx t w)) =
                  evs ++ [EvConsole (Seeded (List.length (phase_tasks fx t)) t)]
  | inl e =>
      (exists rest,
         inflight (fst (seed fx t w)) = inflight w ++ rest /\
         Forall (fun x => task_table x = t) rest /\
         List.length rest < List.length (phase_tasks fx t)) /\
      exists evs, trace (fst (seed fx t w)) =
                  evs ++ [EvConsole (ErrorSeeding t e)]
  end.
Proof.
  rewrite seed_loader.
  pose proof (loader_settled t (phase_tasks fx t) w) as H.
  destruct (snd (loader t (phase_tasks fx t) w)) as [e | [ct res]]; auto.
  destruct H as [(done & bad & rest & w1 & Hs & _ & Hi) He]. split; auto.
  exists rest. split; auto.
  pose proof (settling_Forall (ticks w) (phase_tasks_table fx t)) as F.
  pose proof (settling_length (ticks w) (phase_tasks fx t)) as L.
  rewrite Hs in F, L. apply Forall_app in F. destruct F as [_ F].
  inversion F; subst. split; auto.
  rewrite length_app in L. simpl in L. lia.
Qed.

Lemma last_event_in (w w' : World) evs pre e :
  events_from w w' evs -> trace w' = pre ++ [e] -> evs <> [] -> In e evs.
Proof.
  unfold events_from. intros H1 H2 Hne.
  destruct (exists_last Hne) as (evs' & e' & ->).
  rewrite H2, app_assoc in H1. apply app_inj_tail in H1.
  destruct H1 as [_ ->]. apply in_or_app. simpl. auto.
Qed.

Lemma evolves_length Q w w' :
  evolves Q w w' -> List.length (trace w) <= List.length (trace w').
Proof.
  intros [_ _ (evs & -> & _)]. rewrite length_app. lia.
Qed.

Lemma seed_trace_grows fx t w :
  List.length (trace w) < List.length (trace (fst (seed fx t w))).
Proof.
  rewrite seed_loader. unfold loader.
  pose proof (evolves_length (promise_all_evolves (after_init t w)
                (phase_tasks_table fx t))) as L2.
  pose proof (evolves_length (after_init_evolves t w)) as L1.
  destruct (promise_all _ _) as [w2 [e | res]]; simpl in *;
    rewrite length_app; simpl; lia.
Qed.

Lemma seed_events fx t w :
  exists evs, events_from w (fst (seed fx t w)) evs /\
    Forall (in_phase t) evs /\
    match snd (seed fx t w) with
    | inr _ => In (EvConsole (Seeded (List.length (phase_tasks fx t)) t)) evs
    | inl e => In (EvConsole (ErrorSeeding t e)) evs
    end.
Proof.
  destruct (seed_evolves fx t w) as [_ _ (evs & T & F)].
  exists evs. split; [exact T | split; [exact F |]].
  assert (Hne : evs <> []).
  { intros ->. rewrite app_nil_r in T.
    pose proof (seed_trace_grows fx t w) as G. rewrite T in G. lia. }
  pose proof (seed_settled fx t w) as S.
  destruct (snd (seed fx t w)) as [e | [ct res]].
  - destruct S as [_ (pre & Hp)]. eapply last_event_in; eauto.
  - destruct S as (_ & _ & pre & Hp). eapply last_event_in; eauto.
Qed.

Lemma phases_run_outcome fx ts w w' r :
  phases_run fx ts w w' r -> table_sorted ts ->
  exists evs, events_from w w' evs /\
    match r with
    | inr _ =>
        inflight w' = inflight w /\
        Forall (fun t =>
          In (EvConsole (Seeded (List.length (phase_tasks fx t)) t)) evs) ts
    | inl e =>
        exists t rest,
          In t ts /\
          inflight w' = inflight w ++ rest /\
          Forall (fun x => task_table x = t) rest /\
          In (EvConsole (ErrorSeeding t e)) evs /\
          Forall (bounded_by t) evs
    end.
Proof.
  induction 1 as [w | t l w e He | t l w x w' r Hx Hr IH]; intros St.
  - exists []. unfold events_from. rewrite app_nil_r. auto.
  - destruct (seed_events fx t w) as (evs & T & F & I).
    pose proof (seed_settled fx t w) as S. rewrite He in I, S.
    destruct S as [(rest & Hi & Fr & _) _].
    exists evs. split; auto. exists t, rest. simpl. repeat split; auto.
    eapply Forall_impl; [| exact F].
    intros ev Hev t' Ht'. unfold in_phase in Hev.
    assert (t' = t) by congruence. subst. auto.
  - inversion St as [| ? ? Sl Fl]; subst.
    destruct (seed_events fx t w) as (e1 & T1 & F1 & I1).
    pose proof (seed_settled fx t w) as S. rewrite Hx in I1, S.
    destruct x as [ct res]. destruct S as (Hi & _ & _).
    destruct (IH Sl) as (e2 & T2 & O).
    exists (e1 ++ e2). split.
    { unfold events_from in *. now rewrite T2, T1, app_assoc. }
    destruct r as [e | u].
    + destruct O as (t' & rest & Ht' & Hi' & Fr & Ie & Fb).
      exists t', rest. simpl. repeat split; auto.
      * now rewrite Hi', Hi.
      * apply in_or_app. auto.
      * apply Forall_app. split; auto.
        eapply Forall_impl; [| exact F1].
        intros ev Hev t'' Ht''. unfold in_phase in Hev.
        assert (t'' = t) by congruence. subst.
        rewrite Forall_forall in Fl. auto.
    + destruct O as [Hi' Fs]. split; [now rewrite Hi', Hi |].
      constructor.
      * apply in_or_app. auto.
      * eapply Forall_impl; [| exact Fs]. intros a Ha.
        apply in_or_app. auto.
Qed.

(** ** The promises left in flight *)

Lemma settle_rest_evolves t ts : forall w,
  Forall (fun x => task_table x = t) ts ->
  evolves (in_phase t) w (settle_rest ts w) /\
  inflight (settle_rest ts w) = inflight w.
Proof.
  induction ts as [| x rest IH]; intros w F; simpl.
  - split; auto using evolves_refl.
  - inversion F as [| ? ? Hx Fr]; subst.
    destruct (IH (fst (run_task x w)) Fr) as [E I]. split.
    + eapply evolves_trans; [apply evolves_task | exact E].
    + rewrite I. eapply task_run_inflight, run_task_run.
Qed.

Lemma drain_evolves t w :
  Forall (fun x => task_table x = t) (inflight w) ->
  evolves (in_phase t) w (drain w) /\ inflight (drain w) = [].
Proof.
  intros F. unfold drain.
  destruct (settle_rest_evolves
              (mkWorld (db w) (salts w) (ticks w) [] (trace w)) F) as [E I].
  split; auto.
  eapply evolves_trans; [apply evolves_book | exact E].
Qed.

Lemma drain_idle w : inflight w = [] -> drain w = w.
Proof.
  intros H. unfold drain. rewrite H. simpl. destruct w; simpl in *.
  now subst.
Qed.

(** ** The whole script, from a fresh process *)

Lemma seed_order_sorted : table_sorted seed_order.
Proof.
  unfold table_sorted, seed_order.
  repeat (constructor; [| repeat constructor; simpl; lia]). constructor.
Qed.

Lemma script_run fx d s k :
  let w := boot d s k in
  script_trace fx (trace (fst (script fx w))) (snd (script fx w)) /\
  inflight (fst (script fx w)) = [] /\
  StronglySorted phase_le (trace (fst (script fx w))) /\
  db_le d (db (fst (script fx w))) /\
  (db_wf d -> db_wf (db (fst (script fx w)))).
Proof.
  intros w. unfold script. rewrite main_eq.
  set (w0 := fst (db_connect w)).
  pose proof (run_phases_run fx seed_order w0) as R.
  pose proof (phases_run_outcome R seed_order_sorted) as (evs & T & O).
  pose proof (phases_run_sorted R seed_order_sorted T) as So.
  pose proof (phases_run_evolves R) as [D W (evs' & T' & F)].
  assert (evs' = evs).
  { unfold events_from in T. rewrite T in T'. now apply app_inv_head in T'. }
  subst evs'.
  assert (Fh : Forall has_phase evs).
  { eapply Forall_impl; [| exact F]. intros a (t & _ & Ha). now exists t. }
  unfold events_from in T. clear R.
  destruct (run_phases fx seed_order w0) as [w1 [e | []]];
    cbn [fst snd] in *; unfold w0 in T, D, W; simpl in T, D, W.
  - destruct O as (t & rest & _ & Hi & Fr & Ie & Fb).
    unfold console_error, emit. cbn [fst snd].
    set (w2 := mkWorld (db w1) (salts w1) (ticks w1) (inflight w1)
                       (trace w1 ++ [EvConsole (ErrorOccurred e)])).
    assert (Fi : Forall (fun x => task_table x = t) (inflight w2))
      by (simpl; now rewrite Hi).
    destruct (drain_evolves w2 Fi) as [[D2 W2 (late & T2 & Fl)] I2].
    simpl in T2, D2, W2. rewrite T in T2. simpl in T2.
    rewrite <- app_assoc in T2. simpl in T2.
    refine (conj _ (conj I2 (conj _ (conj _ _)))); auto.
    + rewrite T2. now apply trace_failed with (t := t).
    + rewrite T2. constructor.
      * apply sorted_app; auto.
        -- constructor.
           ++ eapply same_phase_sorted; eauto.
           ++ apply Forall_forall. intros a _ x y Hx. discriminate.
        -- intros a b Ha [<- | Hb] x y Hx Hy; [discriminate |].
           rewrite Forall_forall in Fb, Fl.
           specialize (Fl b Hb). unfold in_phase in Fl.
           assert (y = t) by congruence. subst. eapply Fb; eauto.
      * apply Forall_forall. intros a _ x y Hx. discriminate.
    + eapply db_le_trans; eauto.
  - destruct O as [Hi Fs].
    unfold client_end, emit. cbn [fst snd].
    set (w2 := mkWorld (db w1) (salts w1) (ticks w1) (inflight w1)
                       (trace w1 ++ [EvEnd])).
    assert (I2 : inflight w2 = []) by (simpl; now rewrite Hi).
    rewrite (drain_idle w2 I2). simpl. rewrite T. simpl.
    refine (conj _ (conj Hi (conj _ (conj D W)))).
    + now apply trace_completed.
    + constructor.
      * apply sorted_app; auto.
        -- repeat constructor.
        -- intros a b Ha [<- | []] x y Hx Hy. discriminate.
      * apply Forall_forall. intros a _ x y Hx. discriminate.
Qed.

(** ** Records the database has already taken *)

Lemma user_row_password i n e h r :
  user_row i n e (Some h) = inr r ->
  forall h', user_row i n e (Some h') =
             inr (mkUserRow (u_id r) (u_name r) (u_email r) h').
Proof.
  unfold user_row. intros H h'.
  destruct (in_uuid i) as [? | [? |]]; simpl in *; try discriminate;
  destruct (in_text n) as [? | n0]; simpl in *; try discriminate;
  destruct (in_text e) as [? | [? |]]; simpl in *; try discriminate;
  destruct (in_varchar 255 n0) as [? | [? |]]; simpl in *;
    try discriminate.
  now inversion H.
Qed.

Lemma user_row_hash i n e h r :
  user_row i n e (Some h) = inr r -> u_password r = h.
Proof.
  intros H. rewrite (user_row_password _ _ _ _ H h) in H. now inversion H.
Qed.

Lemma invoice_row_fresh f c a s t r :
  invoice_row f c a s t = inr r ->
  forall f', invoice_row f' c a s t =
             inr (mkInvoiceRow f' (i_customer_id r) (i_amount r)
                    (i_status r) (i_date r)).
Proof.
  unfold invoice_row. intros H f'.
  destruct (in_uuid c) as [? | [? |]]; simpl in *; try discriminate;
  destruct (in_int a) as [? | [? |]]; simpl in *; try discriminate;
  destruct (in_text s) as [? | s0]; simpl in *; try discriminate;
  destruct (in_date t) as [? | [? |]]; simpl in *; try discriminate;
  destruct (in_varchar 255 s0) as [? | [? |]]; simpl in *;
    try discriminate.
  now inversion H.
Qed.

Lemma existsb_more {A} (f : A -> bool) l more :
  existsb f l = true -> existsb f (l ++ more) = true.
Proof. intros H. now rewrite existsb_app, H. Qed.

Lemma existsb_last {A} (f : A -> bool) l x :
  f x = true -> existsb f (l ++ [x]) = true.
Proof. intros H. rewrite existsb_snoc, H. apply orb_true_r. Qed.

Lemma seeded_task_le t d d' : seeded_task t d -> db_le d d' -> seeded_task t d'.
Proof.
  intros S [_ LU LC LI LR _]. destruct t as [u | c | i | v]; simpl in *.
  - destruct S as (p & r & rows & Hp & Hr & Ht & Hk).
    rewrite Ht in LU. destruct LU as [more ->].
    exists p, r, (rows ++ more). unfold has_user_id in *.
    auto using existsb_more.
  - destruct S as (r & rows & Hr & Ht & Hk).
    rewrite Ht in LC. destruct LC as [more ->].
    exists r, (rows ++ more). unfold has_customer_id in *.
    auto using existsb_more.
  - destruct S as (r & rows & Hr & Ht).
    rewrite Ht in LI. destruct LI as [more ->]. eauto.
  - destruct S as (r & rows & Hr & Ht & Hk).
    rewrite Ht in LR. destruct LR as [more ->].
    exists r, (rows ++ more). unfold has_month in *.
    auto using existsb_more.
Qed.

(** A promise that is fulfilled leaves its record seeded. *)
Lemma run_task_seeds t w q :
  snd (run_task t w) = inr q -> seeded_task t (db (fst (run_task t w))).
Proof.
  destruct t as [u | c | i | v]; simpl.
  - unfold bind, bcrypt_hash_async.
    destruct (user_password u) as [p |] eqn:Ep; [| discriminate].
    rewrite sql_eq. simpl.
    destruct (users_t (db w)) as [rows |] eqn:T; [| discriminate].
    destruct (user_row _ _ _ _) as [e | r] eqn:R; [discriminate |].
    pose proof (user_row_password _ _ _ _ R p) as Rp.
    destruct (has_user_id (u_id r) rows) eqn:K; simpl.
    + intros _. exists p. eexists. exists rows. rewrite T. simpl. eauto.
    + destruct (has_user_email (u_email r) rows); [discriminate |].
      simpl. intros _. exists p. eexists. exists (rows ++ [r]).
      repeat split; eauto. simpl. apply existsb_last, uuid_eqb_refl.
  - rewrite sql_eq. simpl.
    destruct (customers_t (db w)) as [rows |] eqn:T; [| discriminate].
    destruct (customer_row _ _ _ _) as [e | r] eqn:R; [discriminate |].
    destruct (has_customer_id (c_id r) rows) eqn:K; simpl; intros _.
    + exists r, rows. rewrite T. auto.
    + exists r, (rows ++ [r]). repeat split; auto.
      apply existsb_last, uuid_eqb_refl.
  - rewrite sql_eq. simpl.
    destruct (invoices_t (db w)) as [rows |] eqn:T; [| discriminate].
    destruct (invoice_row _ _ _ _ _) as [e | r] eqn:R; [discriminate |].
    pose proof (invoice_row_fresh _ _ _ _ _ R (Gen 0)) as R0.
    destruct (has_invoice_id (i_id r) rows) eqn:K; simpl; intros _.
    + eexists. exists rows. rewrite T. eauto.
    + eexists. exists (rows ++ [r]). eauto.
  - rewrite sql_eq. simpl.
    destruct (revenue_t (db w)) as [rows |] eqn:T; [| discriminate].
    destruct (revenue_row _ _) as [e | r] eqn:R; [discriminate |].
    destruct (has_month (r_month r) rows) eqn:K; simpl; intros _.
    + exists r, rows. rewrite T. auto.
    + exists r, (rows ++ [r]). repeat split; auto.
      apply existsb_last, String.eqb_refl.
Qed.

(** A seeded record whose statement supplies the key is skipped: the
    promise is fulfilled with [rowCount] 0 and the database is the same. *)
Lemma run_task_skips t w :
  seeded_task t (db w) -> task_table t <> Invoices ->
  snd (run_task t w) = inr (Some 0) /\ db (fst (run_task t w)) = db w.
Proof.
  destruct t as [u | c | i | v]; simpl; intros S N.
  - destruct S as (p & r & rows & Hp & Hr & Ht & Hk).
    unfold bind, bcrypt_hash_async. rewrite Hp, sql_eq. simpl.
    rewrite Ht, (user_row_password _ _ _ _ Hr). simpl. rewrite Hk. auto.
  - destruct S as (r & rows & Hr & Ht & Hk).
    rewrite sql_eq. simpl. rewrite Ht, Hr, Hk. auto.
  - congruence.
  - destruct S as (r & rows & Hr & Ht & Hk).
    rewrite sql_eq. simpl. rewrite Ht, Hr, Hk. auto.
Qed.

(** ** Lifting a relation on databases through the script

    A reflexive and transitive relation that every promise and every DDL
    step respects holds between the databases before and after a batch, a
    loader and what is left in flight. *)

Section DbRel.

Variable RD : Db -> Db -> Prop.
Hypothesis RD_refl : forall d, RD d d.
Hypothesis RD_trans : forall a b c, RD a b -> RD b c -> RD a c.

Variable allowed : Task -> Prop.
Hypothesis RD_task :
  forall t w, allowed t -> RD (db w) (db (fst (run_task t w))).

Lemma settle_rel ts : forall acc w,
  Forall allowed ts -> RD (db w) (db (fst (settle ts acc w))).
Proof.
  induction ts as [| t rest IH]; intros acc w F; simpl; auto.
  inversion F as [| ? ? Ht Fr]; subst.
  pose proof (RD_task w Ht) as R1.
  destruct (run_task t w) as [w1 [e | q]]; simpl in *; auto.
  eapply RD_trans; [exact R1 |]. apply IH; auto.
Qed.

Lemma settle_rest_rel ts : forall w,
  Forall allowed ts -> RD (db w) (db (settle_rest ts w)).
Proof.
  induction ts as [| t rest IH]; intros w F; simpl; auto.
  inversion F as [| ? ? Ht Fr]; subst.
  eapply RD_trans; [apply (RD_task w Ht) |]. apply IH; auto.
Qed.

Lemma drain_rel w : Forall allowed (inflight w) -> RD (db w) (db (drain w)).
Proof.
  intros F. unfold drain.
  apply (settle_rest_rel (mkWorld (db w) (salts w) (ticks w) [] (trace w)) F).
Qed.

Lemma promise_all_rel ts w :
  Forall allowed ts -> RD (db w) (db (fst (promise_all ts w))).
Proof.
  intros F. rewrite promise_all_fst.
  apply (settle_rel [] (bump w)).
  apply settling_Forall, F.
Qed.

Lemma loader_rel t ts w :
  RD (db w) (init_db t (db w)) -> Forall allowed ts ->
  RD (db w) (db (fst (loader t ts w))).
Proof.
  intros I F. unfold loader.
  pose proof (promise_all_rel (after_init t w) F) as R.
  destruct (promise_all ts (after_init t w)) as [w2 [e | res]];
    simpl in *; eauto.
Qed.

End DbRel.

(** What a loader leaves in flight are promises of its own batch. *)
Lemma seed_inflight fx t w :
  exists rest,
    inflight (fst (seed fx t w)) = inflight w ++ rest /\
    incl rest (phase_tasks fx t) /\
    (forall x, snd (seed fx t w) = inr x -> rest = []).
Proof.
  rewrite seed_loader.
  pose proof (loader_settled t (phase_tasks fx t) w) as H.
  destruct (snd (loader t (phase_tasks fx t) w)) as [e | [ct res]].
  - destruct H as [(done & bad & rest & w1 & Hs & _ & Hi) _].
    exists rest. split; auto. split; [| discriminate].
    intros x Hx. eapply Permutation_in; [apply settling_perm |].
    rewrite Hs. apply in_or_app. simpl. auto.
  - exists []. destruct H as [Hi _]. rewrite Hi, app_nil_r.
    split; auto. split; auto. intros x [].
Qed.

(** ** Batches over records already seeded *)

Lemma settle_seeds t0 ts : forall acc w res,
  Forall (fun t => task_table t = t0) ts ->
  snd (settle ts acc w) = inr res ->
  Forall (fun t => seeded_task t (db (fst (settle ts acc w)))) ts.
Proof.
  induction ts as [| t rest IH]; intros acc w res F H; simpl in *; auto.
  inversion F as [| ? ? Ht Fr]; subst.
  pose proof (run_task_seeds t w) as S1.
  destruct (run_task t w) as [w1 [e | q]]; simpl in *; [discriminate |].
  constructor; eauto.
  eapply seeded_task_le; [eapply S1; eauto |].
  apply (settle_evolves (q :: acc) w1 Fr).
Qed.

Lemma settle_skips ts : forall acc w,
  Forall (fun t => seeded_task t (db w)) ts ->
  Forall (fun t => task_table t <> Invoices) ts ->
  snd (settle ts acc w) = inr (rev acc ++ repeat (Some 0) (List.length ts)) /\
  db (fst (settle ts acc w)) = db w /\
  inflight (fst (settle ts acc w)) = inflight w.
Proof.
  induction ts as [| t rest IH]; intros acc w S N; simpl.
  - now rewrite app_nil_r.
  - inversion S as [| ? ? St Sr]; inversion N as [| ? ? Nt Nr]; subst.
    destruct (run_task_skips t w St Nt) as [R D].
    pose proof (task_run_inflight (run_task_run t w)) as I.
    destruct (run_task t w) as [w1 [e | q]]; simpl in *; [discriminate |].
    inversion R; subst q. rewrite <- D in Sr.
    destruct (IH (Some 0 :: acc) w1 Sr Nr) as (R' & D' & I').
    refine (conj _ (conj _ _)).
    + etransitivity; [exact R' |]. simpl. now rewrite <- app_assoc.
    + etransitivity; [exact D' | exact D].
    + etransitivity; [exact I' | exact I].
Qed.

(** ** The invoices batch: no key is supplied, so no insert is skipped *)

(** An invoice promise on a well-formed database either is rejected and
    changes nothing, or appends one row under a newly drawn identifier. *)
Lemma run_invoice_task i w rows :
  db_wf (db w) -> invoices_t (db w) = Some rows ->
  (exists e, snd (run_task (InvoiceTask i) w) = inl e /\
             db (fst (run_task (InvoiceTask i) w)) = db w) \/
  (exists r, snd (run_task (InvoiceTask i) w) = inr (Some 1) /\
             i_id r = Gen (next_uuid (db w)) /\
             db (fst (run_task (InvoiceTask i) w)) =
             draw_uuid (set_invoices (rows ++ [r]) (db w))).
Proof.
  intros W T. simpl. rewrite sql_eq. simpl. rewrite T.
  destruct (invoice_row _ _ _ _ _) as [e | r] eqn:R; simpl.
  - left. eauto.
  - right. pose proof (invoice_row_id _ _ _ _ _ R) as Hid.
    pose proof (fresh_not_in W) as Hf. rewrite T in Hf. simpl in Hf.
    rewrite Hid, Hf. simpl. eauto.
Qed.

Lemma run_invoice_seeded i w :
  seeded_task (InvoiceTask i) (db w) ->
  exists e, snd (run_task (InvoiceTask i) w) <> inl e.
Proof.
  intros _. exists HashErr. simpl. rewrite sql_eq.
  destruct (snd (exec _ _)) as [e | q]; simpl; discriminate.
Qed.

Lemma run_invoice_accepts i w :
  db_wf (db w) -> seeded_task (InvoiceTask i) (db w) ->
  snd (run_task (InvoiceTask i) w) = inr (Some 1).
Proof.
  intros W (r & rows & R & T). simpl. rewrite sql_eq. simpl. rewrite T.
  rewrite (invoice_row_fresh _ _ _ _ _ R (Gen (next_uuid (db w)))). simpl.
  pose proof (fresh_not_in W) as Hf. rewrite T in Hf. simpl in Hf.
  now rewrite Hf.
Qed.

Lemma settle_invoices ts : forall acc w rows,
  Forall (fun t => task_table t = Invoices) ts ->
  db_wf (db w) -> invoices_t (db w) = Some rows ->
  exists new,
    invoices_t (db (fst (settle ts acc w))) = Some (rows ++ new) /\
    Forall (drawn_from (next_uuid (db w))) new /\
    match snd (settle ts acc w) with
    | inr res =>
        res = rev acc ++ repeat (Some 1) (List.length ts) /\
        List.length new = List.length ts
    | inl _ => List.length new < List.length ts
    end.
Proof.
  induction ts as [| t rest IH]; intros acc w rows F W T; simpl.
  - exists []. rewrite !app_nil_r. auto.
  - inversion F as [| ? ? Ht Fr]; subst.
    destruct t as [? | ? | i | ?]; try discriminate.
    pose proof (evolves_task (InvoiceTask i) w) as [D W1 _].
    destruct (run_invoice_task i w W T)
      as [(e & Hr & Hd) | (r & Hr & Hid & Hd)].
    + destruct (run_task (InvoiceTask i) w) as [w1 [e' | q]];
        simpl in *; [| discriminate].
      exists []. rewrite Hd, T, app_nil_r. repeat split; auto.
      simpl. lia.
    + destruct (run_task (InvoiceTask i) w) as [w1 [e' | q]];
        simpl in *; [discriminate |].
      inversion Hr; subst q.
      assert (T1 : invoices_t (db w1) = Some (rows ++ [r]))
        by now rewrite Hd.
      destruct (IH (@cons QueryResult (Some 1) acc) w1 _ Fr (W1 W) T1)
        as (new & Tn & Fn & O).
      exists (r :: new). rewrite <- app_assoc in Tn. simpl in Tn.
      split; [exact Tn |]. split.
      * constructor; [exists (next_uuid (db w)); auto |].
        eapply Forall_impl; [| exact Fn].
        intros a (k & Hk & Hle). exists k. split; auto.
        rewrite Hd in Hle. simpl in Hle. lia.
      * destruct (snd (settle rest (@cons QueryResult (Some 1) acc) w1))
          as [e | res];
          cbn beta iota in O.
        -- simpl. lia.
        -- destruct O as [-> Hl]. simpl. rewrite <- app_assoc. simpl.
           split; auto.
Qed.

Lemma settle_accepts ts : forall acc w,
  Forall (fun t => task_table t = Invoices) ts ->
  db_wf (db w) ->
  Forall (fun t => seeded_task t (db w)) ts ->
  exists res, snd (settle ts acc w) = inr res.
Proof.
  induction ts as [| t rest IH]; intros acc w F W S; simpl; eauto.
  inversion F as [| ? ? Ht Fr]; inversion S as [| ? ? St Sr]; subst.
  destruct t as [? | ? | i | ?]; try discriminate.
  pose proof (evolves_task (InvoiceTask i) w) as [D W1 _].
  pose proof (@run_invoice_accepts i w W St) as R.
  destruct (run_task (InvoiceTask i) w) as [w1 [e | q]];
    simpl in *; [discriminate |].
  apply IH; [exact Fr | exact (W1 W) |].
  eapply Forall_impl; [| exact Sr].
  intros a Ha. eapply seeded_task_le; [exact Ha | exact D].
Qed.

(** ** Frames: a loader touches its own table only *)

Lemma same_table_refl t d : same_table t d d.
Proof. now destruct t. Qed.

Lemma same_table_trans t a b c :
  same_table t a b -> same_table t b c -> same_table t a c.
Proof. destruct t; simpl; congruence. Qed.

Lemma exec_frame s d t :
  stmt_table s <> Some t -> same_table t d (fst (exec s d)).
Proof.
  intros N. destruct s; simpl in *.
  - now destruct t.
  - destruct (table_exists t0 d); [apply same_table_refl |].
    destruct (needs_uuid_default t0 && negb (uuid_ossp d));
      [apply same_table_refl |].
    destruct t0, t; simpl; congruence.
  - destruct (users_t d); [| apply same_table_refl].
    destruct (user_row _ _ _ _); [apply same_table_refl |].
    destruct (has_user_id _ _); [apply same_table_refl |].
    destruct (has_user_email _ _); [apply same_table_refl |].
    destruct t; simpl; congruence.
  - destruct (customers_t d); [| apply same_table_refl].
    destruct (customer_row _ _ _ _); [apply same_table_refl |].
    destruct (has_customer_id _ _); [apply same_table_refl |].
    destruct t; simpl; congruence.
  - destruct (invoices_t d); [| apply same_table_refl].
    destruct (invoice_row _ _ _ _ _); [apply same_table_refl |].
    destruct (has_invoice_id _ _); destruct t; simpl; congruence.
  - destruct (revenue_t d); [| apply same_table_refl].
    destruct (revenue_row _ _); [apply same_table_refl |].
    destruct (has_month _ _); [apply same_table_refl |].
    destruct t; simpl; congruence.
Qed.

Lemma run_task_frame t x w :
  task_table x <> t -> same_table t (db w) (db (fst (run_task x w))).
Proof.
  intros N. destruct (run_task_run x w) as [_ | h s' _].
  - apply same_table_refl.
  - simpl. apply exec_frame. rewrite task_stmt_table. congruence.
Qed.

Lemma init_db_frame t t0 d : t0 <> t -> same_table t d (init_db t0 d).
Proof.
  intros N. unfold init_db.
  eapply same_table_trans
    with (b := if needs_uuid_default t0 then set_uuid_ossp true d else d).
  - destruct (needs_uuid_default t0); [| apply same_table_refl].
    now destruct t.
  - destruct (table_exists t0 _); [apply same_table_refl |].
    destruct t0, t; simpl; congruence.
Qed.

Lemma loader_frame t t0 ts w :
  t0 <> t -> Forall (fun x => task_table x = t0) ts ->
  same_table t (db w) (db (fst (loader t0 ts w))).
Proof.
  intros N F.
  apply loader_rel with (RD := same_table t)
                        (allowed := fun x => task_table x <> t).
  - apply same_table_refl.
  - apply same_table_trans.
  - intros x w' Hx. now apply run_task_frame.
  - now apply init_db_frame.
  - eapply Forall_impl; [| exact F]. simpl. congruence.
Qed.

(** The extension, once there, stays; no promise installs or removes it. *)
Lemma run_task_ext x w :
  uuid_ossp (db (fst (run_task x w))) = uuid_ossp (db w).
Proof.
  destruct (run_task_run x w) as [_ | h s' _]; auto. simpl.
  destruct x; simpl.
  - destruct (users_t (db w)); auto. destruct (user_row _ _ _ _); auto.
    destruct (has_user_id _ _); auto. destruct (has_user_email _ _); auto.
  - destruct (customers_t (db w)); auto.
    destruct (customer_row _ _ _ _); auto.
    destruct (has_customer_id _ _); auto.
  - destruct (invoices_t (db w)); auto.
    destruct (invoice_row _ _ _ _ _); auto.
    destruct (has_invoice_id _ _); auto.
  - destruct (revenue_t (db w)); auto. destruct (revenue_row _ _); auto.
    destruct (has_month _ _); auto.
Qed.

(** ** Schema initialisation *)

Lemma set_uuid_ossp_same d : uuid_ossp d = true -> set_uuid_ossp true d = d.
Proof. destruct d; simpl. now intros ->. Qed.

Lemma init_db_same t d : initialised t d -> init_db t d = d.
Proof.
  intros [Ex Hx]. unfold init_db.
  destruct (needs_uuid_default t).
  - rewrite (set_uuid_ossp_same d (Hx eq_refl)). now rewrite Ex.
  - now rewrite Ex.
Qed.

Lemma init_db_initialised t d : initialised t (init_db t d).
Proof.
  unfold init_db, initialised.
  destruct (needs_uuid_default t) eqn:Nd.
  - destruct (table_exists t (set_uuid_ossp true d)) eqn:Ex; auto.
    destruct t; simpl; auto.
  - destruct (table_exists t d) eqn:Ex; [split; [auto | discriminate] |].
    destruct t; simpl; split; auto; discriminate.
Qed.

Lemma tbl_le_some {A} (o o' : option (list A)) :
  tbl_le o o' -> is_some o = true -> is_some o' = true.
Proof.
  destruct o; simpl; [| discriminate]. now intros [more ->].
Qed.

Lemma initialised_le t d d' : initialised t d -> db_le d d' -> initialised t d'.
Proof.
  intros [Ex Hx] [LE LU LC LI LR _]. split; auto.
  destruct t; simpl in *; eauto using tbl_le_some.
Qed.

(** ** Loaders over records seeded or not *)

Lemma unsettling_Forall (Q : Task -> Prop) k l :
  Forall Q (settling k l) -> Forall Q l.
Proof.
  intros F. eapply Permutation_Forall; [apply settling_perm | exact F].
Qed.

Lemma loader_seeds t ts w x :
  Forall (fun y => task_table y = t) ts ->
  snd (loader t ts w) = inr x ->
  Forall (fun y => seeded_task y (db (fst (loader t ts w)))) ts /\
  initialised t (db (fst (loader t ts w))).
Proof.
  intros F. unfold loader. rewrite promise_all_eq.
  set (w1 := bump (after_init t w)).
  set (l := settling (ticks (after_init t w)) ts).
  assert (Fl : Forall (fun y => task_table y = t) l)
    by (apply settling_Forall, F).
  pose proof (@settle_seeds t l [] w1) as S.
  pose proof (settle_evolves [] w1 Fl) as [D _ _].
  destruct (settle l [] w1) as [w2 [e | res]]; simpl in *; [discriminate |].
  intros _. split.
  - apply unsettling_Forall with (k := ticks (after_init t w)).
    fold l. eauto.
  - eapply initialised_le; [apply (init_db_initialised t (db w)) | exact D].
Qed.

Lemma loader_skips t ts w :
  initialised t (db w) ->
  Forall (fun y => seeded_task y (db w)) ts ->
  Forall (fun y => task_table y <> Invoices) ts ->
  snd (loader t ts w) = inr (None, repeat (Some 0) (List.length ts)) /\
  db (fst (loader t ts w)) = db w /\
  inflight (fst (loader t ts w)) = inflight w.
Proof.
  intros I S N. unfold loader. rewrite promise_all_eq.
  set (w1 := bump (after_init t w)).
  set (l := settling (ticks (after_init t w)) ts).
  assert (D1 : db w1 = db w) by (simpl; now apply init_db_same).
  assert (Sl : Forall (fun y => seeded_task y (db w1)) l).
  { rewrite D1. apply settling_Forall, S. }
  assert (Nl : Forall (fun y => task_table y <> Invoices) l)
    by apply settling_Forall, N.
  destruct (settle_skips [] w1 Sl Nl) as (R & D & Hi).
  destruct (settle l [] w1) as [w2 [e | res]]; simpl in *; [discriminate |].
  inversion R; subst res. unfold l. rewrite settling_length.
  rewrite in_array_order_repeat by apply schedule_perm.
  repeat split; congruence.
Qed.

Lemma init_invoices d :
  invoices_t (init_db Invoices d) = Some (rows_of (invoices_t d)) /\
  next_uuid (init_db Invoices d) = next_uuid d.
Proof.
  destruct d as [e u c [rows |] r n]; unfold init_db; simpl; auto.
Qed.

Lemma loader_invoices ts w :
  Forall (fun y => task_table y = Invoices) ts ->
  db_wf (db w) ->
  exists new,
    invoices_t (db (fst (loader Invoices ts w))) =
      Some (rows_of (invoices_t (db w)) ++ new) /\
    Forall (drawn_from (next_uuid (db w))) new /\
    match snd (loader Invoices ts w) with
    | inr (_, res) =>
        res = repeat (Some 1) (List.length ts) /\
        List.length new = List.length ts
    | inl _ => List.length new < List.length ts
    end.
Proof.
  intros F W. unfold loader. rewrite promise_all_eq.
  set (w1 := bump (after_init Invoices w)).
  set (l := settling (ticks (after_init Invoices w)) ts).
  assert (Fl : Forall (fun y => task_table y = Invoices) l)
    by (apply settling_Forall, F).
  destruct (init_invoices (db w)) as [T N].
  assert (W1 : db_wf (db w1)) by (simpl; now apply init_db_wf).
  destruct (@settle_invoices l [] w1 _ Fl W1 T) as (new & Tn & Fn & O).
  exists new. simpl in Fn. rewrite N in Fn.
  assert (L : List.length l = List.length ts) by apply settling_length.
  destruct (settle l [] w1) as [w2 [e | res]]; simpl in *.
  - repeat split; auto. lia.
  - rewrite L in O. destruct O as [-> Ln].
    rewrite in_array_order_repeat by apply schedule_perm. auto.
Qed.

Lemma loader_accepts ts w :
  Forall (fun y => task_table y = Invoices) ts ->
  db_wf (db w) ->
  Forall (fun y => seeded_task y (db w)) ts ->
  exists x, snd (loader Invoices ts w) = inr x.
Proof.
  intros F W S. unfold loader. rewrite promise_all_eq.
  set (w1 := bump (after_init Invoices w)).
  set (l := settling (ticks (after_init Invoices w)) ts).
  assert (Fl : Forall (fun y => task_table y = Invoices) l)
    by (apply settling_Forall, F).
  assert (W1 : db_wf (db w1)) by (simpl; now apply init_db_wf).
  assert (Sl : Forall (fun y => seeded_task y (db w1)) l).
  { apply settling_Forall. eapply Forall_impl; [| exact S].
    intros a Ha. eapply seeded_task_le; [exact Ha |]. apply init_db_le. }
  destruct (@settle_accepts l [] w1 Fl W1 Sl) as [res R].
  destruct (settle l [] w1) as [w2 [e | res']]; simpl in *;
    [discriminate | eauto].
Qed.

(** ** Successful runs of the script *)

Lemma script_phases fx w :
  script fx w =
  match run_phases fx seed_order (fst (db_connect w)) with
  | (w', inl e) =>
      (drain (fst (console_error (ErrorOccurred e) w')), inl e)
  | (w', inr _) => (drain (fst (client_end w')), inr tt)
  end.
Proof.
  unfold script. rewrite main_eq.
  destruct (run_phases fx seed_order (fst (db_connect w)))
    as [w' [e | []]]; reflexivity.
Qed.

Lemma run_phases_step fx t l w x :
  snd (seed fx t w) = inr x ->
  run_phases fx (t :: l) w = run_phases fx l (fst (seed fx t w)).
Proof.
  simpl. unfold bind.
  destruct (seed fx t w) as [w1 [e | y]]; simpl; [discriminate | auto].
Qed.

Lemma run_phases_inv fx t l w :
  snd (run_phases fx (t :: l) w) = inr tt ->
  exists x, snd (seed fx t w) = inr x /\
            snd (run_phases fx l (fst (seed fx t w))) = inr tt.
Proof.
  simpl. unfold bind.
  destruct (seed fx t w) as [w1 [e | y]]; simpl; [discriminate | eauto].
Qed.

Lemma seeded_le fx d d' : seeded fx d -> db_le d d' -> seeded fx d'.
Proof.
  intros S L t. destruct (S t) as [I F]. split.
  - eapply initialised_le; eauto.
  - eapply Forall_impl; [| exact F].
    intros a Ha. eapply seeded_task_le; [exact Ha | exact L].
Qed.

Lemma phases_run_seeds fx ts w w' r :
  phases_run fx ts w w' r -> r = inr tt ->
  forall t, In t ts ->
    initialised t (db w') /\
    Forall (fun x => seeded_task x (db w')) (phase_tasks fx t).
Proof.
  induction 1 as [w | t l w e _ | t l w x w' r Hx Hr IH]; intros E t0 Hin.
  - destruct Hin.
  - discriminate.
  - destruct Hin as [<- | Hin]; [| now apply IH].
    pose proof (phases_run_evolves Hr) as [D _ _].
    rewrite seed_loader in Hx, D.
    destruct (@loader_seeds t (phase_tasks fx t) w x
                (phase_tasks_table fx t) Hx) as [F I].
    split.
    + eapply initialised_le; eauto.
    + eapply Forall_impl; [| exact F].
      intros a Ha. eapply seeded_task_le; [exact Ha | exact D].
Qed.

Lemma client_end_idle w :
  inflight w = [] -> drain (fst (client_end w)) = fst (client_end w).
Proof. intros H. now apply drain_idle. Qed.

Lemma script_seeds fx d s k :
  snd (script fx (boot d s k)) = inr tt ->
  seeded fx (db (fst (script fx (boot d s k)))).
Proof.
  rewrite script_phases.
  set (w0 := fst (db_connect (boot d s k))).
  pose proof (run_phases_run fx seed_order w0) as R.
  pose proof (phases_run_outcome R seed_order_sorted) as (evs & _ & O).
  destruct (run_phases fx seed_order w0) as [w' [e | []]];
    cbn [fst snd] in *; [discriminate |].
  intros _ t. destruct O as [Hi _].
  rewrite client_end_idle by exact Hi. simpl.
  apply (phases_run_seeds R eq_refl).
  unfold seed_order. destruct t; simpl; auto.
Qed.

Lemma seed_step fx t w :
  db_le (db w) (db (fst (seed fx t w))) /\
  (db_wf (db w) -> db_wf (db (fst (seed fx t w)))) /\
  (forall t', t <> t' -> same_table t' (db w) (db (fst (seed fx t w)))) /\
  (forall x, snd (seed fx t w) = inr x ->
             inflight (fst (seed fx t w)) = inflight w).
Proof.
  destruct (seed_evolves fx t w) as [D W _].
  refine (conj D (conj W (conj _ _))).
  - intros t' N. rewrite seed_loader.
    apply loader_frame; auto using phase_tasks_table.
  - intros x Hx. pose proof (seed_settled fx t w) as S.
    rewrite Hx in S. destruct x. tauto.
Qed.

Lemma seed_invoices fx w :
  db_wf (db w) ->
  exists new,
    invoices_t (db (fst (seed fx Invoices w))) =
      Some (rows_of (invoices_t (db w)) ++ new) /\
    Forall (drawn_from (next_uuid (db w))) new /\
    match snd (seed fx Invoices w) with
    | inr (_, res) =>
        res = repeat (Some 1) (List.length (invoices fx)) /\
        List.length new = List.length (invoices fx)
    | inl _ => List.length new < List.length (invoices fx)
    end.
Proof.
  intros W. rewrite seed_loader.
  destruct (loader_invoices w (phase_tasks_table fx Invoices) W)
    as (new & Tn & Fn & O).
  exists new. simpl in O. rewrite length_map in O. auto.
Qed.

(** In a run that succeeds on a well-formed database, the invoices loader
    appends one row per fixture record, whatever is there already. *)
Lemma script_invoices fx d s k :
  db_wf d -> snd (script fx (boot d s k)) = inr tt ->
  exists new,
    invoices_t (db (fst (script fx (boot d s k)))) =
      Some (rows_of (invoices_t d) ++ new) /\
    List.length new = List.length (invoices fx).
Proof.
  intros W. rewrite script_phases.
  set (w0 := fst (db_connect (boot d s k))).
  destruct (run_phases fx seed_order w0) as [w' [e | []]] eqn:R;
    cbn [fst snd]; [discriminate |]. intros _.
  assert (R' : snd (run_phases fx seed_order w0) = inr tt) by now rewrite R.
  unfold seed_order in *.
  destruct (run_phases_inv _ _ _ _ R') as (x1 & H1 & R1).
  rewrite (run_phases_step _ _ _ _ H1) in R.
  destruct (run_phases_inv _ _ _ _ R1) as (x2 & H2 & R2).
  rewrite (run_phases_step _ _ _ _ H2) in R.
  destruct (run_phases_inv _ _ _ _ R2) as (x3 & H3 & R3).
  rewrite (run_phases_step _ _ _ _ H3) in R.
  destruct (run_phases_inv _ _ _ _ R3) as (x4 & H4 & _).
  rewrite (run_phases_step _ _ _ _ H4) in R.
  clear R' R1 R2 R3.
  set (w1 := fst (seed fx Users w0)) in *.
  set (w2 := fst (seed fx Customers w1)) in *.
  set (w3 := fst (seed fx Invoices w2)) in *.
  set (w4 := fst (seed fx Revenue w3)) in *.
  assert (w' = w4) by (now inversion R). subst w'. clear R.
  destruct (seed_step fx Users w0) as (_ & W1 & F1 & I1).
  destruct (seed_step fx Customers w1) as (_ & W2 & F2 & I2).
  destruct (seed_step fx Invoices w2) as (_ & _ & _ & I3).
  destruct (seed_step fx Revenue w3) as (_ & _ & F4 & I4).
  fold w1 in W1, F1, I1. fold w2 in W2, F2, I2. fold w3 in I3.
  fold w4 in F4, I4.
  assert (Hi : inflight w4 = []).
  { rewrite (I4 _ H4), (I3 _ H3), (I2 _ H2), (I1 _ H1). reflexivity. }
  rewrite client_end_idle by exact Hi.
  change (db (fst (client_end w4))) with (db w4).
  specialize (F1 Invoices ltac:(discriminate)).
  specialize (F2 Invoices ltac:(discriminate)).
  specialize (F4 Invoices ltac:(discriminate)).
  simpl in F1, F2, F4.
  assert (Wf2 : db_wf (db w2)) by (apply W2, W1, W).
  destruct (seed_invoices fx w2 Wf2) as (new & Tn & _ & O).
  rewrite H3 in O. destruct x3 as [ct res]. destruct O as [_ L].
  fold w3 in Tn. exists new. rewrite <- F4, Tn, <- F2, <- F1. auto.
Qed.

Lemma seed_skips fx t w :
  t <> Invoices -> seeded fx (db w) ->
  snd (seed fx t w) = inr (None, repeat (Some 0) (List.length (phase_tasks fx t))) /\
  db (fst (seed fx t w)) = db w.
Proof.
  intros N S. destruct (S t) as [I F]. rewrite seed_loader.
  destruct (@loader_skips t (phase_tasks fx t) w I F) as (R & D & _); auto.
  eapply Forall_impl; [| apply phase_tasks_table]. simpl. congruence.
Qed.

Lemma seed_accepts fx w :
  db_wf (db w) -> seeded fx (db w) ->
  exists x, snd (seed fx Invoices w) = inr x.
Proof.
  intros W S. destruct (S Invoices) as [_ F]. rewrite seed_loader.
  apply loader_accepts; auto using phase_tasks_table.
Qed.

(** On a database that holds the fixture already the script succeeds again
    and leaves the tables whose statements supply the key as they are. *)
Lemma script_rerun fx d s k :
  seeded fx d -> db_wf d ->
  snd (script fx (boot d s k)) = inr tt /\
  users_t (db (fst (script fx (boot d s k)))) = users_t d /\
  customers_t (db (fst (script fx (boot d s k)))) = customers_t d /\
  revenue_t (db (fst (script fx (boot d s k)))) = revenue_t d.
Proof.
  intros S W. rewrite script_phases.
  set (w0 := fst (db_connect (boot d s k))).
  assert (D0 : db w0 = d) by reflexivity.
  assert (S0 : seeded fx (db w0)) by now rewrite D0.
  destruct (@seed_skips fx Users w0 ltac:(discriminate) S0) as [H1 D1].
  set (w1 := fst (seed fx Users w0)) in *.
  assert (S1 : seeded fx (db w1)) by now rewrite D1.
  destruct (@seed_skips fx Customers w1 ltac:(discriminate) S1) as [H2 D2].
  set (w2 := fst (seed fx Customers w1)) in *.
  assert (S2 : seeded fx (db w2)) by now rewrite D2.
  assert (W2 : db_wf (db w2)) by now rewrite D2, D1, D0.
  destruct (@seed_accepts fx w2 W2 S2) as [x3 H3].
  destruct (seed_step fx Invoices w2) as (L3 & _ & F3 & I3).
  set (w3 := fst (seed fx Invoices w2)) in *.
  assert (S3 : seeded fx (db w3)) by (eapply seeded_le; eauto).
  destruct (@seed_skips fx Revenue w3 ltac:(discriminate) S3) as [H4 D4].
  set (w4 := fst (seed fx Revenue w3)) in *.
  unfold seed_order.
  rewrite (run_phases_step _ _ _ _ H1). fold w1.
  rewrite (run_phases_step _ _ _ _ H2). fold w2.
  rewrite (run_phases_step _ _ _ _ H3). fold w3.
  rewrite (run_phases_step _ _ _ _ H4). fold w4.
  change (run_phases fx [] w4) with (w4, @inr Err unit tt).
  cbn [fst snd].
  destruct (seed_step fx Users w0) as (_ & _ & _ & I1).
  destruct (seed_step fx Customers w1) as (_ & _ & _ & I2).
  destruct (seed_step fx Revenue w3) as (_ & _ & _ & I4).
  fold w1 in I1. fold w2 in I2. fold w4 in I4.
  assert (Hi : inflight w4 = []).
  { rewrite (I4 _ H4), (I3 _ H3), (I2 _ H2), (I1 _ H1). reflexivity. }
  rewrite client_end_idle by exact Hi.
  change (db (fst (client_end w4))) with (db w4).
  pose proof (F3 Users ltac:(discriminate)) as FU.
  pose proof (F3 Customers ltac:(discriminate)) as FC.
  pose proof (F3 Revenue ltac:(discriminate)) as FR.
  simpl in FU, FC, FR.
  rewrite D4, <- FU, <- FC, <- FR, D2, D1, D0. auto.
Qed.

(** ** A relation on databases, through the whole script *)

Section ScriptRel.

Variable RD : Db -> Db -> Prop.
Hypothesis RD_refl : forall d, RD d d.
Hypothesis RD_trans : forall a b c, RD a b -> RD b c -> RD a c.
Variable fx : Fixture.
Hypothesis RD_task :
  forall x w, of_fixture fx x -> RD (db w) (db (fst (run_task x w))).
Hypothesis RD_init : forall t d, RD d (init_db t d).

Lemma seed_rel t w : RD (db w) (db (fst (seed fx t w))).
Proof.
  rewrite seed_loader.
  apply loader_rel with (allowed := of_fixture fx); auto.
  apply Forall_forall. intros x Hx. now exists t.
Qed.

Lemma phases_rel ts w w' r :
  phases_run fx ts w w' r ->
  RD (db w) (db w') /\
  (Forall (of_fixture fx) (inflight w) ->
   Forall (of_fixture fx) (inflight w')).
Proof.
  assert (St : forall t w0,
    Forall (of_fixture fx) (inflight w0) ->
    Forall (of_fixture fx) (inflight (fst (seed fx t w0)))).
  { intros t w0 F. destruct (seed_inflight fx t w0) as (rest & -> & I & _).
    apply Forall_app. split; auto.
    apply Forall_forall. intros x Hx. exists t. now apply I. }
  induction 1 as [w | t l w e _ | t l w x w' r _ _ IH].
  - auto.
  - split; [apply seed_rel | apply St].
  - destruct IH as [R F]. split.
    + eapply RD_trans; [apply seed_rel | exact R].
    + intros F0. apply F, St, F0.
Qed.

Lemma script_rel d s k : RD d (db (fst (script fx (boot d s k)))).
Proof.
  rewrite script_phases.
  set (w0 := fst (db_connect (boot d s k))).
  destruct (phases_rel (run_phases_run fx seed_order w0)) as [R F].
  assert (F0 : Forall (of_fixture fx) (inflight w0)) by constructor.
  specialize (F F0).
  destruct (run_phases fx seed_order w0) as [w' [e | []]];
    cbn [fst snd] in *.
  - eapply RD_trans; [exact R |].
    exact (@drain_rel RD RD_refl RD_trans (of_fixture fx) RD_task
             (fst (console_error (ErrorOccurred e) w')) F).
  - eapply RD_trans; [exact R |].
    exact (@drain_rel RD RD_refl RD_trans (of_fixture fx) RD_task
             (fst (client_end w')) F).
Qed.

End ScriptRel.

(** ** Users: what reaches the password column *)

Lemma users_grow_refl fx d : users_grow fx d d.
Proof. exists []. now rewrite app_nil_r. Qed.

Lemma users_grow_trans fx a b c :
  users_grow fx a b -> users_grow fx b c -> users_grow fx a c.
Proof.
  intros (n1 & E1 & F1) (n2 & E2 & F2). exists (n1 ++ n2).
  rewrite E2, E1, app_assoc. split; auto. apply Forall_app; auto.
Qed.

Lemma users_grow_same fx d d' : users_t d = users_t d' -> users_grow fx d d'.
Proof. intros E. exists []. now rewrite app_nil_r, E. Qed.

Lemma users_grow_task fx x w :
  of_fixture fx x -> users_grow fx (db w) (db (fst (run_task x w))).
Proof.
  intros [t Hx]. destruct x as [u | c | i | v];
    try (apply users_grow_same;
         apply (@run_task_frame Users _ w); discriminate).
  assert (Hu : In u (users fx)).
  { destruct t; simpl in Hx; apply in_map_iff in Hx;
      destruct Hx as (y & E & Hy); try discriminate.
    now inversion E; subst. }
  simpl. unfold bind, bcrypt_hash_async.
  destruct (user_password u) as [p |] eqn:Ep; [| apply users_grow_refl].
  rewrite sql_eq. simpl.
  destruct (users_t (db w)) as [rows |] eqn:T; [| apply users_grow_refl].
  destruct (user_row _ _ _ _) as [e | r] eqn:R; [apply users_grow_refl |].
  destruct (has_user_id _ _); [apply users_grow_refl |].
  destruct (has_user_email _ _); [apply users_grow_refl |].
  exists [r]. simpl. rewrite T. simpl. split; auto. constructor; auto.
  exists u, p, (salts w). auto.
Qed.

Lemma users_grow_init fx t d : users_grow fx d (init_db t d).
Proof.
  exists []. rewrite app_nil_r. unfold init_db.
  destruct d as [e [u |] c i r n], t; simpl; auto;
    match goal with |- context [is_some ?o] => destruct o end; auto.
Qed.

Lemma script_users fx d s k :
  users_grow fx d (db (fst (script fx (boot d s k)))).
Proof.
  apply script_rel with (RD := users_grow fx).
  - apply users_grow_refl.
  - apply users_grow_trans.
  - intros x w. apply users_grow_task.
  - intros t d0. apply users_grow_init.
Qed.

(** ** The DDL of a loader, statement by statement *)

Lemma schema_stmts_init t d :
  exec_all (schema_stmts t) d = (init_db t d, inr None).
Proof.
  unfold schema_stmts, init_db.
  destruct (needs_uuid_default t) eqn:N; simpl.
  - rewrite N. simpl.
    destruct (table_exists t (set_uuid_ossp true d)); reflexivity.
  - rewrite N. simpl. destruct (table_exists t d); reflexivity.
Qed.

Lemma schema_stmts_events t :
  init_events t =
  map (fun s => EvSql t s (inr None)) (schema_stmts t) ++ [EvConsole (Created t)].
Proof.
  unfold init_events, schema_stmts.
  destruct (needs_uuid_default t); reflexivity.
Qed.

(** ** Small batches *)

Lemma schedule_nil k : schedule k [] = [].
Proof.
  apply Permutation_nil, Permutation_sym, (schedule_perm k []).
Qed.

Lemma schedule_one k x : schedule k [x] = [0].
Proof.
  apply Permutation_length_1_inv, Permutation_sym, (schedule_perm k [x]).
Qed.

Lemma settling_nil k : settling k [] = [].
Proof. unfold settling. now rewrite schedule_nil. Qed.

Lemma settling_one k x : settling k [x] = [x].
Proof. unfold settling. now rewrite schedule_one. Qed.

(** * The claims *)

Lemma phased_no_end evs :
  Forall has_phase evs -> filter is_end evs = [] /\ filter is_connect evs = [].
Proof.
  induction 1 as [| e l [t He] _ [IH1 IH2]]; simpl; auto.
  destruct e; try discriminate; simpl; auto.
Qed.

Lemma in_phase_has_phase t evs : Forall (in_phase t) evs -> Forall has_phase evs.
Proof.
  intros F. eapply Forall_impl; [| exact F]. intros e He. now exists t.
Qed.

(** The trace of a run, summarised. *)
Lemma script_summary fx d s k :
  let run := script fx (boot d s k) in
  acquisitions (trace (fst run)) = 1 /\
  match snd run with
  | inr _ =>
      releases (trace (fst run)) = 1 /\
      Forall (fun t =>
        In (EvConsole (Seeded (List.length (phase_tasks fx t)) t))
           (trace (fst run))) seed_order
  | inl e =>
      releases (trace (fst run)) = 0 /\
      In (EvConsole (ErrorOccurred e)) (trace (fst run)) /\
      exists t, In (EvConsole (ErrorSeeding t e)) (trace (fst run)) /\
                Forall (bounded_by t) (trace (fst run))
  end.
Proof.
  intros run. destruct (script_run fx d s k) as (T & _).
  fold run in T. unfold releases, acquisitions.
  destruct T as [evs Fh Fs | evs e t late Fh Fb Ie Fl].
  - destruct (phased_no_end Fh) as [E1 E2].
    simpl. rewrite !filter_app, E1, E2. simpl. repeat split; auto.
    eapply Forall_impl; [| exact Fs]. intros t Ht.
    right. apply in_or_app. auto.
  - destruct (phased_no_end Fh) as [E1 E2].
    destruct (phased_no_end (in_phase_has_phase Fl)) as [L1 L2].
    simpl. rewrite !filter_app. simpl. rewrite E1, E2, L1, L2. simpl.
    repeat split; auto.
    + right. apply in_or_app. simpl. auto.
    + exists t. split.
      * right. apply in_or_app. auto.
      * constructor; [intros t' Ht'; discriminate |].
        apply Forall_app. split; auto.
        constructor; [intros t' Ht'; discriminate |].
        eapply Forall_impl; [| exact Fl].
        intros ev Hev t' Ht'. unfold in_phase in Hev.
        assert (t' = t) by congruence. subst. auto.
Qed.

(** C1, as amended.  A run of the script acquires the connection once.  When
    all four loaders return, [client.end()] is called exactly once.  When a
    loader throws, [main] stops there: the handler of [main().catch] logs
    the error, no later loader has issued anything, and [client.end()] is
    never reached, so the connection is not released. *)
Theorem main_releases_only_on_success fx d s k :
  let run := script fx (boot d s k) in
  acquisitions (trace (fst run)) = 1 /\
  match snd run with
  | inr _ => releases (trace (fst run)) = 1
  | inl e =>
      releases (trace (fst run)) = 0 /\
      In (EvConsole (ErrorOccurred e)) (trace (fst run)) /\
      exists t, In (EvConsole (ErrorSeeding t e)) (trace (fst run)) /\
                Forall (bounded_by t) (trace (fst run))
  end.
Proof.
  intros run. destruct (script_summary fx d s k) as [A O].
  fold run in A, O. split; auto.
  destruct (snd run); tauto.
Qed.


Lemma some_rows_count {A} (o : option (list A)) l :
  o = Some l -> List.length (rows_of o) = List.length l.
Proof. now intros ->. Qed.

(** C2, as amended.  When the script has run to completion on the empty
    database, a second run completes too and leaves users, customers and
    revenue with the row counts of the first run.  The invoices table holds
    one row per fixture invoice after the first run and two per fixture
    invoice after the second: its INSERT supplies no id, so the second run
    appends the fixture again. *)
Theorem reseeding_counts fx s k s' k' :
  let once := script fx (boot empty_db s k) in
  let twice := script fx (boot (db (fst once)) s' k') in
  snd once = inr tt ->
  snd twice = inr tt /\
  row_count Users (db (fst twice)) = row_count Users (db (fst once)) /\
  row_count Customers (db (fst twice)) = row_count Customers (db (fst once)) /\
  row_count Revenue (db (fst twice)) = row_count Revenue (db (fst once)) /\
  row_count Invoices (db (fst once)) = List.length (invoices fx) /\
  row_count Invoices (db (fst twice)) = 2 * List.length (invoices fx).
Proof.
  intros once twice H1.
  pose proof (script_seeds fx empty_db s k H1) as S. fold once in S.
  destruct (script_run fx empty_db s k) as (_ & _ & _ & _ & W).
  specialize (W empty_db_wf). fold once in W.
  destruct (script_rerun s' k' S W) as (H2 & EU & EC & ER).
  fold twice in H2, EU, EC, ER.
  destruct (script_invoices fx s k empty_db_wf H1) as (n1 & T1 & L1).
  destruct (script_invoices fx s' k' W H2) as (n2 & T2 & L2).
  fold once in T1. fold twice in T2. fold once in T2.
  unfold row_count. rewrite EU, EC, ER, T2, T1. simpl.
  rewrite length_app. repeat split; auto. lia.
Qed.

(** ** Invoices *)

Lemma invoice_tasks_table ivs :
  Forall (fun y => task_table y = Invoices) (map InvoiceTask ivs).
Proof.
  apply Forall_forall. intros x Hx. apply in_map_iff in Hx.
  destruct Hx as (? & <- & _). reflexivity.
Qed.

Lemma seedInvoices_accepts ivs w :
  db_wf (db w) -> Forall invoice_ok ivs ->
  exists x, snd (seedInvoices ivs w) = inr x.
Proof.
  intros W F. rewrite seedInvoices_loader. unfold loader.
  rewrite promise_all_eq.
  set (w1 := bump (after_init Invoices w)).
  set (l := settling (ticks (after_init Invoices w)) (map InvoiceTask ivs)).
  assert (Fl : Forall (fun y => task_table y = Invoices) l)
    by apply settling_Forall, invoice_tasks_table.
  assert (W1 : db_wf (db w1)) by (simpl; now apply init_db_wf).
  assert (Sl : Forall (fun y => seeded_task y (db w1)) l).
  { apply settling_Forall. apply Forall_forall. intros x Hx.
    apply in_map_iff in Hx. destruct Hx as (i & <- & Hi).
    rewrite Forall_forall in F. destruct (F i Hi) as [r Hr].
    exists r. eexists. split; [exact Hr |]. simpl.
    apply (init_invoices (db w)). }
  destruct (@settle_accepts l [] w1 Fl W1 Sl) as [res R].
  destruct (settle l [] w1) as [w2 [e | res']]; simpl in *;
    [discriminate | eauto].
Qed.

Lemma invoice_never_skipped i w :
  db_wf (db w) -> snd (run_task (InvoiceTask i) w) <> inr (Some 0).
Proof.
  intros W. destruct (invoices_t (db w)) as [rows |] eqn:T.
  - destruct (run_invoice_task i w W T) as [(e & -> & _) | (r & -> & _)];
      discriminate.
  - simpl. rewrite sql_eq. simpl. rewrite T. discriminate.
Qed.

(** C3.  The INSERT of the invoices loader names no id column: every row it
    stores carries an identifier drawn by the server during the run.  So on
    a well-formed database no invoice insert takes the DO NOTHING branch,
    and a run of [seedInvoices] that returns has appended exactly one row
    per fixture record to whatever rows were there; it returns whenever the
    records pass the column checks. *)
Theorem seedInvoices_always_appends ivs w :
  db_wf (db w) ->
  let run := seedInvoices ivs w in
  (forall i w0, db_wf (db w0) ->
     snd (run_task (InvoiceTask i) w0) <> inr (Some 0)) /\
  (Forall invoice_ok ivs -> exists x, snd run = inr x) /\
  exists new,
    invoices_t (db (fst run)) = Some (rows_of (invoices_t (db w)) ++ new) /\
    Forall (drawn_from (next_uuid (db w))) new /\
    forall x, snd run = inr x ->
      snd x = repeat (Some 1) (List.length ivs) /\
      List.length new = List.length ivs.
Proof.
  intros W run. split; [intros i w0; apply invoice_never_skipped |].
  split; [now apply seedInvoices_accepts |].
  unfold run. rewrite seedInvoices_loader.
  destruct (loader_invoices w (invoice_tasks_table ivs) W)
    as (new & Tn & Fn & O).
  exists new. split; auto. split; auto.
  intros [ct res] Hx. rewrite Hx in O. rewrite length_map in O. auto.
Qed.

(** ** Completion of a loader *)

Lemma fulfilled_all_length ts qs evs :
  fulfilled_all ts qs evs ->
  List.length qs = List.length ts /\ List.length evs = List.length ts.
Proof.
  induction 1 as [| x q ev ts qs evs _ _ [IH1 IH2]]; simpl; auto.
Qed.

(** What the trace gains from one promise. *)
Lemma run_task_event x w :
  match snd (run_task x w) with
  | inr q =>
      exists ev, trace (fst (run_task x w)) = trace w ++ [ev] /\
                 fulfilled x q ev
  | inl e =>
      exists bevs, trace (fst (run_task x w)) = trace w ++ bevs /\
                   rejected x e bevs
  end.
Proof.
  destruct (run_task_run x w) as [Hp | h s' _].
  - exists []. rewrite app_nil_r. split; auto. left. auto.
  - simpl. destruct (snd (exec (task_stmt x h) (db w))) as [err | q]; simpl.
    + eexists. split; [reflexivity |]. right. exists h, err. auto.
    + eexists. split; [reflexivity |]. exists h. reflexivity.
Qed.

(** A batch settles promise by promise: all are fulfilled, or the first
    rejection ends it with the promises behind it still to settle. *)
Lemma settle_trace ts : forall acc w,
  match snd (settle ts acc w) with
  | inr res =>
      exists qs evs,
        res = rev acc ++ qs /\
        trace (fst (settle ts acc w)) = trace w ++ evs /\
        fulfilled_all ts qs evs
  | inl e =>
      exists done bad rest qs evs bevs,
        ts = done ++ bad :: rest /\
        trace (fst (settle ts acc w)) = trace w ++ evs ++ bevs /\
        fulfilled_all done qs evs /\
        rejected bad e bevs /\
        inflight (fst (settle ts acc w)) = inflight w ++ rest
  end.
Proof.
  induction ts as [| t rest IH]; intros acc w; simpl.
  - exists [], []. rewrite !app_nil_r. repeat split. constructor.
  - pose proof (run_task_event t w) as Ev.
    pose proof (task_run_inflight (run_task_run t w)) as I.
    destruct (run_task t w) as [w1 [e | q]]; simpl in *.
    + destruct Ev as (bevs & T & R).
      exists [], t, rest, [], [], bevs. simpl. rewrite I.
      repeat split; auto. constructor.
    + destruct Ev as (ev & T & Fu).
      specialize (IH (q :: acc) w1).
      destruct (settle rest (q :: acc) w1) as [w2 [e | res]]; simpl in *.
      * destruct IH
          as (done & bad & rest' & qs & evs & bevs & -> & T2 & Fa & R & Hi).
        exists (t :: done), bad, rest', (q :: qs), (ev :: evs), bevs.
        rewrite T2, T, Hi, I, <- !app_assoc. simpl.
        repeat split; auto. constructor; auto.
      * destruct IH as (qs & evs & -> & T2 & Fa).
        exists (q :: qs), (ev :: evs). rewrite T2, T, <- !app_assoc. simpl.
        repeat split; auto. constructor; auto.
Qed.

(** C4, as amended.  A loader reports completion only after every promise
    of its batch has settled: the trace holds the INSERT of each promise,
    answered without error, before the line that reports the batch, the
    results are those answers in the order of the array, and nothing of the
    batch is in flight.  When it throws, it throws the error of the first
    promise to be rejected, at once: the promises before it in settling
    order were fulfilled, the error line follows the rejection directly,
    and the promises behind it are left in flight; the loader does not wait
    for them. *)
Theorem loader_completion fx t w :
  let run := seed fx t w in
  let batch := phase_tasks fx t in
  let order := settling (ticks w) batch in
  Permutation order batch /\
  match snd run with
  | inr (_, res) =>
      exists qs evs,
        fulfilled_all order qs evs /\
        trace (fst run) =
          trace w ++ init_events t ++ evs ++
          [EvConsole (Seeded (List.length batch) t)] /\
        res = in_array_order (schedule (ticks w) batch) qs /\
        inflight (fst run) = inflight w
  | inl e =>
      exists done bad rest qs evs bevs,
        order = done ++ bad :: rest /\
        fulfilled_all done qs evs /\
        rejected bad e bevs /\
        trace (fst run) =
          trace w ++ init_events t ++ evs ++ bevs ++
          [EvConsole (ErrorSeeding t e)] /\
        inflight (fst run) = inflight w ++ rest
  end.
Proof.
  intros run batch order. split; [apply settling_perm |].
  unfold run. rewrite seed_loader. unfold loader. rewrite promise_all_eq.
  change (settling (ticks (after_init t w)) (phase_tasks fx t)) with order.
  change (schedule (ticks (after_init t w)) (phase_tasks fx t))
    with (schedule (ticks w) batch).
  set (start := bump (after_init t w)).
  pose proof (settle_trace order [] start) as H.
  pose proof (settle_inflight order [] start) as Hi.
  destruct (settle order [] start) as [w2 [e | res]];
    cbn [fst snd emit trace inflight] in H, Hi |- *.
  - destruct H as (done & bad & rest & qs & evs & bevs & E & T & Fa & R & I).
    exists done, bad, rest, qs, evs, bevs. rewrite T, I.
    cbn [start bump after_init trace inflight]. rewrite <- !app_assoc. auto.
  - destruct H as (qs & evs & E & T & Fa). destruct Hi as [I _].
    cbn [rev app] in E. subst res.
    exists qs, evs. rewrite T, I, in_array_order_length.
    destruct (fulfilled_all_length Fa) as [-> _].
    unfold order at 2. rewrite settling_length.
    cbn [start bump after_init trace inflight]. rewrite <- !app_assoc. auto.
Qed.

(** ** Conflicts and errors *)

Lemma conflict_skipped s d :
  conflicts s d ->
  snd (exec s d) = inr (Some 0) /\ forall t, same_table t d (fst (exec s d)).
Proof.
  destruct s; simpl; try tauto; intros (r & rows & R & T & K);
    rewrite T, R, K; simpl; split; auto; intros t0;
    try apply same_table_refl.
  destruct t0; reflexivity.
Qed.

(** A promise that sends its INSERT settles with the answer of the
    server. *)
Lemma run_task_insert x w s :
  task_insert x w = Some s ->
  snd (run_task x w) = lift_res (snd (exec s (db w))) /\
  db (fst (run_task x w)) = fst (exec s (db w)) /\
  trace (fst (run_task x w)) =
    trace w ++ [EvSql (task_table x) s (snd (exec s (db w)))] /\
  inflight (fst (run_task x w)) = inflight w.
Proof.
  destruct x as [u | c | i | v]; simpl.
  - unfold bind, bcrypt_hash_async.
    destruct (user_password u) as [p |]; [| discriminate].
    intros [= <-]. rewrite sql_eq. simpl. auto.
  - intros [= <-]. rewrite sql_eq. simpl. auto.
  - intros [= <-]. rewrite sql_eq. simpl. auto.
  - intros [= <-]. rewrite sql_eq. simpl. auto.
Qed.

(** A batch goes on from where its first promises have left it. *)
Lemma settle_app done : forall rest acc w w1 res,
  settle done acc w = (w1, inr res) ->
  settle (done ++ rest) acc w = settle rest (rev res) w1.
Proof.
  induction done as [| x done IH]; intros rest acc w w1 res; simpl.
  - intros [= <- <-]. now rewrite rev_involutive.
  - destruct (run_task x w) as [w2 [e | q]]; [discriminate |].
    apply IH.
Qed.

(** How a batch ends does not depend on the results collected so far. *)
Lemma settle_acc ts : forall acc acc' w,
  fst (settle ts acc w) = fst (settle ts acc' w) /\
  match snd (settle ts acc w), snd (settle ts acc' w) with
  | inr _, inr _ => True
  | inl e, inl e' => e = e'
  | _, _ => False
  end.
Proof.
  induction ts as [| x ts IH]; intros acc acc' w; simpl; auto.
  destruct (run_task x w) as [w1 [e | q]]; simpl; auto.
Qed.

Lemma loader_outcome t ts w :
  snd (loader t ts w) =
  match snd (settle (settling (ticks w) ts) [] (bump (after_init t w))) with
  | inr res => inr (None, in_array_order (schedule (ticks w) ts) res)
  | inl e => inl e
  end.
Proof.
  unfold loader. rewrite promise_all_eq.
  change (ticks (after_init t w)) with (ticks w).
  now destruct (settle _ _ _) as [w2 [e | res]].
Qed.

Lemma loader_world t ts w :
  fst (loader t ts w) =
  let w2 := fst (settle (settling (ticks w) ts) [] (bump (after_init t w))) in
  match snd (settle (settling (ticks w) ts) [] (bump (after_init t w))) with
  | inr res => fst (emit (EvConsole (Seeded (List.length ts) t)) w2)
  | inl e => fst (emit (EvConsole (ErrorSeeding t e)) w2)
  end.
Proof.
  unfold loader. rewrite promise_all_eq.
  change (ticks (after_init t w)) with (ticks w).
  pose proof (settle_inflight (settling (ticks w) ts) []
                (bump (after_init t w))) as H.
  destruct (settle _ _ _) as [w2 [e | res]]; cbn [fst snd] in *; auto.
  destruct H as [_ L]. cbn [List.length] in L.
  now rewrite in_array_order_length, L, settling_length.
Qed.

(** C5.  Take any record of a batch at the moment its INSERT is sent, the
    promises before it fulfilled.  If its row hits the key named by ON
    CONFLICT, this is no error: the promise is fulfilled with [rowCount] 0,
    no table has changed, the trace shows the INSERT answered without
    error, and the batch goes on, so that the loader returns or throws as
    the promises behind this one make it.  If the server answers the INSERT
    with an error, this was no such conflict, and the whole batch fails:
    the loader logs and throws this error, leaving the promises behind it
    in flight. *)
Theorem conflict_skips_error_throws fx t w x w1 rest s :
  reaches fx t w x w1 rest -> task_insert x w1 = Some s ->
  let run := seed fx t w in
  let next := fst (run_task x w1) in
  (conflicts s (db w1) ->
     snd (run_task x w1) = inr (Some 0) /\
     (forall t', same_table t' (db w1) (db next)) /\
     trace next = trace w1 ++ [EvSql t s (inr (Some 0))] /\
     ((exists res, snd (settle rest [] next) = inr res) ->
      exists out, snd run = inr out) /\
     (forall e, snd (settle rest [] next) = inl e -> snd run = inl e)) /\
  (forall err, snd (exec s (db w1)) = inl err ->
     ~ conflicts s (db w1) /\
     snd run = inl (DbErr err) /\
     inflight (fst run) = inflight w ++ rest /\
     trace (fst run) =
       trace w1 ++ [EvSql t s (inl err);
                    EvConsole (ErrorSeeding t (DbErr err))]).
Proof.
  intros (done & res & Hs & Hd) Hins run next.
  assert (Tx : task_table x = t).
  { pose proof (settling_Forall (ticks w) (phase_tasks_table fx t)) as F.
    rewrite Hs in F. apply Forall_app in F. destruct F as [_ F].
    now inversion F. }
  destruct (run_task_insert x w1 Hins) as (Rx & Dx & Trx & Ix).
  fold next in Dx, Trx, Ix. rewrite Tx in Trx.
  assert (Hrun : settle (settling (ticks w) (phase_tasks fx t)) []
                   (bump (after_init t w))
                 = settle (x :: rest) (rev res) w1).
  { rewrite Hs. now apply settle_app. }
  assert (Out : snd run =
                match snd (settle (x :: rest) (rev res) w1) with
                | inr r => inr (None, in_array_order
                                  (schedule (ticks w) (phase_tasks fx t)) r)
                | inl e => inl e
                end).
  { unfold run. rewrite seed_loader, loader_outcome. now rewrite Hrun. }
  assert (Wo : fst run =
               let w2 := fst (settle (x :: rest) (rev res) w1) in
               match snd (settle (x :: rest) (rev res) w1) with
               | inr r =>
                   fst (emit (EvConsole
                     (Seeded (List.length (phase_tasks fx t)) t)) w2)
               | inl e => fst (emit (EvConsole (ErrorSeeding t e)) w2)
               end).
  { unfold run. rewrite seed_loader, loader_world. now rewrite Hrun. }
  split.
  - intros C. destruct (@conflict_skipped s (db w1) C) as [E F].
    rewrite E in Rx, Trx. simpl in Rx.
    split; [exact Rx |]. split; [now rewrite Dx |]. split; [exact Trx |].
    assert (St : settle (x :: rest) (rev res) w1 =
                 settle rest (Some 0 :: rev res) next).
    { simpl. unfold next. destruct (run_task x w1) as [w2 [e | q]];
        simpl in *; [discriminate | now inversion Rx]. }
    rewrite St in Out.
    destruct (settle_acc rest (Some 0 :: rev res) [] next) as [_ A].
    split.
    + intros [r Hr]. rewrite Hr in A. rewrite Out.
      destruct (snd (settle rest (Some 0 :: rev res) next)); [tauto | eauto].
    + intros e He. rewrite He in A. rewrite Out.
      destruct (snd (settle rest (Some 0 :: rev res) next));
        [now subst | tauto].
  - intros err E. rewrite E in Rx, Trx. simpl in Rx.
    split.
    { intros C. destruct (@conflict_skipped s (db w1) C) as [E' _]. congruence. }
    assert (St : settle (x :: rest) (rev res) w1 =
                 (mkWorld (db next) (salts next) (ticks next)
                    (inflight next ++ rest) (trace next),
                  inl (DbErr err))).
    { simpl. unfold next. destruct (run_task x w1) as [w2 [e | q]];
        simpl in *; [now inversion Rx | discriminate]. }
    rewrite St in Out, Wo. cbn [fst snd] in Out, Wo.
    split; [exact Out |]. rewrite Wo. cbn [emit fst trace inflight].
    rewrite Ix, Trx, <- app_assoc. split; [| reflexivity].
    f_equal.
    pose proof (settle_inflight done [] (bump (after_init t w))) as Hi.
    rewrite Hd in Hi. cbn [fst snd] in Hi. destruct Hi as [Hi _].
    exact Hi.
Qed.

(** ** Passwords *)

Lemma hashed_from_weaken us lo hi lo' hi' r :
  lo' <= lo -> hi <= hi' -> hashed_from us lo hi r -> hashed_from us lo' hi' r.
Proof.
  intros L H (u & p & salt & Hu & Hp & Hs & Hr).
  exists u, p, salt. repeat split; auto; lia.
Qed.

Lemma has_user_id_app k l more :
  has_user_id k (l ++ more) = false -> has_user_id k l = false.
Proof.
  unfold has_user_id. rewrite existsb_app. now intros [-> _]%orb_false_iff.
Qed.

(** A user promise stores nothing, or one row, built from the hash of the
    password of its record under the salt it drew. *)
Lemma run_user_hashed us u w :
  In u us ->
  salts w <= salts (fst (run_task (UserTask u) w)) /\
  exists new,
    rows_of (users_t (db (fst (run_task (UserTask u) w)))) =
      rows_of (users_t (db w)) ++ new /\
    Forall (hashed_from us (salts w) (salts (fst (run_task (UserTask u) w))))
           new /\
    Forall (fun r => has_user_id (u_id r) (rows_of (users_t (db w))) = false)
           new.
Proof.
  intros Hu. simpl. unfold bind, bcrypt_hash_async.
  destruct (user_password u) as [p |] eqn:Ep.
  2:{ simpl. split; auto. exists []. now rewrite app_nil_r. }
  rewrite sql_eq. simpl. split; [lia |].
  destruct (users_t (db w)) as [rows |] eqn:T;
    [| exists []; simpl; rewrite T; auto].
  destruct (user_row _ _ _ _) as [e | r] eqn:R;
    [exists []; simpl; rewrite T, app_nil_r; auto |].
  destruct (has_user_id _ _) eqn:K;
    [exists []; simpl; rewrite T, app_nil_r; auto |].
  destruct (has_user_email _ _);
    [exists []; simpl; rewrite T, app_nil_r; auto |].
  exists [r]. simpl. repeat split; auto.
  constructor; auto. exists u, p, (salts w). repeat split; auto.
Qed.

Lemma settle_users_hashed us ts : forall acc w,
  Forall (fun x => exists u, x = UserTask u /\ In u us) ts ->
  salts w <= salts (fst (settle ts acc w)) /\
  exists new,
    rows_of (users_t (db (fst (settle ts acc w)))) =
      rows_of (users_t (db w)) ++ new /\
    Forall (hashed_from us (salts w) (salts (fst (settle ts acc w)))) new /\
    Forall (fun r => has_user_id (u_id r) (rows_of (users_t (db w))) = false)
           new.
Proof.
  induction ts as [| x ts IH]; intros acc w F; simpl.
  - split; auto. exists []. now rewrite app_nil_r.
  - inversion F as [| ? ? (u & -> & Hu) Fr]; subst.
    destruct (@run_user_hashed us u w Hu) as (S1 & n1 & E1 & H1 & K1).
    destruct (run_task (UserTask u) w) as [w1 [e | q]]; cbn [fst snd] in *.
    + split; [exact S1 |]. exists n1. auto.
    + destruct (IH (q :: acc) w1 Fr) as (S2 & n2 & E2 & H2 & K2).
      split; [lia |]. exists (n1 ++ n2).
      rewrite E2, E1, app_assoc. split; auto. split.
      * apply Forall_app. split.
        -- eapply Forall_impl; [| exact H1]. intros r.
           apply hashed_from_weaken; lia.
        -- eapply Forall_impl; [| exact H2]. intros r.
           apply hashed_from_weaken; lia.
      * apply Forall_app. split; auto.
        eapply Forall_impl; [| exact K2]. intros r. rewrite E1.
        apply has_user_id_app.
Qed.

Lemma user_tasks_of us :
  Forall (fun x => exists u, x = UserTask u /\ In u us) (map UserTask us).
Proof.
  apply Forall_forall. intros x Hx. apply in_map_iff in Hx.
  destruct Hx as (u & <- & Hu). eauto.
Qed.

Lemma user_row_of_id u r1 r2 :
  user_row_of u r1 -> user_row_of u r2 -> u_id r1 = u_id r2.
Proof.
  intros [h1 H1] [h2 H2].
  rewrite (user_row_password _ _ _ _ H1 h2) in H2. now inversion H2.
Qed.

(** C6, as amended.  Whatever a run of [seedUsers] stores in the users
    table it appends, and every row it appends is the row of a record of
    its array whose password column holds what [bcrypt.hash] made of the
    password of that record at cost 10, under a salt drawn during the run.
    No such row takes an id the table held already; when the run returns,
    every record whose id the table did not hold has a row under its id
    among them.  The rows the table held, and so the passwords stored for
    the records that are skipped, are left as they were.  For a bcrypt whose
    hash of a string is not that string and whose check accepts its own
    hashes, the password column of every row appended differs from the
    plaintext of its record and verifies against it. *)
Theorem stored_password_is_hash us w :
  let run := seedUsers us w in
  exists new,
    rows_of (users_t (db (fst run))) = rows_of (users_t (db w)) ++ new /\
    Forall (hashed_from us (salts w) (salts (fst run))) new /\
    Forall (fun r => ~ In (u_id r) (user_ids (db w))) new /\
    (forall x u r,
       snd run = inr x -> In u us -> user_row_of u r ->
       ~ In (u_id r) (user_ids (db w)) -> In (u_id r) (map u_id new)) /\
    ((forall p salt, bcrypt_hash p 10 salt <> p) ->
     (forall p salt, bcrypt_compare p (bcrypt_hash p 10 salt) = true) ->
     Forall (fun r => exists u p,
               In u us /\ user_password u = Some p /\ user_row_of u r /\
               u_password r <> p /\ bcrypt_compare p (u_password r) = true)
            new).
Proof.
  intros run.
  assert (W : fst run =
              fst (loader Users (map UserTask us) w))
    by (unfold run; now rewrite seedUsers_loader).
  assert (O : snd run = snd (loader Users (map UserTask us) w))
    by (unfold run; now rewrite seedUsers_loader).
  set (start := bump (after_init Users w)).
  set (l := settling (ticks w) (map UserTask us)).
  assert (Fl : Forall (fun x => exists u, x = UserTask u /\ In u us) l)
    by apply settling_Forall, user_tasks_of.
  destruct (@settle_users_hashed us l [] start Fl) as (S1 & new & E & H & K).
  assert (D : db (fst run) = db (fst (settle l [] start)) /\
              salts (fst run) = salts (fst (settle l [] start))).
  { rewrite W, loader_world. fold l start.
    destruct (snd (settle l [] start)); auto. }
  destruct D as [D Sa].
  assert (R0 : rows_of (users_t (db start)) = rows_of (users_t (db w)))
    by apply (init_db_rows Users (db w)).
  exists new. rewrite D, Sa, E, R0.
  split; [reflexivity |]. split; [exact H |]. split.
  { eapply Forall_impl; [| exact K]. intros r Hr Hin.
    rewrite R0 in Hr. unfold user_ids in Hin.
    apply (existsb_key u_id uuid_eqb (u_id r) _ uuid_eqb_eq) in Hin.
    unfold has_user_id in Hr. congruence. }
  split.
  { intros x u r Hx Hu Hr Hn. rewrite O in Hx.
    destruct (@loader_seeds Users (map UserTask us) w x
                (phase_tasks_table (mkFixture us [] [] []) Users) Hx)
      as [F _].
    rewrite Forall_forall in F.
    destruct (F (UserTask u) (in_map UserTask _ _ Hu))
      as (p & r1 & rows & _ & Hr1 & T & Kr).
    rewrite <- W, D in T.
    assert (Er : rows = rows_of (users_t (db w)) ++ new).
    { rewrite <- R0, <- E, T. reflexivity. }
    assert (Hid : u_id r1 = u_id r).
    { apply (user_row_of_id (u := u)); [now exists p | exact Hr]. }
    rewrite Hid in Kr.
    apply (existsb_key u_id uuid_eqb (u_id r) rows uuid_eqb_eq) in Kr.
    rewrite Er, map_app in Kr. apply in_app_or in Kr.
    destruct Kr as [Kr | Kr]; [contradiction | exact Kr]. }
  intros Hn Hc. eapply Forall_impl; [| exact H].
  intros r (u & p & salt & Hu & Hp & _ & Hr).
  pose proof (user_row_hash _ _ _ _ Hr) as Hh.
  exists u, p. rewrite Hh. repeat split; auto.
  now exists (bcrypt_hash p 10 salt).
Qed.

(** ** No referential integrity *)

(** C8.  An invoice record that passes the column checks is inserted by
    [seedInvoices] although no row of the customers table carries its
    customer_id: the row is appended with that customer_id, and the
    customers table is left as it was, still without a matching row. *)
Theorem orphan_invoice_inserted i w r0 :
  db_wf (db w) ->
  invoice_row (Gen 0) (invoice_customer_id i) (invoice_amount i)
    (invoice_status i) (invoice_date i) = inr r0 ->
  has_customer_id (i_customer_id r0) (rows_of (customers_t (db w))) = false ->
  let run := seedInvoices [i] w in
  exists r,
    snd run = inr (None, [Some 1]) /\
    invoices_t (db (fst run)) = Some (rows_of (invoices_t (db w)) ++ [r]) /\
    i_customer_id r = i_customer_id r0 /\
    customers_t (db (fst run)) = customers_t (db w) /\
    has_customer_id (i_customer_id r) (rows_of (customers_t (db (fst run))))
      = false.
Proof.
  intros W R0 Orphan run. unfold run.
  rewrite seedInvoices_loader. unfold loader. rewrite promise_all_eq.
  simpl map. rewrite settling_one, schedule_one.
  set (w1 := bump (after_init Invoices w)).
  destruct (init_invoices (db w)) as [T N].
  assert (W1 : db_wf (db w1)) by (simpl; now apply init_db_wf).
  assert (C1 : customers_t (db w1) = customers_t (db w)).
  { symmetry. apply (@init_db_frame Customers Invoices (db w)).
    discriminate. }
  pose proof (fresh_not_in W1) as Hf.
  change (invoices_t (db w1)) with (invoices_t (init_db Invoices (db w)))
    in Hf.
  rewrite T in Hf. simpl in Hf.
  pose proof (invoice_row_fresh _ _ _ _ _ R0 (Gen (next_uuid (db w1)))) as R1.
  simpl settle. rewrite sql_eq.
  change (db w1) with (init_db Invoices (db w)) in *.
  cbn [exec fst snd lift_res]. rewrite T, R1.
  cbn [i_id]. rewrite Hf. unfold in_array_order. cbn.
  eexists. repeat split.
  - now rewrite C1.
  - now rewrite C1.
Qed.

(** ** Schema initialisation *)

(** Every run of a loader starts with its DDL, and each statement of it
    settles without error. *)
Lemma seed_starts_with_ddl fx t w :
  exists evs,
    trace (fst (seed fx t w)) =
    trace w ++ map (fun s => EvSql t s (inr None)) (schema_stmts t) ++ evs.
Proof.
  rewrite seed_loader. unfold loader.
  pose proof (promise_all_evolves (after_init t w) (phase_tasks_table fx t))
    as [_ _ (e2 & T & _)].
  destruct (promise_all (phase_tasks fx t) (after_init t w))
    as [w2 [e | res]]; simpl in *; rewrite T, schema_stmts_events;
    rewrite <- !app_assoc; eexists; reflexivity.
Qed.

(** C9.  The DDL of a loader (CREATE EXTENSION IF NOT EXISTS where the
    table needs it, then CREATE TABLE IF NOT EXISTS) succeeds, and executed
    again on any later state of the database it succeeds and returns that
    state unchanged: neither the extension, nor the existence of a table,
    nor a row is touched.  Every run of the loader starts with these
    statements, and they settle without error. *)
Theorem schema_init_idempotent fx t w d d2 :
  db_le (fst (exec_all (schema_stmts t) d)) d2 ->
  snd (exec_all (schema_stmts t) d) = inr None /\
  exec_all (schema_stmts t) d2 = (d2, inr None) /\
  exists evs,
    trace (fst (seed fx t w)) =
    trace w ++ map (fun s => EvSql t s (inr None)) (schema_stmts t) ++ evs.
Proof.
  rewrite !schema_stmts_init. simpl. intros L. split; auto. split.
  - f_equal. apply init_db_same.
    eapply initialised_le; [apply init_db_initialised | exact L].
  - apply seed_starts_with_ddl.
Qed.

(** ** The revenue scenario *)

(** A run that succeeds is the four loaders one after the other. *)
Lemma script_chain fx d s k :
  snd (script fx (boot d s k)) = inr tt ->
  let w0 := fst (db_connect (boot d s k)) in
  let w1 := fst (seed fx Users w0) in
  let w2 := fst (seed fx Customers w1) in
  let w3 := fst (seed fx Invoices w2) in
  let w4 := fst (seed fx Revenue w3) in
  (exists x, snd (seed fx Revenue w3) = inr x) /\
  revenue_t (db w3) = revenue_t d /\
  db (fst (script fx (boot d s k))) = db w4.
Proof.
  rewrite script_phases. cbv zeta.
  set (w0 := fst (db_connect (boot d s k))).
  destruct (run_phases fx seed_order w0) as [w' [e | []]] eqn:R;
    cbn [fst snd]; [discriminate |]. intros _.
  assert (R' : snd (run_phases fx seed_order w0) = inr tt) by now rewrite R.
  unfold seed_order in *.
  destruct (run_phases_inv _ _ _ _ R') as (x1 & H1 & R1).
  rewrite (run_phases_step _ _ _ _ H1) in R.
  destruct (run_phases_inv _ _ _ _ R1) as (x2 & H2 & R2).
  rewrite (run_phases_step _ _ _ _ H2) in R.
  destruct (run_phases_inv _ _ _ _ R2) as (x3 & H3 & R3).
  rewrite (run_phases_step _ _ _ _ H3) in R.
  destruct (run_phases_inv _ _ _ _ R3) as (x4 & H4 & _).
  rewrite (run_phases_step _ _ _ _ H4) in R.
  clear R' R1 R2 R3.
  set (w1 := fst (seed fx Users w0)) in *.
  set (w2 := fst (seed fx Customers w1)) in *.
  set (w3 := fst (seed fx Invoices w2)) in *.
  set (w4 := fst (seed fx Revenue w3)) in *.
  assert (w' = w4) by (now inversion R). subst w'. clear R.
  destruct (seed_step fx Users w0) as (_ & _ & F1 & I1).
  destruct (seed_step fx Customers w1) as (_ & _ & F2 & I2).
  destruct (seed_step fx Invoices w2) as (_ & _ & F3 & I3).
  destruct (seed_step fx Revenue w3) as (_ & _ & _ & I4).
  fold w1 in F1, I1. fold w2 in F2, I2. fold w3 in F3, I3. fold w4 in I4.
  assert (Hi : inflight w4 = []).
  { rewrite (I4 _ H4), (I3 _ H3), (I2 _ H2), (I1 _ H1). reflexivity. }
  rewrite client_end_idle by exact Hi.
  specialize (F1 Revenue ltac:(discriminate)).
  specialize (F2 Revenue ltac:(discriminate)).
  specialize (F3 Revenue ltac:(discriminate)).
  simpl in F1, F2, F3.
  split; [eauto |]. split; [| reflexivity].
  now rewrite <- F3, <- F2, <- F1.
Qed.

(** On a database without a revenue table, the revenue loader over the one
    record creates the table and inserts the record. *)
Lemma seedRevenue_jan w :
  revenue_t (db w) = None ->
  revenue_t (db (fst (seedRevenue [mkRev (Some "Jan") (Some 100%Z)] w))) =
    Some [mkRevenueRow "Jan" 100].
Proof.
  intros T. rewrite seedRevenue_loader. unfold loader.
  rewrite promise_all_eq. simpl map. rewrite settling_one, schedule_one.
  assert (T1 : revenue_t (init_db Revenue (db w)) = Some []).
  { unfold init_db. simpl. now rewrite T. }
  simpl settle. rewrite sql_eq.
  change (db (bump (after_init Revenue w))) with (init_db Revenue (db w)).
  cbn [exec fst snd lift_res]. rewrite T1. reflexivity.
Qed.

Lemma jan_first_run s k :
  snd (script jan_only (boot empty_db s k)) = inr tt.
Proof.
  unfold script, main, bind, seedUsers, seedCustomers, seedInvoices,
    seedRevenue, try_catch, bind, promise_all. simpl.
  repeat (rewrite ?settling_nil, ?schedule_nil, ?settling_one, ?schedule_one;
          simpl).
  auto.
Qed.

(** C10.  With (Jan, 100) as the single revenue record of the fixture, two
    runs from the empty database leave exactly one row in the revenue
    table: the first run inserts it, the second hits ON CONFLICT (month)
    and skips it.  This holds whenever the first run succeeds, whatever the
    other three arrays hold, and the first run does succeed when they are
    empty. *)
Theorem revenue_jan_once us cs ivs s k s' k' :
  let fx := mkFixture us cs ivs [mkRev (Some "Jan") (Some 100%Z)] in
  let once := script fx (boot empty_db s k) in
  let twice := script fx (boot (db (fst once)) s' k') in
  (us = [] /\ cs = [] /\ ivs = [] -> snd once = inr tt) /\
  (snd once = inr tt ->
   snd twice = inr tt /\
   revenue_t (db (fst once)) = Some [mkRevenueRow "Jan" 100] /\
   revenue_t (db (fst twice)) = Some [mkRevenueRow "Jan" 100] /\
   row_count Revenue (db (fst twice)) = 1).
Proof.
  intros fx once twice. split.
  - intros (-> & -> & ->). apply jan_first_run.
  - intros H1.
    destruct (script_chain fx empty_db s k H1) as (_ & T3 & D4).
    fold once in D4. simpl revenue_t in T3.
    assert (T1 : revenue_t (db (fst once)) = Some [mkRevenueRow "Jan" 100]).
    { rewrite D4. apply (seedRevenue_jan _ T3). }
    pose proof (script_seeds fx empty_db s k H1) as S. fold once in S.
    destruct (script_run fx empty_db s k) as (_ & _ & _ & _ & W).
    specialize (W empty_db_wf). fold once in W.
    destruct (script_rerun s' k' S W) as (H2 & _ & _ & ER).
    fold twice in H2, ER.
    unfold row_count. rewrite ER, T1. auto.
Qed.


(** * Further properties of the script *)

(** ** Nothing is dropped *)

(** X1.  Whatever the outcome of a run, the database it leaves extends the
    one it found: the extension is still there, every table that existed
    exists with its former rows, unchanged and in front of the new ones.
    The script updates and deletes nothing. *)
Theorem script_append_only fx d s k :
  db_le d (db (fst (script fx (boot d s k)))).
Proof.
  destruct (script_run fx d s k) as (_ & _ & _ & L & _). exact L.
Qed.

(** ** Keys stay unique *)

Lemma nodup_snoc {A} (l : list A) x :
  NoDup l -> ~ In x l -> NoDup (l ++ [x]).
Proof.
  intros N H. eapply Permutation_NoDup.
  - apply Permutation_cons_append.
  - now constructor.
Qed.

Lemma nodup_key {A K} (key : A -> K) (eqb : K -> K -> bool) l r :
  (forall a b, eqb a b = true <-> a = b) ->
  NoDup (map key l) ->
  existsb (fun x => eqb (key x) (key r)) l = false ->
  NoDup (map key (l ++ [r])).
Proof.
  intros Heq N H. rewrite map_app. simpl. apply nodup_snoc; auto.
  intros Hin. apply (existsb_key key eqb (key r) l Heq) in Hin. congruence.
Qed.

Lemma string_eqb_iff a b : String.eqb a b = true <-> a = b.
Proof. apply String.eqb_eq. Qed.

Lemma exec_unique s d :
  db_unique d -> db_wf d -> db_unique (fst (exec s d)).
Proof.
  intros G W. destruct s; simpl.
  - exact G.
  - destruct (table_exists t d); [exact G |].
    destruct (needs_uuid_default t && negb (uuid_ossp d)); [exact G |].
    destruct G as (NU & NE & NC & NI & NR).
    destruct t; simpl; repeat split; auto; constructor.
  - destruct (users_t d) as [rows |] eqn:T; [| exact G].
    destruct (user_row _ _ _ _) as [e | r]; [exact G |].
    destruct (has_user_id _ _) eqn:K1; [exact G |].
    destruct (has_user_email _ _) eqn:K2; [exact G |].
    destruct G as (NU & NE & NC & NI & NR). rewrite T in NU, NE.
    simpl in NU, NE. repeat split; auto; simpl.
    + apply (nodup_key u_id uuid_eqb rows r uuid_eqb_eq NU K1).
    + apply (nodup_key u_email String.eqb rows r string_eqb_iff NE K2).
  - destruct (customers_t d) as [rows |] eqn:T; [| exact G].
    destruct (customer_row _ _ _ _) as [e | r]; [exact G |].
    destruct (has_customer_id _ _) eqn:K1; [exact G |].
    destruct G as (NU & NE & NC & NI & NR). rewrite T in NC.
    simpl in NC. repeat split; auto; simpl.
    apply (nodup_key c_id uuid_eqb rows r uuid_eqb_eq NC K1).
  - destruct (invoices_t d) as [rows |] eqn:T; [| exact G].
    destruct (invoice_row _ _ _ _ _) as [e | r]; [exact G |].
    destruct (has_invoice_id _ _) eqn:K1; [exact G |].
    destruct G as (NU & NE & NC & NI & NR). rewrite T in NI.
    simpl in NI. repeat split; auto; simpl.
    apply (nodup_key i_id uuid_eqb rows r uuid_eqb_eq NI K1).
  - destruct (revenue_t d) as [rows |] eqn:T; [| exact G].
    destruct (revenue_row _ _) as [e | r]; [exact G |].
    destruct (has_month _ _) eqn:K1; [exact G |].
    destruct G as (NU & NE & NC & NI & NR). rewrite T in NR.
    simpl in NR. repeat split; auto; simpl.
    apply (nodup_key r_month String.eqb rows r string_eqb_iff NR K1).
Qed.

Lemma init_db_unique t d : db_unique d -> db_unique (init_db t d).
Proof.
  unfold db_unique. destruct (init_db_rows t d) as (-> & -> & -> & ->). auto.
Qed.

(** X2.  The uniqueness the tables declare is an invariant of the script:
    from a database in which no two rows share a unique key, and in which
    the invoice ids were drawn by the generator, every run, returning or
    throwing, leads to such a database. *)
Theorem script_keeps_keys_unique fx d s k :
  db_unique d -> db_wf d ->
  db_unique (db (fst (script fx (boot d s k)))) /\
  db_wf (db (fst (script fx (boot d s k)))).
Proof.
  intros U W.
  apply (@script_rel (fun a b => db_unique a /\ db_wf a ->
                                 db_unique b /\ db_wf b)); auto.
  - intros x w _ [U1 W1].
    destruct (run_task_run x w) as [_ | h s' _]; auto. simpl.
    split; [now apply exec_unique | now apply exec_wf].
  - intros t d0 [U1 W1].
    split; [now apply init_db_unique | now apply init_db_wf].
Qed.

(** ** Running again *)

(** X3.  On a database on which a run has succeeded, a further run succeeds
    and leaves the users, customers and revenue tables as they are, row for
    row: no key is inserted twice, no stored row or hash is replaced.  Only
    invoices gains rows, one per fixture record. *)
Theorem rerun_keeps_keyed_tables fx d s k s' k' :
  db_wf d ->
  let once := script fx (boot d s k) in
  let twice := script fx (boot (db (fst once)) s' k') in
  snd once = inr tt ->
  snd twice = inr tt /\
  users_t (db (fst twice)) = users_t (db (fst once)) /\
  customers_t (db (fst twice)) = customers_t (db (fst once)) /\
  revenue_t (db (fst twice)) = revenue_t (db (fst once)) /\
  exists new,
    invoices_t (db (fst twice)) =
      Some (rows_of (invoices_t (db (fst once))) ++ new) /\
    List.length new = List.length (invoices fx).
Proof.
  intros W once twice H1.
  pose proof (script_seeds fx d s k H1) as S. fold once in S.
  destruct (script_run fx d s k) as (_ & _ & _ & _ & W1).
  specialize (W1 W). fold once in W1.
  destruct (script_rerun s' k' S W1) as (H2 & EU & EC & ER).
  fold twice in H2, EU, EC, ER.
  repeat (split; [assumption |]).
  apply (script_invoices fx s' k' W1 H2).
Qed.

(** ** What a loader that returns has achieved *)

(** X4.  When a loader returns, its table exists (and the extension, where
    the table needs it), every record of its batch has passed the column
    checks, every user record had a password, and for every record whose
    statement supplies the key a row with that key is in the table.  So a
    record that fails a check, or a user without password, makes the loader
    throw under every settling order. *)
Theorem seed_postcondition fx t w x :
  snd (seed fx t w) = inr x ->
  initialised t (db (fst (seed fx t w))) /\
  Forall (fun y => seeded_task y (db (fst (seed fx t w))))
         (phase_tasks fx t).
Proof.
  rewrite seed_loader. intros H.
  destruct (@loader_seeds t (phase_tasks fx t) w x
              (phase_tasks_table fx t) H) as [F I].
  split; assumption.
Qed.


(** ** Counting rows *)

Lemma lift_res_inr {A} (r : Res A) (a : A) : lift_res r = inr a -> r = inr a.
Proof. destruct r; simpl; [discriminate | now intros [= ->]]. Qed.

Lemma exec_count s d t q :
  stmt_table s = Some t -> is_insert s = true ->
  snd (exec s d) = inr q ->
  row_count t (fst (exec s d)) = row_count t d + rows_reported q /\
  (q = Some 0 \/ q = Some 1).
Proof.
  intros Ht Hi. destruct s; try discriminate; simpl in Ht;
    inversion Ht; subst t; clear Ht; simpl.
  - destruct (users_t d) as [rows |] eqn:T; [| discriminate].
    destruct (user_row _ _ _ _); [discriminate |].
    destruct (has_user_id _ _); simpl.
    + intros [= <-]. rewrite T. simpl. split; [lia | auto].
    + destruct (has_user_email _ _); [discriminate |]. simpl.
      intros [= <-]. rewrite length_app. simpl. split; [lia | auto].
  - destruct (customers_t d) as [rows |] eqn:T; [| discriminate].
    destruct (customer_row _ _ _ _); [discriminate |].
    destruct (has_customer_id _ _); simpl; intros [= <-].
    + rewrite T. simpl. split; [lia | auto].
    + rewrite length_app. simpl. split; [lia | auto].
  - destruct (invoices_t d) as [rows |] eqn:T; [| discriminate].
    destruct (invoice_row _ _ _ _ _); [discriminate |].
    destruct (has_invoice_id _ _); simpl; intros [= <-].
    + rewrite T. simpl. split; [lia | auto].
    + rewrite length_app. simpl. split; [lia | auto].
  - destruct (revenue_t d) as [rows |] eqn:T; [| discriminate].
    destruct (revenue_row _ _); [discriminate |].
    destruct (has_month _ _); simpl; intros [= <-].
    + rewrite T. simpl. split; [lia | auto].
    + rewrite length_app. simpl. split; [lia | auto].
Qed.

Lemma run_task_count x w q :
  snd (run_task x w) = inr q ->
  row_count (task_table x) (db (fst (run_task x w))) =
    row_count (task_table x) (db w) + rows_reported q /\
  (q = Some 0 \/ q = Some 1).
Proof.
  destruct (run_task_run x w) as [_ | h s' _]; [discriminate |].
  simpl. intros H. apply lift_res_inr in H.
  apply exec_count; auto using task_stmt_table, task_stmt_insert.
Qed.

(** The rows a list of results reports. *)
Lemma reported_rev l :
  list_sum (map rows_reported (rev l)) = list_sum (map rows_reported l).
Proof.
  induction l as [| a l IH]; simpl; auto.
  rewrite map_app, list_sum_app. simpl. lia.
Qed.

Lemma reported_perm l l' :
  Permutation l l' ->
  list_sum (map rows_reported l) = list_sum (map rows_reported l').
Proof.
  induction 1; simpl; lia.
Qed.

Lemma settle_count t ts : forall acc w res,
  Forall (fun x => task_table x = t) ts ->
  snd (settle ts acc w) = inr res ->
  row_count t (db (fst (settle ts acc w))) +
    list_sum (map rows_reported acc) =
    row_count t (db w) + list_sum (map rows_reported res) /\
  (Forall (fun q => q = Some 0 \/ q = Some 1) acc ->
   Forall (fun q => q = Some 0 \/ q = Some 1) res).
Proof.
  induction ts as [| x rest IH]; intros acc w res F; simpl.
  - intros [= <-]. rewrite reported_rev. split; auto.
    intros Fa. apply Forall_rev. exact Fa.
  - inversion F as [| ? ? Hx Fr]; subst.
    pose proof (run_task_count x w) as C.
    destruct (run_task x w) as [w1 [e | q]]; simpl in *; [discriminate |].
    intros H. destruct (C q eq_refl) as [C1 C2].
    destruct (IH (q :: acc) w1 res Fr H) as [S1 S2].
    simpl in S1. split; [lia |].
    intros Fa. apply S2. constructor; auto.
Qed.

Lemma init_db_count t t' d : row_count t' (init_db t d) = row_count t' d.
Proof.
  destruct (init_db_rows t d) as (U & C & I & R).
  destruct t'; simpl; congruence.
Qed.

(** X5.  The number a loader logs as seeded is the number of records in
    its batch, not of rows inserted.  Each insert reports 0 or 1 row, and
    the table has gained exactly the sum of these reports: rows that were
    skipped are counted as seeded although nothing was stored for them. *)
Theorem seed_row_accounting fx t w ct res :
  snd (seed fx t w) = inr (ct, res) ->
  List.length res = List.length (phase_tasks fx t) /\
  Forall (fun q => q = Some 0 \/ q = Some 1) res /\
  row_count t (db (fst (seed fx t w))) =
    row_count t (db w) + list_sum (map rows_reported res) /\
  exists evs,
    trace (fst (seed fx t w)) =
    evs ++ [EvConsole (Seeded (List.length (phase_tasks fx t)) t)].
Proof.
  intros H. pose proof (seed_settled fx t w) as S. rewrite H in S.
  destruct S as (_ & L & E). split; [exact L |].
  rewrite seed_loader in *. unfold loader in *. rewrite promise_all_eq in *.
  set (w1 := bump (after_init t w)) in *.
  set (l := settling (ticks (after_init t w)) (phase_tasks fx t)) in *.
  assert (Fl : Forall (fun y => task_table y = t) l)
    by apply settling_Forall, phase_tasks_table.
  pose proof (@settle_count t l [] w1) as C.
  pose proof (settle_inflight l [] w1) as Hl.
  destruct (settle l [] w1) as [w2 [e | res']]; simpl in *;
    [discriminate |].
  inversion H; subst ct res. clear H.
  destruct (C res' Fl eq_refl) as [C1 C2].
  destruct Hl as [_ Hl]. unfold l in Hl. rewrite settling_length in Hl.
  pose proof (@schedule_results (ticks w) (phase_tasks fx t) res' Hl) as Pm.
  split.
  { eapply Permutation_Forall; [apply Permutation_sym, Pm |].
    apply C2. constructor. }
  split; [| exact E].
  rewrite (reported_perm Pm).
  rewrite init_db_count in C1. simpl in C1. lia.
Qed.

(** ** Where the rows come from *)

Lemma grows_refl {A} (Q : A -> Prop) o : grows Q o o.
Proof. exists []. now rewrite app_nil_r. Qed.

Lemma grows_trans {A} (Q : A -> Prop) a b c :
  grows Q a b -> grows Q b c -> grows Q a c.
Proof.
  intros (n1 & E1 & F1) (n2 & E2 & F2). exists (n1 ++ n2).
  rewrite E2, E1, app_assoc. split; auto. apply Forall_app; auto.
Qed.

Lemma grows_same {A} (Q : A -> Prop) (o o' : option (list A)) :
  rows_of o' = rows_of o -> grows Q o o'.
Proof. intros E. exists []. now rewrite app_nil_r. Qed.

Lemma rows_from_fixture_refl fx d : rows_from_fixture fx d d.
Proof. repeat split; apply grows_refl. Qed.

Lemma rows_from_fixture_trans fx a b c :
  rows_from_fixture fx a b -> rows_from_fixture fx b c ->
  rows_from_fixture fx a c.
Proof.
  intros (C1 & I1 & R1) (C2 & I2 & R2).
  repeat split; eapply grows_trans; eauto.
Qed.

Lemma rows_from_fixture_task fx x w :
  of_fixture fx x -> rows_from_fixture fx (db w) (db (fst (run_task x w))).
Proof.
  intros [t Hx].
  assert (Fr : forall t', task_table x <> t' ->
                 same_table t' (db w) (db (fst (run_task x w))))
    by (intros; now apply run_task_frame).
  destruct x as [u | c | i | v].
  - repeat split; apply grows_same; symmetry; f_equal.
    + apply (Fr Customers). discriminate.
    + apply (Fr Invoices). discriminate.
    + apply (Fr Revenue). discriminate.
  - assert (Hc : In c (customers fx)).
    { destruct t; simpl in Hx; apply in_map_iff in Hx;
        destruct Hx as (y & E & Hy); try discriminate.
      now inversion E; subst. }
    split; [| split; apply grows_same; symmetry; f_equal;
              [apply (Fr Invoices) | apply (Fr Revenue)]; discriminate].
    simpl. rewrite sql_eq. simpl.
    destruct (customers_t (db w)) as [rows |] eqn:T;
      [| apply grows_same; simpl; now rewrite T].
    destruct (customer_row _ _ _ _) as [e | r] eqn:R;
      [apply grows_same; simpl; now rewrite T |].
    destruct (has_customer_id _ _);
      [apply grows_same; simpl; now rewrite T |].
    exists [r]. simpl. split; auto. constructor; auto. exists c. auto.
  - assert (Hc : In i (invoices fx)).
    { destruct t; simpl in Hx; apply in_map_iff in Hx;
        destruct Hx as (y & E & Hy); try discriminate.
      now inversion E; subst. }
    split; [apply grows_same; symmetry; f_equal; apply (Fr Customers);
            discriminate |].
    split; [| apply grows_same; symmetry; f_equal; apply (Fr Revenue);
              discriminate].
    simpl. rewrite sql_eq. simpl.
    destruct (invoices_t (db w)) as [rows |] eqn:T;
      [| apply grows_same; simpl; now rewrite T].
    destruct (invoice_row _ _ _ _ _) as [e | r] eqn:R;
      [apply grows_same; simpl; now rewrite T |].
    destruct (has_invoice_id _ _);
      [apply grows_same; simpl; now rewrite T |].
    exists [r]. simpl. split; auto. constructor; auto.
    exists i, (next_uuid (db w)). auto.
  - assert (Hc : In v (revenue fx)).
    { destruct t; simpl in Hx; apply in_map_iff in Hx;
        destruct Hx as (y & E & Hy); try discriminate.
      now inversion E; subst. }
    split; [apply grows_same; symmetry; f_equal; apply (Fr Customers);
            discriminate |].
    split; [apply grows_same; symmetry; f_equal; apply (Fr Invoices);
            discriminate |].
    simpl. rewrite sql_eq. simpl.
    destruct (revenue_t (db w)) as [rows |] eqn:T;
      [| apply grows_same; simpl; now rewrite T].
    destruct (revenue_row _ _) as [e | r] eqn:R;
      [apply grows_same; simpl; now rewrite T |].
    destruct (has_month _ _);
      [apply grows_same; simpl; now rewrite T |].
    exists [r]. simpl. split; auto. constructor; auto. exists v. auto.
Qed.

Lemma rows_from_fixture_init fx t d : rows_from_fixture fx d (init_db t d).
Proof.
  destruct (init_db_rows t d) as (_ & C & I & R).
  repeat split; apply grows_same; assumption.
Qed.

Lemma script_rows_from_fixture_aux fx d s k :
  rows_from_fixture fx d (db (fst (script fx (boot d s k)))).
Proof.
  apply script_rel with (RD := rows_from_fixture fx).
  - apply rows_from_fixture_refl.
  - apply rows_from_fixture_trans.
  - intros x w. apply rows_from_fixture_task.
  - intros t d0. apply rows_from_fixture_init.
Qed.

(** X6.  A run, returning or throwing, adds to the customers, invoices and
    revenue tables only rows of records of the fixture: a customers or
    revenue row is the row of a fixture record as it passes the column
    checks, an invoices row is the row of a fixture invoice under an id the
    server drew. *)
Theorem script_rows_from_fixture fx d s k :
  rows_from_fixture fx d (db (fst (script fx (boot d s k)))).
Proof. apply script_rows_from_fixture_aux. Qed.


(** ** When a loader returns *)

Lemma table_exists_le t d d' :
  table_exists t d = true -> db_le d d' -> table_exists t d' = true.
Proof.
  intros Ex [_ LU LC LI LR _].
  destruct t; simpl in *; eauto using tbl_le_some.
Qed.

Lemma seeded_task_ok x d : seeded_task x d -> task_ok x.
Proof.
  destruct x as [u | c | i | v]; simpl.
  - intros (p & r & rows & Hp & Hr & _). eauto.
  - intros (r & rows & Hr & _). eauto.
  - intros (r & rows & Hr & _). exists r. exact Hr.
  - intros (r & rows & Hr & _). eauto.
Qed.

(** A record that passes the checks of a table without a second unique
    column is taken: inserted, or skipped on its key. *)
Lemma run_task_accepts x w :
  task_ok x -> task_table x <> Users ->
  table_exists (task_table x) (db w) = true -> db_wf (db w) ->
  exists q, snd (run_task x w) = inr q.
Proof.
  destruct x as [u | c | i | v]; simpl; intros Ok N Ex W.
  - congruence.
  - destruct Ok as [r Hr]. rewrite sql_eq. simpl.
    destruct (customers_t (db w)) as [rows |]; [| discriminate].
    rewrite Hr. destruct (has_customer_id _ _); simpl; eauto.
  - destruct Ok as [r Hr]. exists (Some 1).
    apply (@run_invoice_accepts i w W).
    destruct (invoices_t (db w)) as [rows |] eqn:T; [| discriminate].
    exists r, rows. auto.
  - destruct Ok as [r Hr]. rewrite sql_eq. simpl.
    destruct (revenue_t (db w)) as [rows |]; [| discriminate].
    rewrite Hr. destruct (has_month _ _); simpl; eauto.
Qed.

Lemma settle_accepts_all t ts : forall acc w,
  t <> Users ->
  Forall (fun x => task_table x = t) ts -> Forall task_ok ts ->
  table_exists t (db w) = true -> db_wf (db w) ->
  exists res, snd (settle ts acc w) = inr res.
Proof.
  induction ts as [| x rest IH]; intros acc w N F Ok Ex W; simpl; eauto.
  inversion F as [| ? ? Hx Fr]; inversion Ok as [| ? ? Ox Or]; subst.
  destruct (@run_task_accepts x w Ox N Ex W) as [q Hq].
  pose proof (evolves_task x w) as [D W1 _].
  destruct (run_task x w) as [w1 [e | q']]; simpl in *; [discriminate |].
  apply IH; auto. eapply table_exists_le; eauto.
Qed.

Lemma seed_ok_only fx t w x :
  snd (seed fx t w) = inr x -> Forall task_ok (phase_tasks fx t).
Proof.
  rewrite seed_loader. intros H.
  destruct (@loader_seeds t (phase_tasks fx t) w x
              (phase_tasks_table fx t) H) as [F _].
  eapply Forall_impl; [| exact F]. intros a Ha.
  eapply seeded_task_ok; exact Ha.
Qed.

Lemma seed_accepts_all fx t w :
  t <> Users -> db_wf (db w) -> Forall task_ok (phase_tasks fx t) ->
  exists x, snd (seed fx t w) = inr x.
Proof.
  intros N W Ok. rewrite seed_loader. unfold loader.
  rewrite promise_all_eq.
  set (w1 := bump (after_init t w)).
  set (l := settling (ticks (after_init t w)) (phase_tasks fx t)).
  assert (Fl : Forall (fun y => task_table y = t) l)
    by apply settling_Forall, phase_tasks_table.
  assert (Ol : Forall task_ok l) by apply settling_Forall, Ok.
  assert (W1 : db_wf (db w1)) by (simpl; now apply init_db_wf).
  assert (Ex : table_exists t (db w1) = true)
    by apply (init_db_initialised t (db w)).
  destruct (@settle_accepts_all t l [] w1 N Fl Ol Ex W1) as [res R].
  destruct (settle l [] w1) as [w2 [e | res']]; simpl in *;
    [discriminate | eauto].
Qed.

(** X7.  Whether the customers, the invoices or the revenue loader returns
    or throws does not depend on the settling order, nor on the rows the
    table holds: on a well-formed database it returns exactly when every
    record of its batch passes the column checks. *)
Theorem loader_returns_iff_records_ok fx t w :
  t <> Users -> db_wf (db w) ->
  ((exists x, snd (seed fx t w) = inr x) <->
   Forall task_ok (phase_tasks fx t)).
Proof.
  intros N W. split.
  - intros [x Hx]. eapply seed_ok_only; exact Hx.
  - now apply seed_accepts_all.
Qed.

(** ** Users: the second unique column *)







(** ** After a failure *)

Lemma phases_run_failure fx ts w w' r :
  phases_run fx ts w w' r -> table_sorted ts ->
  forall e, r = inl e ->
  exists t rest,
    In t ts /\
    In (EvConsole (ErrorSeeding t e)) (trace w') /\
    inflight w' = inflight w ++ rest /\
    Forall (fun x => task_table x = t) rest /\
    forall t', phase_index t < phase_index t' ->
               same_table t' (db w) (db w').
Proof.
  induction 1 as [w | t l w e0 He | t l w x w' r Hx Hr IH];
    intros St e E.
  - discriminate.
  - inversion E; subst e0. clear E.
    destruct (seed_events fx t w) as (evs & T & _ & I). rewrite He in I.
    pose proof (seed_settled fx t w) as S. rewrite He in S.
    destruct S as [(rest & Hi & Fr & _) _].
    destruct (seed_step fx t w) as (_ & _ & F & _).
    exists t, rest. split; [now left |]. split.
    { unfold events_from in T. rewrite T. apply in_or_app. auto. }
    split; [exact Hi |]. split; [exact Fr |].
    intros t' Lt. apply F. intros ->. lia.
  - inversion St as [| ? ? Sl Fl]; subst.
    destruct (IH Sl e eq_refl) as (t1 & rest & Hin & Ie & Hi & Fr & F).
    destruct (seed_step fx t w) as (_ & _ & F0 & I0).
    exists t1, rest. split; [now right |]. split; [exact Ie |].
    split; [now rewrite Hi, (I0 _ Hx) |]. split; [exact Fr |].
    intros t' Lt. eapply same_table_trans; [| now apply F].
    apply F0. intros ->. rewrite Forall_forall in Fl.
    specialize (Fl t1 Hin). lia.
Qed.

(** X9.  When a run fails in the loader of a table, the tables of the
    loaders after it are exactly as the run found them; in particular a
    table that did not exist has not been created.  This holds also once
    the promises the failed loader left in flight have settled. *)
Theorem failure_leaves_later_tables fx d s k e :
  snd (script fx (boot d s k)) = inl e ->
  exists t,
    In (EvConsole (ErrorSeeding t e))
       (trace (fst (script fx (boot d s k)))) /\
    forall t', phase_index t < phase_index t' ->
               same_table t' d (db (fst (script fx (boot d s k)))).
Proof.
  rewrite script_phases.
  set (w0 := fst (db_connect (boot d s k))).
  pose proof (run_phases_run fx seed_order w0) as R.
  destruct (run_phases fx seed_order w0) as [w' [e' | []]];
    cbn [fst snd] in *; [| discriminate].
  intros [= ->].
  destruct (phases_run_failure R seed_order_sorted eq_refl)
    as (t & rest & _ & Ie & Hi & Fr & F).
  set (w2 := fst (console_error (ErrorOccurred e) w')).
  assert (Fi : Forall (fun x => task_table x = t) (inflight w2))
    by (simpl; now rewrite Hi).
  destruct (drain_evolves w2 Fi) as [[_ _ (late & T & _)] _].
  exists t. split.
  - rewrite T. apply in_or_app. left. simpl. apply in_or_app. auto.
  - intros t' Lt. eapply same_table_trans; [apply (F t' Lt) |].
    change (same_table t' (db w2) (db (drain w2))).
    apply (@drain_rel (same_table t') (same_table_refl t')
             (same_table_trans t') (fun x => task_table x <> t')).
    + intros x w Hx. now apply run_task_frame.
    + eapply Forall_impl; [| exact Fi]. simpl. intros a -> ->. lia.
Qed.

(** ** The keys of a seeded database *)

Lemma in_key_app {A K} (key : A -> K) k l new :
  In k (map key (l ++ new)) <-> In k (map key l) \/ In k (map key new).
Proof. rewrite map_app. apply in_app_iff. Qed.

(** X10.  After a run that succeeds, the keys in the users, the customers
    and the revenue table are the keys that were there together with the
    keys of the fixture records: which keys the tables hold does not depend
    on the order in which the inserts settled. *)
Theorem seeded_key_sets fx d s k :
  snd (script fx (boot d s k)) = inr tt ->
  let d' := db (fst (script fx (boot d s k))) in
  (forall key, In key (map u_id (rows_of (users_t d'))) <->
     In key (map u_id (rows_of (users_t d))) \/
     exists u r, In u (users fx) /\ user_row_of u r /\ u_id r = key) /\
  (forall key, In key (map c_id (rows_of (customers_t d'))) <->
     In key (map c_id (rows_of (customers_t d))) \/
     exists r, customer_row_of fx r /\ c_id r = key) /\
  (forall key, In key (map r_month (rows_of (revenue_t d'))) <->
     In key (map r_month (rows_of (revenue_t d))) \/
     exists r, revenue_row_of fx r /\ r_month r = key).
Proof.
  intros H d'.
  pose proof (script_seeds fx d s k H) as S. fold d' in S.
  destruct (script_users fx d s k) as (nu & EU & FU). fold d' in EU.
  destruct (script_rows_from_fixture_aux fx d s k)
    as ((nc & EC & FC) & _ & (nr & ER & FR)).
  fold d' in EC, ER.
  split; [| split]; intros key.
  - rewrite EU, in_key_app. split.
    + intros [Ho | Hn]; [now left | right].
      apply in_map_iff in Hn. destruct Hn as (r & E & Hr).
      rewrite Forall_forall in FU.
      destruct (FU r Hr) as (u & p & salt & Hu & _ & Hrow).
      exists u, r. split; auto. split; auto. now exists (bcrypt_hash p 10 salt).
    + intros [Ho | (u & r & Hu & [h Hr] & E)]; [now left |].
      rewrite <- in_key_app, <- EU.
      destruct (S Users) as [_ F]. simpl in F.
      rewrite Forall_forall in F.
      destruct (F (UserTask u) (in_map UserTask _ _ Hu))
        as (p & r1 & rows & _ & Hr1 & T & K).
      rewrite T. simpl.
      apply (existsb_key u_id uuid_eqb key rows uuid_eqb_eq).
      rewrite (user_row_password _ _ _ _ Hr1 h) in Hr.
      inversion Hr; subst r. simpl in E. subst key. exact K.
  - rewrite EC, in_key_app. split.
    + intros [Ho | Hn]; [now left | right].
      apply in_map_iff in Hn. destruct Hn as (r & E & Hr).
      rewrite Forall_forall in FC. exists r. auto.
    + intros [Ho | (r & (c & Hc & Hr) & E)]; [now left |].
      rewrite <- in_key_app, <- EC.
      destruct (S Customers) as [_ F]. simpl in F.
      rewrite Forall_forall in F.
      destruct (F (CustomerTask c) (in_map CustomerTask _ _ Hc))
        as (r1 & rows & Hr1 & T & K).
      rewrite T. simpl.
      apply (existsb_key c_id uuid_eqb key rows uuid_eqb_eq).
      rewrite Hr1 in Hr. inversion Hr; subst r. subst key. exact K.
  - rewrite ER, in_key_app. split.
    + intros [Ho | Hn]; [now left | right].
      apply in_map_iff in Hn. destruct Hn as (r & E & Hr).
      rewrite Forall_forall in FR. exists r. auto.
    + intros [Ho | (r & (v & Hv & Hr) & E)]; [now left |].
      rewrite <- in_key_app, <- ER.
      destruct (S Revenue) as [_ F]. simpl in F.
      rewrite Forall_forall in F.
      destruct (F (RevenueTask v) (in_map RevenueTask _ _ Hv))
        as (r1 & rows & Hr1 & T & K).
      rewrite T. simpl.
      apply (existsb_key r_month String.eqb key rows string_eqb_iff).
      rewrite Hr1 in Hr. inversion Hr; subst r. subst key. exact K.
Qed.

(** ** The cost of hashing *)

Lemma run_task_salts x w q :
  snd (run_task x w) = inr q ->
  salts (fst (run_task x w)) =
  salts w + match x with UserTask _ => 1 | _ => 0 end.
Proof.
  destruct x as [u | c | i | v]; simpl.
  - unfold bind, bcrypt_hash_async.
    destruct (user_password u); [| discriminate].
    rewrite sql_eq. simpl. intros _. lia.
  - rewrite sql_eq. simpl. intros _. lia.
  - rewrite sql_eq. simpl. intros _. lia.
  - rewrite sql_eq. simpl. intros _. lia.
Qed.

Lemma settle_salts ts : forall acc w res,
  Forall (fun x => task_table x = Users) ts ->
  snd (settle ts acc w) = inr res ->
  salts (fst (settle ts acc w)) = salts w + List.length ts.
Proof.
  induction ts as [| x rest IH]; intros acc w res F; simpl.
  - intros _. lia.
  - inversion F as [| ? ? Hx Fr]; subst.
    pose proof (run_task_salts x w) as C.
    destruct (run_task x w) as [w1 [e | q]]; simpl in *; [discriminate |].
    intros H. rewrite (IH _ _ _ Fr H), (C q eq_refl).
    destruct x; try discriminate. lia.
Qed.

(** X11.  A run of [seedUsers] that returns has hashed the password of
    every record of its array, one salt each, whether or not the row was
    then stored: on a database that holds the users already, every hash is
    computed and thrown away. *)
Theorem seedUsers_hashes_every_record us w x :
  snd (seedUsers us w) = inr x ->
  salts (fst (seedUsers us w)) = salts w + List.length us /\
  (Forall (fun u => seeded_task (UserTask u) (db w)) us ->
   table_exists Users (db w) = true ->
   db (fst (seedUsers us w)) = set_uuid_ossp true (db w)).
Proof.
  rewrite seedUsers_loader. unfold loader. rewrite promise_all_eq.
  set (w1 := bump (after_init Users w)).
  set (l := settling (ticks (after_init Users w)) (map UserTask us)).
  assert (Fl : Forall (fun y => task_table y = Users) l).
  { apply settling_Forall. apply Forall_forall. intros y Hy.
    apply in_map_iff in Hy. destruct Hy as (u & <- & _). reflexivity. }
  pose proof (@settle_salts l [] w1) as C.
  pose proof (@settle_skips l [] w1) as K.
  destruct (settle l [] w1) as [w2 [e | res]]; simpl in *;
    [discriminate |].
  intros _. split.
  - rewrite (C res Fl eq_refl). unfold l.
    now rewrite settling_length, length_map.
  - intros S Ex.
    assert (D1 : init_db Users (db w) = set_uuid_ossp true (db w)).
    { unfold init_db. simpl. simpl in Ex. now rewrite Ex. }
    rewrite <- D1.
    apply K.
    + apply settling_Forall. apply Forall_forall. intros y Hy.
      apply in_map_iff in Hy. destruct Hy as (u & <- & Hu).
      rewrite Forall_forall in S. eapply seeded_task_le; [apply (S u Hu) |].
      apply init_db_le.
    + eapply Forall_impl; [| exact Fl]. simpl. intros a ->. discriminate.
Qed.


(** ** The results, record by record *)

Lemma arrange_spec ts order :
  Forall (fun i => i < List.length ts) order ->
  Forall2 (fun i x => nth_error ts i = Some x) order (arrange ts order).
Proof.
  induction 1 as [| i o Hi _ IH]; simpl; [constructor |].
  destruct (nth_error ts i) as [x |] eqn:E.
  - constructor; auto.
  - apply nth_error_None in E. lia.
Qed.

Lemma result_of_spec (S : nat -> QueryResult -> Prop) order qs :
  Forall2 S order qs ->
  forall i, In i order -> S i (result_of i order qs).
Proof.
  induction 1 as [| j q o r Hj _ IH]; intros i Hin; simpl in *; [tauto |].
  destruct (Nat.eqb_spec j i) as [<- | N]; [exact Hj |].
  destruct Hin as [-> | Hin]; [congruence | auto].
Qed.

Lemma Forall2_seq (R : Task -> QueryResult -> Prop) f ts : forall a,
  (forall i x, nth_error ts i = Some x -> R x (f (a + i))) ->
  Forall2 R ts (map f (seq a (List.length ts))).
Proof.
  induction ts as [| x ts IH]; intros a H; simpl; constructor.
  - specialize (H 0 x eq_refl). now rewrite Nat.add_0_r in H.
  - apply IH. intros i y Hy. specialize (H (S i) y Hy).
    now rewrite Nat.add_succ_r in H.
Qed.

(** What holds of each promise and its result as they settle holds of each
    record and its result in the array. *)
Lemma in_array_order_Forall2 (R : Task -> QueryResult -> Prop) ts order qs :
  Permutation order (seq 0 (List.length ts)) ->
  Forall2 R (arrange ts order) qs ->
  Forall2 R ts (in_array_order order qs).
Proof.
  intros Pm F.
  assert (In_o : forall i, In i order <-> i < List.length ts).
  { intros i. split; intros H.
    - apply (Permutation_in _ Pm), in_seq in H. lia.
    - apply (Permutation_in _ (Permutation_sym Pm)), in_seq. lia. }
  assert (Fo : Forall (fun i => i < List.length ts) order)
    by (apply Forall_forall; intros i; apply In_o).
  pose proof (@arrange_spec ts order Fo) as A.
  assert (L : List.length qs = List.length ts).
  { rewrite <- (Forall2_length F), <- (Forall2_length A).
    rewrite (Permutation_length Pm). apply length_seq. }
  assert (S : Forall2 (fun i q => forall x, nth_error ts i = Some x -> R x q)
                order qs).
  { revert A F. generalize (arrange ts order). clear.
    intros l A. revert qs.
    induction A as [| i x o l Hi _ IH]; intros qs F;
      inversion F as [| ? q ? r Hq Fr]; subst; constructor; auto.
    intros x' Hx'. congruence. }
  unfold in_array_order. rewrite L.
  apply Forall2_seq. intros i x Hx. simpl.
  apply (result_of_spec S); auto.
  apply In_o. apply nth_error_Some. congruence.
Qed.

Lemma settle_reports d0 ts : forall acc w res,
  db_le d0 (db w) ->
  snd (settle ts acc w) = inr res ->
  exists qs, res = rev acc ++ qs /\
    Forall2 (fun x q => seeded_task x d0 -> task_table x <> Invoices ->
                        q = Some 0) ts qs.
Proof.
  induction ts as [| x ts IH]; intros acc w res L; simpl.
  - intros [= <-]. exists []. rewrite app_nil_r. split; auto.
  - pose proof (evolves_task x w) as [D _ _].
    pose proof (run_task_skips x w) as K.
    destruct (run_task x w) as [w1 [e | q]]; simpl in *; [discriminate |].
    intros H.
    destruct (IH (q :: acc) w1 res (db_le_trans L D) H) as (qs & -> & F).
    exists (q :: qs). simpl. rewrite <- app_assoc. split; auto.
    constructor; auto. intros Sx Nx.
    destruct (K (@seeded_task_le x d0 (db w) Sx L) Nx) as [E _].
    now inversion E.
Qed.

(** X12.  The results a loader returns stand in the order of its array,
    not in the order in which the inserts settled: whenever a loader whose
    statement supplies the key returns, the result at the place of a record
    that was stored before the run reports no row.  Such a record is never
    reported as inserted. *)
Theorem stored_record_reports_no_row fx t w ct res :
  t <> Invoices -> snd (seed fx t w) = inr (ct, res) ->
  Forall2 (fun x q => seeded_task x (db w) -> q = Some 0)
          (phase_tasks fx t) res.
Proof.
  intros N. rewrite seed_loader, loader_outcome.
  set (start := bump (after_init t w)).
  set (l := settling (ticks w) (phase_tasks fx t)).
  assert (L : db_le (db w) (db start)) by apply init_db_le.
  pose proof (@settle_reports (db w) l [] start) as Rp.
  destruct (snd (settle l [] start)) as [e | qs]; [discriminate |].
  intros [= <- <-].
  destruct (Rp qs L eq_refl) as (qs' & E & F). simpl in E. subst qs'.
  apply in_array_order_Forall2; [apply schedule_perm |].
  fold (settling (ticks w) (phase_tasks fx t)). fold l.
  assert (Tl : Forall (fun x => task_table x = t) l)
    by apply settling_Forall, phase_tasks_table.
  clear Rp. revert Tl. induction F as [| x q ts qs Hx _ IH]; intros Tl;
    constructor; inversion Tl; subst; auto.
Qed.


End Facts.

(** * The claims on examples *)

Module Examples.

Import Sample.

Lemma append_length a b :
  String.length (a ++ b) = String.length a + String.length b.
Proof. induction a; simpl; auto. Qed.

Lemma drop_append a b : drop (String.length a) (a ++ b) = b.
Proof. induction a; simpl; auto. Qed.

Lemma tag_length rounds salt : 0 < String.length (tag rounds salt).
Proof. unfold tag. simpl. lia. Qed.

Lemma compare_accepts p c salt :
  Sample.bcrypt_compare p (Sample.bcrypt_hash p c salt) = true.
Proof.
  unfold Sample.bcrypt_compare, Sample.bcrypt_hash.
  pose proof (tag_length c salt) as L.
  rewrite append_length.
  replace (String.length (tag c salt) + String.length p - String.length p)
    with (String.length (tag c salt)) by lia.
  rewrite drop_append, String.eqb_refl. simpl.
  apply Nat.ltb_lt. lia.
Qed.

(** ** Texts *)

(** VARCHAR(4) takes a month of four characters, whatever its bytes; a
    fifth character is too much, unless it is a space. *)
Lemma month_counted_in_characters :
  String.length "Sept" = 4 /\
  (exists m, rev_month aout = Some m /\ String.length m = 5 /\
             revenue_row (Some m) (Some 1%Z) = inr (mkRevenueRow m 1)) /\
  snd (@seedRevenue fifo [aout] fresh) = inr (None, [Some 1]) /\
  revenue_row (Some "Sept.") (Some 1%Z) = inl StringDataRightTruncation /\
  revenue_row (Some "Sept ") (Some 1%Z) = inr (mkRevenueRow "Sept" 1).
Proof.
  split; [reflexivity |]. split; [eexists; repeat split |].
  repeat split.
Qed.

(** A text with a zero byte is refused by the server. *)
Lemma zero_byte_refused :
  snd (@seedCustomers fifo [torn] fresh) = inl (DbErr CharacterNotInRepertoire).
Proof. vm_compute. reflexivity. Qed.

(** ** The order of the results *)

(** Two records with one id, the second settling first: the second is
    stored, the first skipped, and the results come in the order of the
    array. *)
Lemma results_in_array_order :
  snd (@seedUsers lifo [ann; ann_renewed] fresh)
    = inr (None, [Some 0; Some 1]) /\
  snd (@seedUsers fifo [ann; ann_renewed] fresh)
    = inr (None, [Some 1; Some 0]).
Proof. split; vm_compute; reflexivity. Qed.

Lemma hash_differs p c salt : Sample.bcrypt_hash p c salt <> p.
Proof.
  unfold Sample.bcrypt_hash. intros E.
  apply (f_equal String.length) in E. rewrite append_length in E.
  pose proof (tag_length c salt). lia.
Qed.

(** C1, as stated, fails.  The second user violates the UNIQUE constraint
    on email: seedUsers throws, the run ends with the error logged, and the
    connection acquired at the start is never released. *)
Lemma main_leaks_connection_on_failure :
  let run := @script fifo two_users_one_email fresh in
  snd run = inl (DbErr UniqueViolation) /\
  acquisitions (trace (fst run)) = 1 /\
  releases (trace (fst run)) <> 1.
Proof.
  vm_compute. split; [reflexivity | split; [reflexivity | discriminate]].
Qed.

(** C2, as stated, fails for invoices: after the second run the table holds
    the fixture invoice twice. *)
Lemma invoices_doubled_by_second_run :
  let once := @script fifo small fresh in
  let twice := @script fifo small (boot (db (fst once)) 0 0) in
  snd once = inr tt /\ snd twice = inr tt /\
  row_count Invoices (db (fst once)) = 1 /\
  row_count Invoices (db (fst twice)) <> row_count Invoices (db (fst once)).
Proof.
  vm_compute.
  split; [reflexivity | split; [reflexivity | split; [reflexivity |]]].
  discriminate.
Qed.

(** C2, as amended, on a fixture of one record per table. *)
Lemma reseeding_counts_witness :
  let once := @script fifo small fresh in
  let twice := @script fifo small (boot (db (fst once)) 0 0) in
  snd once = inr tt /\
  row_count Users (db (fst twice)) = row_count Users (db (fst once)) /\
  row_count Invoices (db (fst twice)) = 2.
Proof.
  assert (H : snd (@script fifo small fresh) = inr tt)
    by (vm_compute; reflexivity).
  split; [exact H |].
  destruct (@reseeding_counts fifo small 0 0 0 0 H) as (_ & U & _ & _ & _ & I).
  split; [exact U | exact I].
Defined.

(** C3 on a batch that holds the same invoice twice. *)
Lemma seedInvoices_always_appends_witness :
  let run := @seedInvoices fifo [orphan; orphan] fresh in
  db_wf (db fresh) /\
  (exists x, snd run = inr x) /\
  row_count Invoices (db (fst run)) = 2.
Proof.
  assert (W : db_wf (db fresh)) by constructor.
  assert (Ok : Forall (@invoice_ok fifo) [orphan; orphan]).
  { repeat constructor; eexists; vm_compute; reflexivity. }
  destruct (@seedInvoices_always_appends fifo [orphan; orphan] fresh W)
    as (_ & A & new & T & _ & L).
  destruct (A Ok) as [x Hx].
  split; [exact W |]. split; [exists x; exact Hx |].
  destruct (L x Hx) as [_ Ln].
  unfold row_count. rewrite T. simpl. exact Ln.
Defined.

(** C4, as stated, fails.  The first customer has no name: its insert is
    rejected, seedCustomers throws, and the insert of the second customer
    has not settled. *)
Lemma loader_throws_before_all_settled :
  let run := @seedCustomers fifo [nameless; lee] fresh in
  snd run = inl (DbErr NotNullViolation) /\
  inflight (fst run) = [CustomerTask lee] /\
  inflight (fst run) <> [].
Proof.
  vm_compute. split; [reflexivity | split; [reflexivity | discriminate]].
Qed.

(** C5 on the revenue of two months, against a database that holds the
    first: the insert of January is skipped, the insert of February goes
    through, and the loader returns. *)
Lemma conflict_skips_error_throws_witness :
  let start := bump (after_init Revenue again) in
  let s := InsertRevenue (Some "Jan") (Some 100%Z) in
  @reaches fifo two_months Revenue again (RevenueTask jan) start
    [RevenueTask feb] /\
  @task_insert fifo (RevenueTask jan) start = Some s /\
  @conflicts fifo s (db start) /\
  exists out, snd (@seed fifo two_months Revenue again) = inr out.
Proof.
  intros start s.
  assert (R : @reaches fifo two_months Revenue again (RevenueTask jan) start
                [RevenueTask feb]).
  { exists [], []. split; reflexivity. }
  assert (I : @task_insert fifo (RevenueTask jan) start = Some s)
    by reflexivity.
  assert (C : @conflicts fifo s (db start)).
  { exists (mkRevenueRow "Jan" 100), [mkRevenueRow "Jan" 100].
    vm_compute. repeat split. }
  split; [exact R |]. split; [exact I |]. split; [exact C |].
  destruct (@conflict_skips_error_throws fifo two_months Revenue again
              (RevenueTask jan) start [RevenueTask feb] s R I) as [A _].
  destruct (A C) as (_ & _ & _ & Ret & _).
  apply Ret. exists [Some 1]. vm_compute. reflexivity.
Defined.

Lemma marks_length n : String.length (marks n) = n.
Proof. induction n; simpl; auto. Qed.

(** C6, as stated, fails for a record that is skipped.  The first run stores
    [ann] with the hash of her password.  After the password has changed in
    the data file, a second run reports the user as seeded and returns, but
    the insert was skipped on the id: the stored value is still the hash of
    the old password, which is no hash of the new one and does not verify
    against it. *)
Lemma skipped_user_keeps_old_hash :
  let once := @seedUsers fifo [ann] fresh in
  let twice := @seedUsers fifo [ann_renewed] (boot (db (fst once)) 1 1) in
  snd once = inr (None, [Some 1]) /\
  snd twice = inr (None, [Some 0]) /\
  In (EvConsole (Seeded 1 Users)) (trace (fst twice)) /\
  exists r,
    users_t (db (fst twice)) = Some [r] /\
    u_password r = Sample.bcrypt_hash "plain" 10 0 /\
    Sample.bcrypt_compare "changed" (u_password r) = false /\
    forall salt, u_password r <> Sample.bcrypt_hash "changed" 10 salt.
Proof.
  cbv zeta.
  split; [vm_compute; reflexivity |].
  split; [vm_compute; reflexivity |].
  split; [vm_compute; auto 10 |].
  eexists. split; [vm_compute; reflexivity |].
  split; [vm_compute; reflexivity |].
  split; [vm_compute; reflexivity |].
  intros salt E. apply (f_equal String.length) in E.
  unfold Sample.bcrypt_hash, tag in E.
  rewrite !append_length, !marks_length in E. simpl in E. lia.
Qed.

(** C6, as amended, on a first run: the one row stored carries the hash of
    the password of [ann], under the stand-in for bcrypt, which keeps the
    contract. *)
Lemma stored_password_is_hash_witness :
  exists r u p,
    users_t (db (fst (@seedUsers fifo [ann] fresh))) = Some [r] /\
    In u [ann] /\ user_password u = Some p /\
    u_password r <> p /\ Sample.bcrypt_compare p (u_password r) = true.
Proof.
  destruct (@stored_password_is_hash fifo [ann] fresh)
    as (new & E & _ & _ & _ & Ct).
  specialize (Ct (fun p salt => @hash_differs p 10 salt)
                 (fun p salt => compare_accepts p 10 salt)).
  assert (T : exists r, users_t (db (fst (@seedUsers fifo [ann] fresh)))
                        = Some [r])
    by (eexists; vm_compute; reflexivity).
  destruct T as [r T]. rewrite T in E. simpl in E. subst new.
  apply Forall_inv in Ct. destruct Ct as (u & p & Hu & Hp & _ & Hd & Hc).
  exists r, u, p. auto.
Defined.

(** C8 on an invoice of a customer that the customers table lacks. *)
Lemma orphan_invoice_inserted_witness :
  let run := @seedInvoices fifo [orphan] with_lee in
  has_customer_id (i_customer_id orphan_row)
    (rows_of (customers_t (db with_lee))) = false /\
  snd run = inr (None, [Some 1]) /\
  row_count Invoices (db (fst run)) = 1 /\
  row_count Customers (db (fst run)) = 1.
Proof.
  assert (W : db_wf (db with_lee)) by (vm_compute; constructor).
  assert (R : @invoice_row fifo (Gen 0) (invoice_customer_id orphan)
                (invoice_amount orphan) (invoice_status orphan)
                (invoice_date orphan) = inr orphan_row)
    by (vm_compute; reflexivity).
  assert (O : has_customer_id (i_customer_id orphan_row)
                (rows_of (customers_t (db with_lee))) = false)
    by (vm_compute; reflexivity).
  destruct (@orphan_invoice_inserted fifo orphan with_lee orphan_row W R O)
    as (r & Hr & Ti & _ & Tc & _).
  split; [exact O |]. split; [exact Hr |].
  unfold row_count. rewrite Ti, Tc. split; vm_compute; reflexivity.
Defined.

(** C9 for the users table, re-initialised after a run has filled it. *)
Lemma schema_init_idempotent_witness :
  let later := db (fst (@script fifo small (boot users_ready 0 0))) in
  db_le users_ready later /\
  row_count Users later = 1 /\
  @exec_all fifo (schema_stmts Users) later = (later, inr None).
Proof.
  intros later.
  assert (L : db_le users_ready later).
  { apply (@script_run fifo small users_ready 0 0). }
  split; [exact L |]. split; [vm_compute; reflexivity |].
  apply (@schema_init_idempotent fifo small Users fresh empty_db later L).
Defined.

(** C10 on the fixture that holds the revenue record only. *)
Lemma revenue_jan_once_witness :
  let once := @script fifo jan_only fresh in
  let twice := @script fifo jan_only (boot (db (fst once)) 0 0) in
  snd once = inr tt /\
  row_count Revenue (db (fst once)) = 1 /\
  row_count Revenue (db (fst twice)) = 1.
Proof.
  destruct (@revenue_jan_once fifo [] [] [] 0 0 0 0) as [A B].
  assert (H : snd (@script fifo jan_only fresh) = inr tt).
  { apply A. repeat split. }
  split; [exact H |]. split; [vm_compute; reflexivity |].
  apply (B H).
Defined.


(** ** The further properties on the samples *)

(** X2 on the empty database. *)
Lemma script_keeps_keys_unique_witness :
  @db_unique empty_db /\ db_wf empty_db /\
  db_unique (db (fst (@script fifo small fresh))).
Proof.
  assert (U : db_unique empty_db) by (repeat split; constructor).
  split; [exact U |]. split; [exact empty_db_wf |].
  apply (@script_keeps_keys_unique fifo small empty_db 0 0 U empty_db_wf).
Defined.

(** X3 on the database a first run has left: a second and a third run. *)
Lemma rerun_keeps_keyed_tables_witness :
  let once := @script fifo small again in
  let twice := @script fifo small (boot (db (fst once)) 0 0) in
  db_wf seeded_db /\ snd once = inr tt /\
  users_t (db (fst twice)) = users_t (db (fst once)).
Proof.
  assert (W : db_wf seeded_db).
  { apply (@script_run fifo small empty_db 0 0). exact empty_db_wf. }
  assert (H : snd (@script fifo small again) = inr tt)
    by (vm_compute; reflexivity).
  split; [exact W |]. split; [exact H |].
  apply (@rerun_keeps_keyed_tables fifo small seeded_db 0 0 0 0 W H).
Defined.

(** X4 on the customers loader. *)
Lemma seed_postcondition_witness :
  snd (@seed fifo small Customers fresh) = inr (None, [Some 1]) /\
  initialised Customers (db (fst (@seed fifo small Customers fresh))).
Proof.
  assert (H : snd (@seed fifo small Customers fresh) = inr (None, [Some 1]))
    by (vm_compute; reflexivity).
  split; [exact H |].
  apply (@seed_postcondition fifo small Customers fresh _ H).
Defined.

(** X5 on a second run of the revenue loader: one record logged as seeded,
    no row gained. *)
Lemma seed_row_accounting_witness :
  snd (@seed fifo small Revenue again) = inr (None, [Some 0]) /\
  row_count Revenue (db (fst (@seed fifo small Revenue again))) =
    row_count Revenue (db again) + list_sum (map rows_reported [Some 0]).
Proof.
  assert (H : snd (@seed fifo small Revenue again) = inr (None, [Some 0]))
    by (vm_compute; reflexivity).
  split; [exact H |].
  apply (@seed_row_accounting fifo small Revenue again None [Some 0] H).
Defined.

(** X7 on the customers loader over a record without a name. *)
Lemma loader_returns_iff_records_ok_witness :
  Customers <> Users /\ db_wf (db fresh) /\
  ~ (exists x,
       snd (@seed fifo (mkFixture [] [lee; nameless] [] []) Customers fresh)
       = inr x).
Proof.
  assert (N : Customers <> Users) by discriminate.
  assert (W : db_wf (db fresh)) by constructor.
  split; [exact N |]. split; [exact W |].
  intros Hx.
  apply (@loader_returns_iff_records_ok fifo
           (mkFixture [] [lee; nameless] [] []) Customers fresh N W) in Hx.
  simpl in Hx. apply Forall_inv_tail in Hx. apply Forall_inv in Hx.
  destruct Hx as [r Hr]. vm_compute in Hr. discriminate.
Defined.


(** X9 on the run that fails in the users loader: no customers table. *)
Lemma failure_leaves_later_tables_witness :
  snd (@script fifo two_users_one_email fresh)
    = inl (DbErr UniqueViolation) /\
  customers_t (db (fst (@script fifo two_users_one_email fresh))) = None.
Proof.
  assert (H : snd (@script fifo two_users_one_email fresh)
              = inl (DbErr UniqueViolation)) by (vm_compute; reflexivity).
  split; [exact H |].
  destruct (@failure_leaves_later_tables fifo two_users_one_email empty_db
              0 0 _ H) as (t & Ie & F).
  assert (t = Users).
  { vm_compute in Ie.
    repeat (destruct Ie as [Ie | Ie]; [try discriminate Ie |]).
    - now inversion Ie.
    - destruct Ie. }
  subst t. symmetry. apply (F Customers). simpl. lia.
Defined.

(** X10 on [small]: the id of [lee] is among the customers keys. *)
Lemma seeded_key_sets_witness :
  snd (@script fifo small fresh) = inr tt /\
  exists r, @customer_row_of fifo small r /\
    In (c_id r) (map c_id (rows_of (customers_t seeded_db))).
Proof.
  assert (H : snd (@script fifo small fresh) = inr tt)
    by (vm_compute; reflexivity).
  split; [exact H |].
  destruct (@seeded_key_sets fifo small empty_db 0 0 H) as (_ & C & _).
  assert (R : exists r, @customer_row_of fifo small r).
  { eexists. exists lee. split; [now left | reflexivity]. }
  destruct R as [r Hr]. exists r. split; [exact Hr |].
  apply C. right. exists r. auto.
Defined.

(** X12 on the revenue of two months, the first of which is stored. *)
Lemma stored_record_reports_no_row_witness :
  Revenue <> Invoices /\
  snd (@seed fifo two_months Revenue again)
    = inr (None, [Some 0; Some 1]) /\
  Forall2 (fun x q => @seeded_task fifo x (db again) -> q = Some 0)
          (phase_tasks two_months Revenue) [Some 0; Some 1].
Proof.
  assert (N : Revenue <> Invoices) by discriminate.
  assert (H : snd (@seed fifo two_months Revenue again)
              = inr (None, [Some 0; Some 1])) by (vm_compute; reflexivity).
  split; [exact N |]. split; [exact H |].
  apply (@stored_record_reports_no_row fifo two_months Revenue again
           None [Some 0; Some 1] N H).
Defined.

(** X11 on a database that holds the user already. *)
Lemma seedUsers_hashes_every_record_witness :
  snd (@seedUsers fifo [ann] again) = inr (None, [Some 0]) /\
  salts (fst (@seedUsers fifo [ann] again)) = 1.
Proof.
  assert (H : snd (@seedUsers fifo [ann] again) = inr (None, [Some 0]))
    by (vm_compute; reflexivity).
  split; [exact H |].
  apply (@seedUsers_hashes_every_record fifo [ann] again _ H).
Defined.

End Examples.
